(** * avm: resolution engine, install store and commands

    A shallow embedding of the core of avm, a version manager for AI coding
    agents: [agents.js] (name, package, version and args resolution),
    [state.js] (JSON persistence helpers), [install.js] (the install
    store and the discovery of a tool's executable), the project
    configuration and the install, global and local commands of
    [commands.js], and the version comparison of [selfUpdate.js].

    Conventions of the embedding:
    - a JavaScript string is the [string] of the bytes of its UTF-8 text:
      the ASCII characters that the sources look for (['@'], ['/'], ['.'],
      the space) are single bytes that occur in no other character, and
      white space is the WhiteSpace and LineTerminator of ECMAScript;
    - the inputs of the resolution engine have the shape that the
      configuration and state formats prescribe: an optional string field
      ([undefined], [null] or a string) is an [option string], truthy when
      it holds a non-empty string;
    - what is read from disk is not trusted to have a shape: the content of
      a file is an arbitrary [json] value, or does not parse;
    - an [async] function is a function of the world (file system and
      trace of effects) that returns a result and the new world; a thrown
      [Error] is the [Err] branch of [result], and the world survives it. *)

From stdpp Require Import base option list strings gmap.
From Stdlib Require Import ZArith Ascii String DecimalString DecimalN Lia.

Local Open Scope Z_scope.

(** ** JavaScript string primitives used by the sources *)

Module Js.

(** The byte [c] has the value [n]. *)
Definition byte (n : nat) (c : ascii) : bool := Nat.eqb (nat_of_ascii c) n.

(** The white space of one byte is [Ascii.is_space]: tab, line feed,
    vertical tab, form feed, carriage return and space. The white space of
    two bytes: U+00A0. *)
Definition space2 (a b : ascii) : bool := byte 194 a && byte 160 b.

(** The white space of three bytes: U+1680, U+2000 to U+200A, U+2028,
    U+2029, U+202F, U+205F, U+3000 and U+FEFF. *)
Definition space3 (a b c : ascii) : bool :=
  (byte 225 a && byte 154 b && byte 128 c)
  || (byte 226 a && byte 128 b
      && ((128 <=? nat_of_ascii c)%nat && (nat_of_ascii c <=? 138)%nat
          || byte 168 c || byte 169 c || byte 175 c))
  || (byte 226 a && byte 129 b && byte 159 c)
  || (byte 227 a && byte 128 b && byte 128 c)
  || (byte 239 a && byte 187 b && byte 191 c).

(** The number of bytes of the white space character at the front of [s];
    0 when [s] starts with none. *)
Definition space_width (s : string) : nat :=
  match s with
  | String a r1 =>
      if Ascii.is_space a then 1 else
      match r1 with
      | String b r2 =>
          if space2 a b then 2 else
          match r2 with
          | String c _ => if space3 a b c then 3 else 0
          | EmptyString => 0
          end
      | EmptyString => 0
      end
  | EmptyString => 0
  end%nat.

(** [String.prototype.trim], front part: the white space characters at
    the front are cut off, one after the other. *)
Fixpoint trimStart (s : string) : string :=
  match s with
  | String a r1 =>
      if Ascii.is_space a then trimStart r1 else
      match r1 with
      | String b r2 =>
          if space2 a b then trimStart r2 else
          match r2 with
          | String c r3 => if space3 a b c then trimStart r3 else s
          | EmptyString => s
          end
      | EmptyString => s
      end
  | EmptyString => EmptyString
  end.

(** [s] holds white space only. *)
Definition blank (s : string) : bool :=
  match trimStart s with EmptyString => true | String _ _ => false end.

(** [String.prototype.trim], back part: the text up to the longest suffix
    that holds white space only. *)
Fixpoint trimEnd (s : string) : string :=
  match s with
  | EmptyString => EmptyString
  | String c s' => if blank s then EmptyString else String c (trimEnd s')
  end.

Definition trim (s : string) : string := trimEnd (trimStart s).

Definition lower_ascii (c : ascii) : ascii :=
  let n := nat_of_ascii c in
  if ((65 <=? n) && (n <=? 90))%nat then ascii_of_nat (n + 32) else c.

(** [String.prototype.toLowerCase] on the letters A to Z; the letters
    outside ASCII are left as they are. In JavaScript the lower case of a
    character outside ASCII holds a character outside ASCII again, but for
    the Kelvin sign, whose lower case is [k], a letter of none of [codex],
    [claude], [gemini]: so whether the lower case of a text is a supported
    name, and whether it is empty, is what it is in JavaScript. *)
Fixpoint toLowerCase (s : string) : string :=
  match s with
  | EmptyString => EmptyString
  | String c s' => String (lower_ascii c) (toLowerCase s')
  end.

(** [s.lastIndexOf(c)] for a one-character needle: scans left to right,
    remembering the last position seen; [-1] when there is none. *)
Fixpoint lastIndexOf_from (c : ascii) (s : string) (i acc : Z) : Z :=
  match s with
  | EmptyString => acc
  | String a s' => lastIndexOf_from c s' (i + 1) (if Ascii.eqb a c then i else acc)
  end.

Definition lastIndexOf (c : ascii) (s : string) : Z := lastIndexOf_from c s 0 (-1).

Fixpoint take (n : nat) (s : string) : string :=
  match n, s with
  | S n', String c s' => String c (take n' s')
  | _, _ => EmptyString
  end.

Fixpoint drop (n : nat) (s : string) : string :=
  match n, s with
  | S n', String _ s' => drop n' s'
  | _, _ => s
  end.

(** [s.slice(0, e)] and [s.slice(b)] for non-negative bounds. *)
Definition slice_to (e : Z) (s : string) : string := take (Z.to_nat e) s.
Definition slice_from (b : Z) (s : string) : string := drop (Z.to_nat b) s.

(** [s.split(sep)] for a one-character separator: never empty. *)
Fixpoint split (sep : ascii) (s : string) : list string :=
  match s with
  | EmptyString => [EmptyString]
  | String c s' =>
      if Ascii.eqb c sep then EmptyString :: split sep s'
      else match split sep s' with
           | t :: ts => String c t :: ts
           | [] => [String c EmptyString]
           end
  end.

(** [s.replace(/[\\/]/g, r)]. *)
Fixpoint replace_slashes (r : string) (s : string) : string :=
  match s with
  | EmptyString => EmptyString
  | String c s' =>
      if Ascii.eqb c "/" || Ascii.eqb c "\"
      then r +:+ replace_slashes r s'
      else String c (replace_slashes r s')
  end.

(** [s.includes(c)] for a one-character needle. *)
Fixpoint includes (c : ascii) (s : string) : bool :=
  match s with
  | EmptyString => false
  | String a s' => Ascii.eqb a c || includes c s'
  end.

(** [s] starts with no white space. *)
Definition starts_clean (s : string) : Prop := space_width s = 0%nat.

Definition nonempty (s : string) : bool :=
  match s with EmptyString => false | String _ _ => true end.

(** Truthiness of an optional string: [undefined], [null] and [''] are
    falsy. *)
Definition truthy (v : option string) : bool :=
  match v with Some s => nonempty s | None => false end.

(** [a || b] on optional strings. *)
Definition or (a b : option string) : option string :=
  if truthy a then a else b.

(** [a || d] where [d] is a string literal. *)
Definition or_lit (a : option string) (d : string) : string :=
  match a with
  | Some s => if nonempty s then s else d
  | None => d
  end.

(** The text of a sequence of bytes. *)
Fixpoint text (bytes : list Z) : string :=
  match bytes with
  | [] => EmptyString
  | n :: rest => String (ascii_of_nat (Z.to_nat n)) (text rest)
  end.

(** WhiteSpace and LineTerminator of ECMAScript, the characters that
    [trim] takes away, in UTF-8. *)
Definition WHITE_SPACE : list string :=
  [text [9]; text [10]; text [11]; text [12]; text [13]; text [32];
   text [194; 160]; text [225; 154; 128];
   text [226; 128; 128]; text [226; 128; 129]; text [226; 128; 130];
   text [226; 128; 131]; text [226; 128; 132]; text [226; 128; 133];
   text [226; 128; 134]; text [226; 128; 135]; text [226; 128; 136];
   text [226; 128; 137]; text [226; 128; 138];
   text [226; 128; 168]; text [226; 128; 169]; text [226; 128; 175];
   text [226; 129; 159]; text [227; 128; 128]; text [239; 187; 191]].

(** The strings of a list, one after the other. *)
Fixpoint join_all (xs : list string) : string :=
  match xs with
  | [] => EmptyString
  | x :: rest => x +:+ join_all rest
  end.

End Js.

Infix "|||" := Js.or (at level 50, left associativity).

(** ** Errors

    The first four are the errors that the sources throw with a message of
    their own; [JsonSyntaxError] is the [SyntaxError] of [JSON.parse],
    [TypeError] the one of a property access on [null] or of a call of a
    missing method, [IoError] an error of [fs] with its [code],
    [CommandFailed] the rejection of [runCommand] on a non-zero exit code
    and [SpawnFailure] its rejection on the child's [error] event. *)

Inductive error :=
  | NoAgentSpecified
  | UnsupportedAgent (name : string)
  | NoPackageConfigured (name : string)
  | ConfigParseError (file : string)
  | JsonSyntaxError
  | TypeError
  | IoError (code : string)
  | CommandFailed (cmdline : string) (code : Z)
  | SpawnFailure (cmd : string).

Inductive result (A : Type) :=
  | Ok (a : A)
  | Err (e : error).
Arguments Ok {A} a.
Arguments Err {A} e.

#[global] Instance result_ret : MRet result := λ A a, Ok a.
#[global] Instance result_bind : MBind result := λ A B f m,
  match m with Ok a => f a | Err e => Err e end.
#[global] Instance result_fmap : FMap result := λ A B f m,
  match m with Ok a => Ok (f a) | Err e => Err e end.

(** ** agents.js *)

Module Agents.

Definition SUPPORTED_AGENTS : gset string := {[ "codex"; "claude"; "gemini" ]}.

Definition DEFAULT_PACKAGES : gmap string string :=
  <[ "codex" := "@openai/codex" ]>
  (<[ "claude" := "@anthropic-ai/claude-code" ]>
  (<[ "gemini" := "@google/gemini-cli" ]> ∅)).

Definition normalizeAgentName (name : option string) : string :=
  Js.toLowerCase (Js.trim (Js.or_lit name "")).

Definition assertSupportedAgent (name : string) : result unit :=
  if decide (name ∈ SUPPORTED_AGENTS) then Ok tt else Err (UnsupportedAgent name).

(** Each [if (x) return x;] returns [x] when it is a non-empty string.
    [DEFAULT_PACKAGES[name]] is a lookup in the table for every [name] that
    does not name a property of [Object.prototype]; the callers pass
    supported names only. *)
Definition resolvePackageName (name : string)
    (packageOverride configPackage statePackage : option string) : result string :=
  match packageOverride with
  | Some (String c s) => Ok (String c s)
  | _ =>
  match configPackage with
  | Some (String c s) => Ok (String c s)
  | _ =>
  match statePackage with
  | Some (String c s) => Ok (String c s)
  | _ =>
  match DEFAULT_PACKAGES !! name with
  | Some (String c s) => Ok (String c s)
  | _ => Err (NoPackageConfigured name)
  end end end end.

(** The object [{ name }] or [{ name, version }] that [parseAgentSpec]
    returns. *)
Record spec := { spec_name : string; spec_version : option string }.

Definition parseAgentSpec (input : option string) : option spec :=
  match input with
  | None => None
  | Some input =>
    if negb (Js.nonempty input) then None else
    let trimmed := Js.trim input in
    if negb (Js.nonempty trimmed) then None else
    let atIndex := Js.lastIndexOf "@" trimmed in
    if 0 <? atIndex then
      let name := normalizeAgentName (Some (Js.slice_to atIndex trimmed)) in
      let version := Js.slice_from (atIndex + 1) trimmed in
      if negb (Js.nonempty name) then None
      else if negb (Js.nonempty version)
      then Some {| spec_name := name; spec_version := None |}
      else Some {| spec_name := name; spec_version := Some version |}
    else
      let name := normalizeAgentName (Some trimmed) in
      if negb (Js.nonempty name) then None
      else Some {| spec_name := name; spec_version := None |}
  end.

(** [argString] is a string, or [None] for [null], [undefined] and any
    value that is not a string. *)
Definition parseArgsString (argString : option string) : list string :=
  match argString with
  | None => []
  | Some s =>
      if negb (Js.nonempty s) then []
      else filter (λ part, Is_true (Js.nonempty part)) (map Js.trim (Js.split " " s))
  end.

(** One tool section of the project configuration, as [loadProjectConfig]
    builds it; the empty object [{}] is [no_entry]. *)
Record entry := {
  e_package : option string;
  e_version : option string;
  e_args : option string }.

Definition no_entry : entry :=
  {| e_package := None; e_version := None; e_args := None |}.

Record config := {
  cfg_default : option string;
  cfg_agents : gmap string entry;
  cfg_path : option string }.

(** [state.current]: the last target that was run or set as global
    default. *)
Record current := {
  cur_name : option string;
  cur_package : option string;
  cur_version : option string;
  cur_args : option string }.

Record state := { st_current : option current }.

Record overrides := {
  packageOverride : option string;
  argsOverride : option string }.

Definition no_overrides : overrides :=
  {| packageOverride := None; argsOverride := None |}.

Record target := {
  name : string;
  package : string;
  version : string;
  args : string }.

Definition resolveTarget (agentArg : option string) (config : config)
    (state : state) (opts : overrides) : result target :=
  let parsed := parseAgentSpec agentArg in
  let rawName :=
    (spec_name <$> parsed) ||| cfg_default config
      ||| (st_current state ≫= cur_name) in
  let name := normalizeAgentName rawName in
  if negb (Js.nonempty name) then Err NoAgentSpecified else
  _ ← assertSupportedAgent name;
  let fromConfig := default no_entry (cfg_agents config !! name) in
  let currentForAgent :=
    match st_current state with
    | Some c =>
        if String.eqb (normalizeAgentName (cur_name c)) name then Some c else None
    | None => None
    end in
  packageName ← resolvePackageName name (packageOverride opts)
                   (e_package fromConfig) (currentForAgent ≫= cur_package);
  let version :=
    Js.or_lit ((parsed ≫= spec_version) ||| e_version fromConfig
                 ||| (currentForAgent ≫= cur_version)) "latest" in
  let args :=
    Js.or_lit (argsOverride opts ||| e_args fromConfig
                 ||| (currentForAgent ≫= cur_args)) "" in
  Ok {| name := name; package := packageName; version := version; args := args |}.

End Agents.

(** ** JSON values

    What [JSON.parse] returns. Object properties are kept in insertion
    order; number literals are kept as integers (only whether a number is
    zero is ever observed). *)

#[local] Set Warnings "-register-all".
Inductive json :=
  | JNull
  | JBool (b : bool)
  | JNum (n : Z)
  | JStr (s : string)
  | JArr (xs : list json)
  | JObj (props : list (string * json)).

Module Json.

(** JavaScript truthiness. *)
Definition truthy (j : json) : bool :=
  match j with
  | JNull => false
  | JBool b => b
  | JNum n => negb (n =? 0)
  | JStr s => Js.nonempty s
  | JArr _ | JObj _ => true
  end.

(** Truthiness of the result of a property access ([None] is
    [undefined]). *)
Definition truthy_opt (v : option json) : bool :=
  match v with Some j => truthy j | None => false end.

(** [a || b]. *)
Definition or (a b : option json) : option json :=
  if truthy_opt a then a else b.

(** [a || d] for a literal [d]. *)
Definition or_lit (a : option json) (d : json) : json :=
  match a with
  | Some j => if truthy j then j else d
  | None => d
  end.

Fixpoint assoc (k : string) (ps : list (string * json)) : option json :=
  match ps with
  | [] => None
  | (k', v) :: ps' => if String.eqb k' k then Some v else assoc k ps'
  end.

(** [o[k] = v] on the property list of an object: an existing key keeps
    its place, a new key goes last. *)
Fixpoint set (k : string) (v : json) (ps : list (string * json))
    : list (string * json) :=
  match ps with
  | [] => [(k, v)]
  | (k', v') :: ps' =>
      if String.eqb k' k then (k, v) :: ps' else (k', v') :: set k v ps'
  end.

(** [Object.assign(o, q)], the step of an object spread. *)
Definition assign (ps qs : list (string * json)) : list (string * json) :=
  fold_left (λ acc kv, set kv.1 kv.2 acc) qs ps.

Definition index_key (i : nat) : string :=
  NilEmpty.string_of_uint (Nat.to_uint i).

Fixpoint indexed {A} (f : A → json) (i : nat) (xs : list A) : list (string * json) :=
  match xs with
  | [] => []
  | x :: xs' => (index_key i, f x) :: indexed f (S i) xs'
  end.

Fixpoint chars (s : string) : list string :=
  match s with
  | EmptyString => []
  | String c s' => String c EmptyString :: chars s'
  end.

(** The own enumerable properties that [{...j}] copies: the properties
    of an object, the elements of an array and the characters of a
    string under their indices, nothing for the other values. *)
Definition own_props (j : json) : list (string * json) :=
  match j with
  | JObj ps => ps
  | JArr xs => indexed id 0 xs
  | JStr s => indexed JStr 0 (chars s)
  | _ => []
  end.

(** [j.k] for the property names the sources read ([name], [package],
    [version], [args], [default], ...): none of them is a property of a
    primitive or of an array. *)
Definition get (j : json) (k : string) : option json :=
  match j with
  | JObj ps => assoc k ps
  | _ => None
  end.

(** Structural equality. *)
Fixpoint eqb (a b : json) {struct a} : bool :=
  match a, b with
  | JNull, JNull => true
  | JBool x, JBool y => Bool.eqb x y
  | JNum x, JNum y => x =? y
  | JStr x, JStr y => String.eqb x y
  | JArr xs, JArr ys =>
      (fix go (xs ys : list json) {struct xs} : bool :=
         match xs, ys with
         | [], [] => true
         | x :: xs', y :: ys' => eqb x y && go xs' ys'
         | _, _ => false
         end) xs ys
  | JObj ps, JObj qs =>
      (fix go (ps qs : list (string * json)) {struct ps} : bool :=
         match ps, qs with
         | [], [] => true
         | (k, x) :: ps', (l, y) :: qs' => String.eqb k l && eqb x y && go ps' qs'
         | _, _ => false
         end) ps qs
  | _, _ => false
  end.

(** [a === b] between the results of two property accesses. Arrays and
    objects are compared by identity in JavaScript; here every comparison
    of two such values is between a value and itself, where structural
    equality gives the same answer. *)
Definition strict_eq (a b : option json) : bool :=
  match a, b with
  | None, None => true
  | Some x, Some y => eqb x y
  | _, _ => false
  end.

End Json.

Notation "a !== b" := (negb (Json.strict_eq a b)) (at level 70, no associativity).

(** ** The world outside the process

    The file system is a set of directories and a map from the paths of
    regular files to what [JSON.parse] makes of their text. [trace] records,
    oldest first, the effects performed so far. *)

Inductive content :=
  | Unparseable
  | Doc (j : json).

Inductive event :=
  | Mkdir (p : string)
  | Rm (p : string)
  | WriteFile (p : string) (j : json)
  | Spawn (cmd : string) (argv : list string)
  | Log (msg : string).

Record world := {
  dirs : gset string;
  files : gmap string content;
  trace : list event }.

(** What the surroundings answer during one call: the clock read by
    [new Date().toISOString()] and the way the spawned child ends. *)
Inductive child :=
  | Exit (code : Z)
  | Failed.

Record ambient := { now : string; child_end : child }.

(** Asynchronous functions: the world is threaded through, and survives a
    thrown error. *)
Definition io (A : Type) : Type := world → result A * world.

Definition io_ret {A} (a : A) : io A := λ w, (Ok a, w).

Definition io_bind {A B} (m : io A) (f : A → io B) : io B :=
  λ w, match m w with
       | (Ok a, w') => f a w'
       | (Err e, w') => (Err e, w')
       end.

Definition io_throw {A} (e : error) : io A := λ w, (Err e, w).

(** [try { m } catch (err) { h(err) }]. *)
Definition io_catch {A} (m : io A) (h : error → io A) : io A :=
  λ w, match m w with
       | (Ok a, w') => (Ok a, w')
       | (Err e, w') => h e w'
       end.

Definition io_lift {A} (r : result A) : io A := λ w, (r, w).

Notation "'let*' x := m 'in' k" := (io_bind m (λ x, k))
  (at level 10, x binder, m at level 100, k at level 200).

Definition emit (e : event) : io unit :=
  λ w, (Ok tt, {| dirs := dirs w; files := files w; trace := trace w ++ [e] |}).

Module Path.

(** [path.join(a, b)] for a normalised path [a] other than the root and a
    relative path [b] that needs no normalisation (no empty segment, no
    [.], no [..]): there [path.join] puts a separator between the two. The
    home directory and the working directory are normalised paths; where
    [b] comes from the user (a version, the entry that a manifest
    declares), the statements that depend on it say that it is plain. *)
Definition join (a b : string) : string := a +:+ "/" +:+ b.

(** [path.dirname(p)]. *)
Definition dirname (p : string) : string :=
  let i := Js.lastIndexOf "/" p in
  if i <? 0 then "." else if i =? 0 then "/" else Js.slice_to i p.

(** [q] is [p] or lies below it. *)
Definition under (p q : string) : bool :=
  String.eqb p q || String.prefix (p +:+ "/") q.

(** The directories on the way to [p]: what stands before each separator
    of [p], the root first. *)
Fixpoint parents_from (before p : string) : list string :=
  match p with
  | EmptyString => []
  | String c rest =>
      (if Ascii.eqb c "/" then [before] else [])
      ++ parents_from (before +:+ String c EmptyString) rest
  end.

Definition parents (p : string) : list string := parents_from "" p.

End Path.

Module Fs.

(** [fs.access(p)] succeeds. *)
Definition exists_ (p : string) (w : world) : bool :=
  bool_decide (p ∈ dirs w) || bool_decide (is_Some (files w !! p)).

(** A regular file stands where the way to [p] needs a directory. *)
Definition below_file (p : string) (w : world) : bool :=
  existsb (λ q, bool_decide (is_Some (files w !! q))) (Path.parents p).

(** [fs.readFile(p, 'utf8')], then the result of parsing the text. A
    directory gives [EISDIR], a path below a regular file [ENOTDIR], and
    any other missing path [ENOENT]. *)
Definition readFile (p : string) : io content :=
  λ w, match files w !! p with
       | Some c => (Ok c, w)
       | None =>
           if bool_decide (p ∈ dirs w) then (Err (IoError "EISDIR"), w)
           else if below_file p w then (Err (IoError "ENOTDIR"), w)
           else (Err (IoError "ENOENT"), w)
       end.

(** [fs.mkdir(p, { recursive: true })]. *)
Definition mkdir (p : string) : io unit :=
  λ w, (Ok tt, {| dirs := {[ p ]} ∪ dirs w; files := files w;
                  trace := trace w ++ [Mkdir p] |}).

(** [fs.writeFile(p, JSON.stringify(data, null, 2))]. *)
Definition writeFile (p : string) (data : json) : io unit :=
  λ w, (Ok tt, {| dirs := dirs w; files := <[ p := Doc data ]> (files w);
                  trace := trace w ++ [WriteFile p data] |}).

(** [fs.rm(p, { recursive: true, force: true })]. *)
Definition rm (p : string) : io unit :=
  λ w, (Ok tt, {| dirs := filter (λ q, ¬ Is_true (Path.under p q)) (dirs w);
                  files := filter (λ kv, ¬ Is_true (Path.under p kv.1)) (files w);
                  trace := trace w ++ [Rm p] |}).

End Fs.

(** ** state.js *)

Module State.
Section state.

Context (AVM_HOME : string).

Definition AGENTS_DIR : string := Path.join AVM_HOME "agents".
Definition STATE_FILE : string := Path.join AVM_HOME "state.json".

Definition pathExists (targetPath : string) : io bool :=
  λ w, (Ok (Fs.exists_ targetPath w), w).

Definition readJson (file : string) (fallback : json) : io json :=
  λ w, match Fs.readFile file w with
       | (Ok (Doc j), w') => (Ok j, w')
       | (Ok Unparseable, w') => (Err JsonSyntaxError, w')
       | (Err (IoError "ENOENT"), w') => (Ok fallback, w')
       | (Err e, w') => (Err e, w')
       end.

Definition writeJson (file : string) (data : json) : io unit :=
  let* _ := Fs.mkdir (Path.dirname file) in
  Fs.writeFile file data.

Definition readState : io json :=
  let* j := readJson STATE_FILE (JObj []) in
  io_ret (if Json.truthy j then j else JObj []).

Definition writeState (env : ambient) (patch : list (string * json)) : io unit :=
  let* j := readJson STATE_FILE (JObj []) in
  let previous := if Json.truthy j then j else JObj [] in
  let next :=
    Json.assign (Json.assign (Json.own_props previous) patch)
                [("updatedAt", JStr (now env))] in
  writeJson STATE_FILE (JObj next).

End state.
End State.

(** ** install.js *)

Module Install.
Import Agents.
Section install.

Context (AVM_HOME : string).

Definition ensureBaseDirs : io unit := Fs.mkdir (State.AGENTS_DIR AVM_HOME).

Definition sanitizeName (name : string) : string := Js.replace_slashes "__" name.

Definition agentDir (name : string) : string :=
  Path.join (State.AGENTS_DIR AVM_HOME) (sanitizeName name).

Definition installDir (name version : string) : string :=
  Path.join (agentDir name) version.

(** [args.join(' ')]. *)
Fixpoint join_spaces (xs : list string) : string :=
  match xs with
  | [] => ""
  | [x] => x
  | x :: xs' => x +:+ " " +:+ join_spaces xs'
  end.

(** The promise of [runCommand] resolves when the child closes with code
    0 and rejects otherwise, or when the child cannot be started. *)
Definition runCommand (env : ambient) (command : string) (argv : list string)
    : io unit :=
  let* _ := emit (Spawn command argv) in
  match child_end env with
  | Exit 0 => io_ret tt
  | Exit code => io_throw (CommandFailed (command +:+ " " +:+ join_spaces argv) code)
  | Failed => io_throw (SpawnFailure command)
  end.

Definition npmInstall (env : ambient) (installPath pkgSpec : string)
    (registry : option string) : io unit :=
  let* _ := Fs.mkdir installPath in
  let argv :=
    ["install"; "--prefix"; installPath; "--no-package-lock"; "--no-progress";
     "--no-fund"; pkgSpec]
    ++ match registry with
       | Some r => if Js.nonempty r then ["--registry"; r] else []
       | None => []
       end in
  runCommand env "npm" argv.

(** The own properties of a target, in the order [resolveTarget] writes
    them. *)
Definition target_props (t : target) : list (string * json) :=
  [("name", JStr (name t)); ("package", JStr (package t));
   ("version", JStr (version t)); ("args", JStr (args t))].

Definition ensureInstalled (env : ambient) (target : target)
    (registry : option string) : io (string * json) :=
  let* _ := ensureBaseDirs in
  let installPath := installDir (name target) (version target) in
  let metaPath := Path.join installPath ".meta.json" in
  let* hasInstall := State.pathExists installPath in
  let* existingMeta :=
    (if hasInstall : bool then
       let* j := State.readJson metaPath JNull in
       io_ret (if Json.truthy j then j else JNull)
     else io_ret JNull) in
  let needsReinstall :=
    negb hasInstall
    || negb (Json.truthy existingMeta)
    || (Json.get existingMeta "package" !== Some (JStr (package target)))
    || (Json.get existingMeta "version" !== Some (JStr (version target))) in
  if needsReinstall then
    let* _ := (if hasInstall then Fs.rm installPath else io_ret tt) in
    let pkgSpec := package target +:+ "@" +:+ version target in
    let* _ := emit (Log ("> Installing " +:+ pkgSpec +:+ " into " +:+ installPath)) in
    let* _ := npmInstall env installPath pkgSpec registry in
    let meta :=
      JObj (Json.assign (target_props target) [("installedAt", JStr (now env))]) in
    let* _ := State.writeJson metaPath meta in
    io_ret (installPath, meta)
  else
    let mergedMeta :=
      Json.assign (Json.own_props existingMeta)
        [("name", JStr (name target));
         ("package", JStr (package target));
         ("version", JStr (version target));
         ("args", Json.or_lit (Json.or (Some (JStr (args target)))
                                        (Json.get existingMeta "args"))
                              (JStr ""))] in
    let* _ :=
      (if (Json.assoc "name" mergedMeta !== Json.get existingMeta "name")
          || (Json.assoc "package" mergedMeta !== Json.get existingMeta "package")
          || (Json.assoc "version" mergedMeta !== Json.get existingMeta "version")
          || (Json.assoc "args" mergedMeta !== Json.get existingMeta "args")
       then State.writeJson metaPath (JObj mergedMeta)
       else io_ret tt) in
    io_ret (installPath, JObj mergedMeta).

End install.
End Install.

(** ** commands.js: the project configuration and [setCurrent] *)

Module Commands.
Import Agents.
Section commands.

Context (AVM_HOME : string).

(** A resolved directory, innermost segment first; the root is [[]]. Its
    [path.dirname] is its tail, and the root is its own parent. *)
Fixpoint path_of (dir : list string) : string :=
  match dir with
  | [] => ""
  | d :: parent => path_of parent +:+ "/" +:+ d
  end.

(** The configuration file looked for in [dir]. *)
Definition candidate (dir : list string) : string :=
  Path.join (path_of dir) "avm.config.json".

Fixpoint findConfigFile (dir : list string) : io (option string) :=
  let candidate := candidate dir in
  let* found := State.pathExists candidate in
  if found : bool then io_ret (Some candidate)
  else match dir with
       | [] => io_ret None
       | _ :: parent => findConfigFile parent
       end.

(** A tool section as [loadProjectConfig] stores it: each field holds
    whatever truthy JSON value the file gives, or the literal default. *)
Record section := {
  sec_package : json;
  sec_version : json;
  sec_args : json }.

Record project := {
  pr_default : option string;
  pr_agents : gmap string section;
  pr_path : option string }.

Definition empty_project : project :=
  {| pr_default := None; pr_agents := ∅; pr_path := None |}.

(** [typeof v === 'object'] *)
Definition is_object (v : json) : bool :=
  match v with JNull | JArr _ | JObj _ => true | _ => false end.

(** [j.k], which throws on [null]. *)
Definition member (j : json) (k : string) : result (option json) :=
  match j with JNull => Err TypeError | _ => Ok (Json.get j k) end.

(** [normalizeAgentName] on a JSON value: a truthy value that is not a
    string has no [trim]. *)
Definition normalizeJson (v : json) : result string :=
  match v with
  | JStr s => Ok (normalizeAgentName (Some s))
  | _ => if Json.truthy v then Err TypeError else Ok (normalizeAgentName None)
  end.

Definition load_default (parsed : json) : result (option string) :=
  d ← member parsed "default";
  match d with
  | Some d =>
      if Json.truthy d && is_object d && Json.truthy_opt (Json.get d "name") then
        normalizedDefault ← normalizeJson (default JNull (Json.get d "name"));
        _ ← assertSupportedAgent normalizedDefault;
        Ok (Some normalizedDefault)
      else Ok None
  | None => Ok None
  end.

Definition load_section (value : json) : section :=
  {| sec_package :=
       Json.or_lit (Json.or (Json.get value "package") (Json.get value "pkg")) JNull;
     sec_version := Json.or_lit (Json.get value "version") JNull;
     sec_args := Json.or_lit (Json.get value "args") (JStr "") |}.

(** The loop over [Object.entries(parsed)]. *)
Fixpoint load_sections (entries : list (string * json))
    (agents : gmap string section) : result (gmap string section) :=
  match entries with
  | [] => Ok agents
  | (name, value) :: rest =>
      if String.eqb name "default" then load_sections rest agents
      else if Json.truthy value && is_object value then
        let normalizedName := normalizeAgentName (Some name) in
        if negb (Js.nonempty normalizedName) then load_sections rest agents
        else
          _ ← assertSupportedAgent normalizedName;
          load_sections rest (<[ normalizedName := load_section value ]> agents)
      else load_sections rest agents
  end.

Definition loadProjectConfig (cwd : list string) : io project :=
  let* configPath := findConfigFile cwd in
  match configPath with
  | None => io_ret empty_project
  | Some configPath =>
      io_catch
        (let* raw := Fs.readFile configPath in
         match raw with
         | Unparseable => io_throw JsonSyntaxError
         | Doc parsed =>
             io_lift (
               dflt ← load_default parsed;
               agents ← load_sections (Json.own_props parsed) ∅;
               Ok {| pr_default := dflt; pr_agents := agents;
                     pr_path := Some configPath |})
         end)
        (λ _, io_throw (ConfigParseError configPath))
  end.

(** The sections read as the typed entries [resolveTarget] works on, for a
    configuration whose fields are strings, as its format prescribes. *)
Definition field (j : json) : option string :=
  match j with JStr s => Some s | _ => None end.

Definition entry_of (s : section) : entry :=
  {| e_package := field (sec_package s);
     e_version := field (sec_version s);
     e_args := field (sec_args s) |}.

Definition config_of (p : project) : config :=
  {| cfg_default := pr_default p;
     cfg_agents := entry_of <$> pr_agents p;
     cfg_path := pr_path p |}.

Definition setCurrent (env : ambient) (target : json) : io unit :=
  State.writeState AVM_HOME env [("current", target)].

End commands.
End Commands.

(** ** The resolution rules in the specification's words

    Each field is resolved by first-match-wins over an ordered list of
    sources. [resolve_spec] is compared with [Agents.resolveTarget] below. *)

Module Spec.
Import Agents.

(** The first source that holds a non-empty string. *)
Fixpoint first_nonempty (sources : list (option string)) : option string :=
  match sources with
  | [] => None
  | Some s :: rest => if Js.nonempty s then Some s else first_nonempty rest
  | None :: rest => first_nonempty rest
  end.

(** The first source that holds a string at all, be it empty. *)
Fixpoint first_present (sources : list (option string)) : option string :=
  match sources with
  | [] => None
  | Some s :: _ => Some s
  | None :: rest => first_present rest
  end.

(** The section of tool [n] in the project configuration. *)
Definition entry_for (c : config) (n : string) : entry :=
  default no_entry (cfg_agents c !! n).

(** The last-used record of the global state, when it is about tool [n]. *)
Definition state_for (s : state) (n : string) : option current :=
  match st_current s with
  | Some cur => if decide (normalizeAgentName (cur_name cur) = n) then Some cur else None
  | None => None
  end.

Definition name_sources (a : option string) (c : config) (s : state) :=
  [spec_name <$> parseAgentSpec a; cfg_default c; st_current s ≫= cur_name].

Definition package_sources (n : string) (c : config) (s : state) (o : overrides) :=
  [packageOverride o; e_package (entry_for c n); state_for s n ≫= cur_package;
   DEFAULT_PACKAGES !! n].

Definition version_sources (a : option string) (n : string) (c : config) (s : state) :=
  [parseAgentSpec a ≫= spec_version; e_version (entry_for c n);
   state_for s n ≫= cur_version].

Definition args_sources (n : string) (c : config) (s : state) (o : overrides) :=
  [argsOverride o; e_args (entry_for c n); state_for s n ≫= cur_args].

Definition resolve_spec (a : option string) (c : config) (s : state)
    (o : overrides) : result target :=
  let n := normalizeAgentName (first_nonempty (name_sources a c s)) in
  if decide (n = "") then Err NoAgentSpecified
  else if decide (n ∈ SUPPORTED_AGENTS) then
    match first_nonempty (package_sources n c s o) with
    | Some p =>
        Ok {| name := n; package := p;
              version := default "latest" (first_nonempty (version_sources a n c s));
              args := default "" (first_nonempty (args_sources n c s o)) |}
    | None => Err (NoPackageConfigured n)
    end
  else Err (UnsupportedAgent n).

End Spec.

(** ** The install store in the specification's words *)

Module StoreSpec.
Import Agents.
Section store.

Context (home : string).

Definition install_path (t : target) : string :=
  Install.installDir home (name t) (version t).

Definition meta_path (t : target) : string :=
  Path.join (install_path t) ".meta.json".

(** The record found in the slot of [t]: none when the directory does not
    exist, when it holds no metadata file, or when the file holds [null]
    or another falsy value. *)
Definition stored_record (t : target) (w : world) : option json :=
  if Fs.exists_ (install_path t) w then
    match files w !! meta_path t with
    | Some (Doc j) => if Json.truthy j then Some j else None
    | _ => None
    end
  else None.

(** The metadata of an existing slot cannot be read: the file does not
    parse, or its path is a directory, or it lies below a regular file (the
    install path itself, when that is no directory). *)
Definition unreadable (t : target) (w : world) : Prop :=
  Fs.exists_ (install_path t) w = true
  ∧ (files w !! meta_path t = Some Unparseable
     ∨ (files w !! meta_path t = None
        ∧ (meta_path t ∈ dirs w ∨ Fs.below_file (meta_path t) w = true))).

(** The record [j] is of the package and version of [t]. *)
Definition matches (t : target) (j : json) : Prop :=
  Json.get j "package" = Some (JStr (package t))
  ∧ Json.get j "version" = Some (JStr (version t)).

(** No record, or a record of another package or another version. *)
Definition cache_miss (t : target) (w : world) : Prop :=
  match stored_record t w with
  | None => True
  | Some j =>
      Json.get j "package" ≠ Some (JStr (package t))
      ∨ Json.get j "version" ≠ Some (JStr (version t))
  end.

Definition cache_hit (t : target) (w : world) : Prop :=
  ∃ j, stored_record t w = Some j ∧ matches t j.

(** The [package@version] specifier. *)
Definition pkg_spec (t : target) : string := package t +:+ "@" +:+ version t.

Definition npm_argv (t : target) (registry : option string) : list string :=
  ["install"; "--prefix"; install_path t; "--no-package-lock"; "--no-progress";
   "--no-fund"; pkg_spec t]
  ++ match registry with
     | Some r => if Js.nonempty r then ["--registry"; r] else []
     | None => []
     end.

(** The record written after an installation. *)
Definition fresh_record (t : target) (env : ambient) : json :=
  JObj [("name", JStr (name t)); ("package", JStr (package t));
        ("version", JStr (version t)); ("args", JStr (args t));
        ("installedAt", JStr (now env))].

(** The events of a run that installs. *)
Definition install_events (t : target) (env : ambient) (registry : option string)
    (had_dir : bool) : list event :=
  [Mkdir (State.AGENTS_DIR home)]
  ++ (if had_dir then [Rm (install_path t)] else [])
  ++ [Log ("> Installing " +:+ pkg_spec t +:+ " into " +:+ install_path t);
      Mkdir (install_path t);
      Spawn "npm" (npm_argv t registry)]
  ++ match child_end env with
     | Exit 0 => [Mkdir (Path.dirname (meta_path t));
                  WriteFile (meta_path t) (fresh_record t env)]
     | _ => []
     end.

(** The record kept on a cache hit on the stored record [j]. *)
Definition merged_record (t : target) (j : json) : json :=
  JObj (Json.assign (Json.own_props j)
          [("name", JStr (name t)); ("package", JStr (package t));
           ("version", JStr (version t));
           ("args", if Js.nonempty (args t) then JStr (args t)
                    else Json.or_lit (Json.get j "args") (JStr ""))]).

(** The stored name is not the target's. *)
Definition name_differs (t : target) (j : json) : bool :=
  negb (Json.strict_eq (Json.get j "name") (Some (JStr (name t)))).

(** The args kept on a cache hit are not the stored ones. *)
Definition args_differ (t : target) (j : json) : bool :=
  negb (Json.strict_eq (Json.get (merged_record t j) "args") (Json.get j "args")).

(** The stored record has no args: the property is absent, or holds a
    falsy value other than the empty string ([null], [false], [0]). *)
Definition args_missing (j : json) : bool :=
  negb (Json.truthy_opt (Json.get j "args"))
  && negb (Json.strict_eq (Json.get j "args") (Some (JStr ""))).

(** The target's args are not empty and are not the stored ones. *)
Definition args_updated (t : target) (j : json) : bool :=
  Js.nonempty (args t)
  && negb (Json.strict_eq (Json.get j "args") (Some (JStr (args t)))).

(** A record on which a cache hit has nothing to write. *)
Definition settled (t : target) (j : json) : Prop :=
  matches t j ∧ name_differs t j = false ∧ args_differ t j = false.

(** The record carries its args as a string, as every record written by
    the store does. *)
Definition string_args (j : json) : Prop :=
  ∃ a, Json.get j "args" = Some (JStr a).

(** The outcome and the world after a run that installs. *)
Definition after_install (t : target) (env : ambient) (registry : option string)
    (w : world) : result (string * json) * world :=
  let had_dir := Fs.exists_ (install_path t) w in
  let keep (q : string) : Prop := ¬ Is_true (Path.under (install_path t) q) in
  let D := {[ State.AGENTS_DIR home ]} ∪ dirs w in
  let D := {[ install_path t ]} ∪ (if had_dir then filter keep D else D) in
  let F := if had_dir then filter (λ kv, keep kv.1) (files w) else files w in
  let tr := trace w ++ install_events t env registry had_dir in
  match child_end env with
  | Exit 0 =>
      (Ok (install_path t, fresh_record t env),
       {| dirs := {[ Path.dirname (meta_path t) ]} ∪ D;
          files := <[ meta_path t := Doc (fresh_record t env) ]> F;
          trace := tr |})
  | Exit code =>
      (Err (CommandFailed ("npm" +:+ " " +:+ Install.join_spaces (npm_argv t registry))
                          code),
       {| dirs := D; files := F; trace := tr |})
  | Failed => (Err (SpawnFailure "npm"), {| dirs := D; files := F; trace := tr |})
  end.

(** The outcome and the world after a cache hit on the stored record [j]. *)
Definition after_hit (t : target) (j : json) (w : world)
    : result (string * json) * world :=
  let D := {[ State.AGENTS_DIR home ]} ∪ dirs w in
  if name_differs t j || args_differ t j then
    (Ok (install_path t, merged_record t j),
     {| dirs := {[ Path.dirname (meta_path t) ]} ∪ D;
        files := <[ meta_path t := Doc (merged_record t j) ]> (files w);
        trace := trace w ++ [Mkdir (State.AGENTS_DIR home);
                             Mkdir (Path.dirname (meta_path t));
                             WriteFile (meta_path t) (merged_record t j)] |})
  else
    (Ok (install_path t, merged_record t j),
     {| dirs := D; files := files w;
        trace := trace w ++ [Mkdir (State.AGENTS_DIR home)] |}).

End store.

(** An invocation of the external installer. *)
Definition is_install (e : event) : bool :=
  match e with Spawn cmd _ => String.eqb cmd "npm" | _ => false end.

Definition is_rm (e : event) : bool :=
  match e with Rm _ => true | _ => false end.

Definition is_write (e : event) : bool :=
  match e with WriteFile _ _ => true | _ => false end.

(** The number of invocations of the installer among [evs]. *)
Definition installs (evs : list event) : nat :=
  List.length (List.filter is_install evs).

End StoreSpec.

(** ** Sample inputs *)

Module Samples.
Import Agents.

Definition no_config : config :=
  {| cfg_default := None; cfg_agents := ∅; cfg_path := None |}.

Definition no_state : state := {| st_current := None |}.

(** A project that configures default arguments for codex. *)
Definition codex_args_config : config :=
  {| cfg_default := Some "codex";
     cfg_agents :=
       {[ "codex" := {| e_package := Some "@acme/codex"; e_version := Some "0.45.1";
                        e_args := Some "--full-auto" |} ]};
     cfg_path := Some "/home/u/proj/avm.config.json" |}.

(** A global state whose last-used tool is claude. *)
Definition claude_state : state :=
  {| st_current :=
       Some {| cur_name := Some "claude"; cur_package := Some "@fork/claude";
               cur_version := Some "2.0.0"; cur_args := Some "resume" |} |}.

(** A global state whose last-used tool is codex 0.31.0. *)
Definition codex_state : state :=
  {| st_current :=
       Some {| cur_name := Some "codex"; cur_package := None;
               cur_version := Some "0.31.0"; cur_args := None |} |}.

(** A global state whose record of the last-used tool has a blank name. *)
Definition blank_state : state :=
  {| st_current :=
       Some {| cur_name := Some "  "; cur_package := None;
               cur_version := None; cur_args := None |} |}.

Definition empty_args_override : overrides :=
  {| packageOverride := None; argsOverride := Some "" |}.

(** A home directory whose state file does not parse. *)
Definition corrupt_state_world : world :=
  {| dirs := {[ "/home/u/.avm" ]};
     files := {[ "/home/u/.avm/state.json" := Unparseable ]};
     trace := [] |}.

(** A state file that records a self-update check. *)
Definition checked_world : world :=
  {| dirs := {[ "/home/u/.avm" ]};
     files := {[ "/home/u/.avm/state.json" :=
                   Doc (JObj [("self", JObj [("latestVersion", JStr "0.3.0")])]) ]};
     trace := [] |}.

(** A project whose configuration file, two directories up, does not
    parse. *)
Definition corrupt_config_world : world :=
  {| dirs := {[ "/home"; "/home/u"; "/home/u/proj"; "/home/u/proj/src" ]};
     files := {[ "/home/u/avm.config.json" := Unparseable ]};
     trace := [] |}.

Definition empty_world : world := {| dirs := ∅; files := ∅; trace := [] |}.

(** The targets of the cache-drift scenario: codex 0.1.0 from the official
    package and from a fork, each with default args [a]. *)
Definition codex_target (a : string) : target :=
  {| name := "codex"; package := "@openai/codex"; version := "0.1.0"; args := a |}.

Definition fork_target (a : string) : target :=
  {| name := "codex"; package := "@other/codex-fork"; version := "0.1.0"; args := a |}.

(** A call during which the installer succeeds. *)
Definition good_day : ambient :=
  {| now := "2026-01-01T00:00:00.000Z"; child_end := Exit 0 |}.

(** A store that holds codex 0.1.0, installed without default args. *)
(** The same store, with a record that was written without args. *)
Definition foreign_world : world :=
  {| dirs := {[ "/home/u/.avm/agents"; "/home/u/.avm/agents/codex/0.1.0" ]};
     files := {[ "/home/u/.avm/agents/codex/0.1.0/.meta.json" :=
                   Doc (JObj [("name", JStr "codex"); ("package", JStr "@openai/codex");
                              ("version", JStr "0.1.0")]) ]};
     trace := [] |}.

(** A store whose record of codex 0.1.0 does not parse. *)
Definition garbled_world : world :=
  {| dirs := {[ "/home/u/.avm/agents"; "/home/u/.avm/agents/codex/0.1.0" ]};
     files := {[ "/home/u/.avm/agents/codex/0.1.0/.meta.json" := Unparseable ]};
     trace := [] |}.

(** A store in which a regular file stands at the install path of codex
    0.1.0. *)
Definition blocked_world : world :=
  {| dirs := {[ "/home/u/.avm/agents"; "/home/u/.avm/agents/codex" ]};
     files := {[ "/home/u/.avm/agents/codex/0.1.0" := Doc (JStr "not a directory") ]};
     trace := [] |}.

Definition installed_world : world :=
  {| dirs := {[ "/home/u/.avm/agents"; "/home/u/.avm/agents/codex/0.1.0" ]};
     files := {[ "/home/u/.avm/agents/codex/0.1.0/.meta.json" :=
                   Doc (JObj [("name", JStr "codex"); ("package", JStr "@openai/codex");
                              ("version", JStr "0.1.0"); ("args", JStr "");
                              ("installedAt", JStr "2025-12-01T00:00:00.000Z")]) ]};
     trace := [] |}.

End Samples.

(** ** install.js: listing names and binary discovery *)

Module Discovery.

(** [name.replace(/__/g, '/')]: leftmost pairs of underscores, without
    overlap. *)
Fixpoint unsanitizeName (name : string) : string :=
  match name with
  | EmptyString => EmptyString
  | String c rest =>
      match rest with
      | String d rest' =>
          if Ascii.eqb c "_" && Ascii.eqb d "_"
          then String "/" (unsanitizeName rest')
          else String c (unsanitizeName rest)
      | EmptyString => String c EmptyString
      end
  end.

(** [xs.pop()] on the result of a [split]. *)
Fixpoint pop (xs : list string) : string :=
  match xs with
  | [] => ""
  | [x] => x
  | _ :: xs' => pop xs'
  end.

(** The array index that the key [k] writes, when it writes one: a decimal
    numeral without leading zero, below 2^32 - 1. *)
Definition array_index (k : string) : option N :=
  match NilEmpty.uint_of_string k with
  | Some d =>
      let n := N.of_uint d in
      if String.eqb (NilEmpty.string_of_uint (N.to_uint n)) k && (n <? 2 ^ 32 - 1)%N
      then Some n else None
  | None => None
  end.

(** The property with the least array index among [ps]. *)
Fixpoint least_index (ps : list (string * json)) : option (N * json) :=
  match ps with
  | [] => None
  | (k, x) :: rest =>
      match array_index k, least_index rest with
      | Some i, Some (j, y) => if (i <=? j)%N then Some (i, x) else Some (j, y)
      | Some i, None => Some (i, x)
      | None, found => found
      end
  end.

(** [Object.values(v)[0]]: the properties whose keys are array indices are
    enumerated first, in the order of the indices, the others after them
    in the order in which they were added. *)
Definition first_value (v : json) : option json :=
  match least_index (Json.own_props v) with
  | Some (_, x) => Some x
  | None =>
      match Json.own_props v with
      | (_, x) :: _ => Some x
      | [] => None
      end
  end.

(** The [bin] entry read off a parsed [package.json]: the string itself,
    or the first value of an object. *)
Definition declared_bin (parsed : json) : result (option json) :=
  bin ← Commands.member parsed "bin";
  match bin with
  | Some (JStr s) => Ok (Some (JStr s))
  | Some b => if Json.truthy b && Commands.is_object b then Ok (first_value b) else Ok None
  | None => Ok None
  end.

Definition package_dir (installPath packageName : string) : string :=
  Path.join (Path.join installPath "node_modules") packageName.

(** The [try] block: the declared entry, or nothing when the manifest
    cannot be read. [console.warn] is recorded like [console.log]; the
    message is kept up to the text of the error. *)
Definition read_bin (pkgJsonPath : string) : io (option json) :=
  io_catch
    (let* raw := Fs.readFile pkgJsonPath in
     match raw with
     | Unparseable => io_throw JsonSyntaxError
     | Doc parsed => io_lift (declared_bin parsed)
     end)
    (λ err,
       match err with
       | IoError "ENOENT" => io_ret None
       | _ =>
           let* _ := emit (Log ("Warning: unable to read " +:+ pkgJsonPath)) in
           io_ret None
       end).

(** The [if (binRelative)] block: [path.join] throws on a value that is
    not a string. *)
Definition declared_candidate (dir : string) (binRelative : option json)
    : io (option string) :=
  if Json.truthy_opt binRelative then
    match binRelative with
    | Some (JStr rel) =>
        let candidate := Path.join dir rel in
        let* there := State.pathExists candidate in
        io_ret (if there : bool then Some candidate else None)
    | _ => io_throw TypeError
    end
  else io_ret None.

(** The link that npm puts into [node_modules/.bin]. *)
Definition bin_link (installPath packageName : string) : string :=
  let fallbackName :=
    if Js.includes "/" packageName then pop (Js.split "/" packageName)
    else packageName in
  Path.join (Path.join (Path.join installPath "node_modules") ".bin") fallbackName.

Definition findAgentBinary (installPath packageName : string) : io (option string) :=
  let pkgJsonPath := Path.join (package_dir installPath packageName) "package.json" in
  let* binRelative := read_bin pkgJsonPath in
  let* found := declared_candidate (package_dir installPath packageName) binRelative in
  match found with
  | Some candidate => io_ret (Some candidate)
  | None =>
      let fallback := bin_link installPath packageName in
      let* there := State.pathExists fallback in
      io_ret (if there : bool then Some fallback else None)
  end.

(** The entry that the manifest at [p] declares, if the manifest can be read
    and declares one. *)
Definition manifest_bin (p : string) (w : world) : option json :=
  match files w !! p with
  | Some (Doc parsed) =>
      match declared_bin parsed with Ok b => b | Err _ => None end
  | _ => None
  end.

(** [w'] has the directories and the files of [w]. *)
Definition same_fs (w w' : world) : Prop :=
  dirs w' = dirs w ∧ files w' = files w.

(** A path segment that [path.join] leaves as it is. *)
Definition plain_segment (s : string) : Prop :=
  Js.includes "/" s = false ∧ s ≠ "" ∧ s ≠ "." ∧ s ≠ "..".

(** A relative path that [path.join] leaves as it is: it is made of plain
    segments. *)
Definition plain_path (p : string) : Prop :=
  Forall plain_segment (Js.split "/" p).

(** The directory name of the tool and the version of the target are
    segments that [path.join] leaves as they are: the install path is then
    the slot of the target, two levels below the agents directory. *)
Definition plain_target (t : Agents.target) : Prop :=
  plain_segment (Install.sanitizeName (Agents.name t))
  ∧ plain_segment (Agents.version t).

(** In an orderly file system no file and no directory stands below a path
    that does not exist. *)
Definition slot_orderly (home : string) (t : Agents.target) (w : world) : Prop :=
  Fs.exists_ (StoreSpec.install_path home t) w = false →
  files w !! StoreSpec.meta_path home t = None
  ∧ StoreSpec.meta_path home t ∉ dirs w.

End Discovery.

(** ** selfUpdate.js: version comparison *)

Module SelfUpdate.

Definition digit (c : ascii) : option Z :=
  let n := nat_of_ascii c in
  if ((48 <=? n) && (n <=? 57))%nat then Some (Z.of_nat n - 48) else None.

(** The decimal digits at the front of [s], read as a number; [acc] is what
    has been read so far, [None] when no digit has been. *)
Fixpoint digits (s : string) (acc : option Z) : option Z :=
  match s with
  | EmptyString => acc
  | String c s' =>
      match digit c with
      | Some d => digits s' (Some (10 * default 0 acc + d))
      | None => acc
      end
  end.

(** [parseInt(s, 10)]: leading white space, an optional sign, the leading
    digits; [None] is [NaN]. The value is the number that the digits
    write, which is the value in JavaScript up to 2^53; beyond, JavaScript
    rounds to the nearest double. *)
Definition parseInt (s : string) : option Z :=
  match Js.trimStart s with
  | String c r =>
      if Ascii.eqb c "-" then Z.opp <$> digits r None
      else if Ascii.eqb c "+" then digits r None
      else digits (String c r) None
  | EmptyString => None
  end.

(** [parseInt(xs[i] || '0', 10)]. *)
Definition component (xs : list string) (i : nat) : option Z :=
  parseInt (Js.or_lit (xs !! i) "0").

(** The [for] loop of [isNewerVersion], from index [i] with [n] rounds to
    go. *)
Fixpoint compare_from (remote local : string) (r l : list string) (n i : nat) : bool :=
  match n with
  | O => false
  | S n' =>
      match component r i, component l i with
      | Some rv, Some lv =>
          if lv <? rv then true
          else if rv <? lv then false
          else compare_from remote local r l n' (S i)
      | _, _ => negb (String.eqb remote local)
      end
  end.

Definition isNewerVersion (remote local : option string) : bool :=
  match remote, local with
  | Some remote, Some local =>
      if negb (Js.nonempty remote) || negb (Js.nonempty local) then false
      else
        let r := Js.split "." remote in
        let l := Js.split "." local in
        let len := Nat.max (List.length r) (List.length l) in
        compare_from remote local r l len 0
  | _, _ => false
  end.

(** Every component of the version reads as a number. *)
Definition numeric (v : string) : bool :=
  forallb (λ part, bool_decide (is_Some (parseInt (Js.or_lit (Some part) "0"))))
    (Js.split "." v).

(** A version that is given and whose components all read as numbers. *)
Definition well_formed (v : string) : bool := Js.nonempty v && numeric v.

(** The number that the loop reads at index [i] of [v]; a version stands
    for this sequence. *)
Definition part (v : string) (i : nat) : Z :=
  default 0 (component (Js.split "." v) i).

(** The decimal numeral of [n]. *)
Definition decimal (n : N) : string := NilEmpty.string_of_uint (N.to_uint n).

(** The version that writes the numbers [ns] with dots between them. *)
Fixpoint dotted (ns : list N) : string :=
  match ns with
  | [] => ""
  | [n] => decimal n
  | n :: rest => decimal n +:+ String "." (dotted rest)
  end.

(** Every component of the version reads as a number that a double holds
    exactly, as [parseInt] returns it. *)
Definition safe (v : string) : bool :=
  forallb (λ part, match parseInt (Js.or_lit (Some part) "0") with
                   | Some z => Z.abs z <=? 2 ^ 53
                   | None => false
                   end)
    (Js.split "." v).

(** A version that is given and whose components are such numbers. *)
Definition exact (v : string) : bool := Js.nonempty v && safe v.

End SelfUpdate.

(** ** commands.js: the actions *)

Module Actions.
Import Agents Commands.

(** The text of [${j}] in a template literal. *)
Fixpoint to_text (j : json) : string :=
  match j with
  | JNull => "null"
  | JBool b => if b then "true" else "false"
  | JNum n => NilEmpty.string_of_int (Z.to_int n)
  | JStr s => s
  | JArr xs =>
      (fix join (xs : list json) : string :=
         match xs with
         | [] => ""
         | x :: xs' =>
             let here := match x with JNull => "" | _ => to_text x end in
             match xs' with
             | [] => here
             | _ :: _ => here +:+ "," +:+ join xs'
             end
         end) xs
  | JObj _ => "[object Object]"
  end.

(** The global state read as the typed state [resolveTarget] works on, for
    a state whose fields are strings, as its format prescribes. *)
Definition field_of (v : option json) : option string :=
  match v with Some (JStr s) => Some s | _ => None end.

Definition state_of (j : json) : state :=
  match Json.get j "current" with
  | Some cur =>
      if Json.truthy cur then
        {| st_current :=
             Some {| cur_name := field_of (Json.get cur "name");
                     cur_package := field_of (Json.get cur "package");
                     cur_version := field_of (Json.get cur "version");
                     cur_args := field_of (Json.get cur "args") |} |}
      else {| st_current := None |}
  | None => {| st_current := None |}
  end.

(** The state after [setCurrent] has recorded the target [t]. *)
Definition state_with (t : target) : state :=
  {| st_current :=
       Some {| cur_name := Some (name t); cur_package := Some (package t);
               cur_version := Some (version t); cur_args := Some (args t) |} |}.

(** A token of an argument string: not empty, no white space around it and
    no space inside. *)
Definition token (t : string) : Prop :=
  t ≠ "" ∧ Js.trim t = t ∧ Js.includes " " t = false.

(** The options of a command, as commander passes them. *)
Record options := {
  opt_package : option string;
  opt_registry : option string;
  opt_args : option string }.

(** The text of the result of a property access in a template literal. *)
Definition text_of (v : option json) : string :=
  match v with Some j => to_text j | None => "undefined" end.

(** [`${meta.name}@${meta.version} (${meta.package})`] and the args part
    that follows it. *)
Definition describe (meta : json) : string :=
  text_of (Json.get meta "name") +:+ "@"
  +:+ text_of (Json.get meta "version") +:+ " ("
  +:+ text_of (Json.get meta "package") +:+ ")".

Definition with_args (meta : json) : string :=
  if Json.truthy_opt (Json.get meta "args")
  then " with args=" +:+ String "034" (text_of (Json.get meta "args"))
       +:+ String "034" ""
  else "".

Section actions.

Context (AVM_HOME : string).

(** [env] answers the installation, [env'] the write of the state. *)
Definition installAction (cwd : list string) (env : ambient)
    (agentArg : option string) (options : options) : io unit :=
  let* config := loadProjectConfig cwd in
  let* state := State.readState AVM_HOME in
  let* target :=
    io_lift (resolveTarget agentArg (config_of config) (state_of state)
               {| packageOverride := opt_package options; argsOverride := None |}) in
  let* r := Install.ensureInstalled AVM_HOME env target (opt_registry options) in
  emit (Log ("Installed " +:+ describe r.2 +:+ with_args r.2)).

Definition globalAction (cwd : list string) (env env' : ambient)
    (agentArg : option string) (options : options) : io unit :=
  let* config := loadProjectConfig cwd in
  let* state := State.readState AVM_HOME in
  let* target :=
    io_lift (resolveTarget agentArg (config_of config) (state_of state)
               {| packageOverride := opt_package options;
                  argsOverride := opt_args options |}) in
  let* r := Install.ensureInstalled AVM_HOME env target (opt_registry options) in
  let* _ := setCurrent AVM_HOME env' r.2 in
  emit (Log ("Set global default to " +:+ describe r.2 +:+ with_args r.2)).

End actions.

(** The section that [writeProjectConfig] writes for a tool: the fields
    that are truthy. *)
Definition section_json (agent : section) : json :=
  let s0 := [] in
  let s1 := if Json.truthy (sec_package agent)
            then Json.set "package" (sec_package agent) s0 else s0 in
  let s2 := if Json.truthy (sec_version agent)
            then Json.set "version" (sec_version agent) s1 else s1 in
  let s3 := if Json.truthy (sec_args agent)
            then Json.set "args" (sec_args agent) s2 else s2 in
  JObj s3.

(** The sections are written in the order in which the map enumerates
    them (JavaScript: in the order in which they were added); reading the
    file back does not depend on that order. *)
Definition config_json (config : project) : json :=
  let data :=
    match pr_default config with
    | Some d => if Js.nonempty d then [("default", JObj [("name", JStr d)])] else []
    | None => []
    end in
  JObj (fold_left (λ data kv, Json.set kv.1 (section_json kv.2) data)
          (map_to_list (pr_agents config)) data).

(** The file is written into a directory that exists: the one of the
    configuration that was found, or the working directory. *)
Definition writeProjectConfig (config : project) (targetPath : string) : io unit :=
  Fs.writeFile targetPath (config_json config).

Definition new_section : section :=
  {| sec_package := JNull; sec_version := JNull; sec_args := JStr "" |}.

(** The section of [name] after [localAction] has set the version of the
    specifier and the args of the options on it. *)
Definition updated_section (agents : gmap string section) (name : string)
    (parsed : spec) (args : option string) : section :=
  let agent := default new_section (agents !! name) in
  let agent :=
    match spec_version parsed with
    | Some v =>
        if Js.nonempty v
        then {| sec_package := sec_package agent; sec_version := JStr v;
                sec_args := sec_args agent |}
        else agent
    | None => agent
    end in
  match args with
  | Some a => {| sec_package := sec_package agent;
                 sec_version := sec_version agent; sec_args := JStr a |}
  | None => agent
  end.

(** [config.path || path.join(process.cwd(), 'avm.config.json')]. *)
Definition local_target (cwd : list string) (config : project) : string :=
  Js.or_lit (pr_path config) (candidate cwd).

(** [args] is [options.args] when it is a string. The error thrown for a
    missing specifier is recorded as [NoAgentSpecified]. *)
Definition localAction (cwd : list string) (agentArg : option string)
    (args : option string) : io unit :=
  let* config := loadProjectConfig cwd in
  match parseAgentSpec agentArg with
  | None => io_throw NoAgentSpecified
  | Some parsed =>
      if negb (Js.nonempty (spec_name parsed)) then io_throw NoAgentSpecified else
      let name := normalizeAgentName (Some (spec_name parsed)) in
      let* _ := io_lift (assertSupportedAgent name) in
      let agent := updated_section (pr_agents config) name parsed args in
      let config' :=
        {| pr_default := Some name;
           pr_agents := <[ name := agent ]> (pr_agents config);
           pr_path := pr_path config |} in
      let targetPath := local_target cwd config in
      let* _ := writeProjectConfig config' targetPath in
      let versionPart :=
        match spec_version parsed with
        | Some v => if Js.nonempty v then "@" +:+ v else ""
        | None => ""
        end in
      let argsPart :=
        if Json.truthy (sec_args agent)
        then " with args=" +:+ String "034" (to_text (sec_args agent)) +:+ String "034" ""
        else "" in
      emit (Log ("Set local default to " +:+ name +:+ versionPart +:+ " in "
                 +:+ targetPath +:+ argsPart))
  end.

(** A section as [loadProjectConfig] and [localAction] leave it: each
    field holds a truthy value or its default. *)
Definition normal_section (s : section) : Prop :=
  (Json.truthy (sec_package s) = true ∨ sec_package s = JNull)
  ∧ (Json.truthy (sec_version s) = true ∨ sec_version s = JNull)
  ∧ (Json.truthy (sec_args s) = true ∨ sec_args s = JStr "").

Definition normal_sections (m : gmap string section) : Prop :=
  ∀ k s, m !! k = Some s → k ∈ SUPPORTED_AGENTS ∧ normal_section s.

(** A configuration as [loadProjectConfig] returns it. *)
Definition normal_project (p : project) : Prop :=
  (∀ d, pr_default p = Some d → d ∈ SUPPORTED_AGENTS)
  ∧ normal_sections (pr_agents p).

(** A value that the resolution engine can take: falsy, or a string. *)
Definition stringy (v : option json) : Prop :=
  match v with
  | Some j => Json.truthy j = true → ∃ s, j = JStr s
  | None => True
  end.

(** A configuration and a state whose fields are such values, as their
    formats prescribe: [config_of] and [state_of] then lose nothing. *)
Definition typed_section (s : section) : Prop :=
  stringy (Some (sec_package s)) ∧ stringy (Some (sec_version s))
  ∧ stringy (Some (sec_args s)).

Definition typed_project (p : project) : Prop :=
  ∀ k s, pr_agents p !! k = Some s → typed_section s.

Definition typed_state (st : json) : Prop :=
  ∀ cur, Json.get st "current" = Some cur → Json.truthy cur = true →
    stringy (Json.get cur "name") ∧ stringy (Json.get cur "package")
    ∧ stringy (Json.get cur "version") ∧ stringy (Json.get cur "args").

(** The computation [m] leaves the file at [q] as it is, whatever it
    returns. *)
Definition keeps {A} (q : string) (m : io A) : Prop :=
  ∀ w, files (m w).2 !! q = files w !! q.

End Actions.

(** ** More sample inputs *)

Module Scenes.
Import Commands Actions.

(** An installation of codex whose manifest declares its executable. *)
Definition bin_world : world :=
  {| dirs := {[ "/s"; "/s/node_modules"; "/s/node_modules/@openai/codex" ]};
     files := {[ "/s/node_modules/@openai/codex/package.json" :=
                   Doc (JObj [("name", JStr "@openai/codex");
                              ("bin", JObj [("codex", JStr "bin/codex.js")])]);
                 "/s/node_modules/@openai/codex/bin/codex.js" := Unparseable ]};
     trace := [] |}.

(** A manifest whose [bin] object has a key that is an array index, after
    a key that is none. *)
Definition indexed_bin : json :=
  JObj [("bin", JObj [("tool", JStr "bin/tool.js"); ("7", JStr "bin/seven.js")])].

(** A project whose configuration stands one directory above the working
    directory [/proj/src]. *)
Definition nested_world : world :=
  {| dirs := {[ "/proj"; "/proj/src" ]};
     files := {[ "/proj/avm.config.json" :=
                   Doc (JObj [("default", JObj [("name", JStr "codex")]);
                              ("codex", JObj [("version", JStr "0.1.0")])]) ]};
     trace := [] |}.

(** A project directory without a configuration. *)
Definition project_world : world :=
  {| dirs := {[ "/proj" ]}; files := ∅; trace := [] |}.

Definition codex_project : project :=
  {| pr_default := Some "codex";
     pr_agents := {[ "codex" := {| sec_package := JNull; sec_version := JStr "0.1.0";
                                   sec_args := JStr "" |} ]};
     pr_path := None |}.

(** A call during which the installer exits with code 1. *)
Definition bad_day : ambient :=
  {| now := "2026-01-02T00:00:00.000Z"; child_end := Exit 1 |}.

Definition fast_options : options :=
  {| opt_package := None; opt_registry := None; opt_args := Some "--fast" |}.

End Scenes.

(** * Properties *)

(** ** Strings *)

Module JsFacts.
Import Js.

Lemma nonempty_true s : nonempty s = true ↔ s ≠ "".
Proof. destruct s; simpl; split; intros; congruence. Qed.

Lemma nonempty_false s : nonempty s = false ↔ s = "".
Proof. destruct s; simpl; split; intros; congruence. Qed.

Lemma app_cons a x y : String a x +:+ y = String a (x +:+ y).
Proof. reflexivity. Qed.

(** [trimStart] cuts off one white space character after the other. *)
Lemma trimStart_step s :
  trimStart s = match space_width s with
                | O => s
                | n => trimStart (drop n s)
                end.
Proof.
  destruct s as [|a [|b [|c r]]]; cbn [trimStart space_width]; try done.
  - by destruct (Ascii.is_space a).
  - destruct (Ascii.is_space a); [done|]. by destruct (space2 a b).
  - destruct (Ascii.is_space a); [done|]. destruct (space2 a b); [done|].
    by destruct (space3 a b c).
Qed.

Lemma space_width_le s : (space_width s ≤ String.length s)%nat.
Proof.
  destruct s as [|a [|b [|c r]]]; cbn [space_width String.length]; try lia.
  - destruct (Ascii.is_space a); lia.
  - destruct (Ascii.is_space a); [lia|]. destruct (space2 a b); lia.
  - destruct (Ascii.is_space a); [lia|]. destruct (space2 a b); [lia|].
    destruct (space3 a b c); lia.
Qed.

Lemma drop_length n s : (String.length (drop n s) = String.length s - n)%nat.
Proof. revert s. induction n as [|n IH]; intros [|c s]; simpl; try done. Qed.

Lemma take_drop n s : take n s +:+ drop n s = s.
Proof.
  revert s. induction n as [|n IH]; intros [|c s]; try done.
  cbn [take drop]. rewrite app_cons. f_equal. apply IH.
Qed.

Lemma drop_app n s r :
  (n ≤ String.length s)%nat → drop n (s +:+ r) = drop n s +:+ r.
Proof.
  revert s. induction n as [|n IH]; intros s H; [done|].
  destruct s as [|c s]; [simpl in H; lia|].
  rewrite app_cons. cbn [drop]. apply IH. simpl in H. lia.
Qed.

(** The white space at the front of [s] is the white space at the front
    of whatever [s] is a prefix of. *)
Lemma space_width_app s r :
  space_width s ≠ 0%nat → space_width (s +:+ r) = space_width s.
Proof.
  destruct s as [|a [|b [|c s]]]; cbn [space_width]; rewrite ?app_cons; cbn [space_width];
    try done.
  - destruct (Ascii.is_space a); done.
  - destruct (Ascii.is_space a); [done|]. destruct (space2 a b); done.
Qed.

Lemma starts_clean_prefix s r : starts_clean (s +:+ r) → starts_clean s.
Proof.
  unfold starts_clean. intros H. destruct (space_width s) eqn:E; [done|].
  rewrite space_width_app in H; congruence.
Qed.

Lemma trimStart_clean s : starts_clean (trimStart s).
Proof.
  remember (String.length s) as n eqn:Hn. revert s Hn.
  induction (lt_wf n) as [n _ IH]. intros s ->.
  rewrite trimStart_step. destruct (space_width s) as [|k] eqn:E; [done|].
  apply (IH (String.length (drop (S k) s))); [|done].
  rewrite drop_length. pose proof (space_width_le s). lia.
Qed.

Lemma trimStart_of_clean s : starts_clean s → trimStart s = s.
Proof. unfold starts_clean. intros H. by rewrite trimStart_step, H. Qed.

(** What [trimStart] cuts off is a prefix of white space. *)
Lemma trimStart_split s : ∃ p, s = p +:+ trimStart s ∧ trimStart p = "".
Proof.
  remember (String.length s) as n eqn:Hn. revert s Hn.
  induction (lt_wf n) as [n _ IH]. intros s ->.
  rewrite trimStart_step. destruct (space_width s) as [|k] eqn:E.
  { by exists "". }
  destruct (IH (String.length (drop (S k) s))) with (s := drop (S k) s)
    as (p & Hp & Hblank); [|done|].
  { rewrite drop_length. pose proof (space_width_le s). lia. }
  exists (take (S k) s +:+ p). split.
  - rewrite <- (take_drop (S k) s) at 1. rewrite Hp at 1.
    clear. induction (take (S k) s) as [|c t IH]; [done|].
    rewrite !app_cons. by rewrite IH.
  - assert (space_width (take (S k) s) = S k) as Hw.
    { clear -E. destruct s as [|a [|b [|c s]]]; cbn [space_width] in *; try done.
      - destruct (Ascii.is_space a) eqn:Ha; [|done]. injection E as <-. cbn.
        by rewrite Ha.
      - destruct (Ascii.is_space a) eqn:Ha; [injection E as <-; cbn; by rewrite Ha|].
        destruct (space2 a b) eqn:Hb; [|done]. injection E as <-. cbn.
        by rewrite Ha, Hb.
      - destruct (Ascii.is_space a) eqn:Ha; [injection E as <-; cbn; by rewrite Ha|].
        destruct (space2 a b) eqn:Hb; [injection E as <-; cbn; by rewrite Ha, Hb|].
        destruct (space3 a b c) eqn:Hc; [|done]. injection E as <-. cbn.
        by rewrite Ha, Hb, Hc. }
    rewrite trimStart_step, space_width_app by (rewrite Hw; lia). rewrite Hw.
    rewrite drop_app.
    2:{ rewrite <- Hw at 1. apply space_width_le. }
    assert (drop (S k) (take (S k) s) = "") as ->; [|exact Hblank].
    assert (String.length (take (S k) s) = S k) as Hl.
    { pose proof (space_width_le (take (S k) s)) as Hle. rewrite Hw in Hle.
      assert (∀ n s, (String.length (take n s) ≤ n)%nat) as Hn.
      { clear. induction n as [|n IH]; intros [|c s]; simpl; try lia.
        specialize (IH s). lia. }
      specialize (Hn (S k) s). lia. }
    pose proof (drop_length (S k) (take (S k) s)) as Hd. rewrite Hl in Hd.
    destruct (drop (S k) (take (S k) s)) as [|x y]; [reflexivity|]. simpl in Hd. lia.
Qed.

(** White space in front of a text is cut off with it. *)
Lemma trimStart_app_blank p s : trimStart p = "" → trimStart (p +:+ s) = trimStart s.
Proof.
  remember (String.length p) as n eqn:Hn. revert p Hn.
  induction (lt_wf n) as [n _ IH]. intros p -> Hp.
  rewrite (trimStart_step p) in Hp. destruct (space_width p) as [|k] eqn:E.
  { by subst p. }
  rewrite (trimStart_step (p +:+ s)), space_width_app by (rewrite E; lia).
  rewrite E, drop_app.
  2:{ rewrite <- E. apply space_width_le. }
  apply (IH (String.length (drop (S k) p))); [|done..].
  rewrite drop_length. pose proof (space_width_le p). lia.
Qed.

Lemma trimStart_idem s : trimStart (trimStart s) = trimStart s.
Proof. apply trimStart_of_clean, trimStart_clean. Qed.

Lemma blank_true s : blank s = true ↔ trimStart s = "".
Proof. unfold blank. by destruct (trimStart s). Qed.

Lemma blank_false s : blank s = false ↔ trimStart s ≠ "".
Proof. unfold blank. by destruct (trimStart s). Qed.

(** What [trimEnd] cuts off is a suffix of white space. *)
Lemma trimEnd_split s : ∃ r, s = trimEnd s +:+ r ∧ trimStart r = "".
Proof.
  induction s as [|c s (r & Hr & Hblank)].
  { by exists "". }
  cbn [trimEnd]. destruct (blank (String c s)) eqn:E.
  - exists (String c s). split; [done|]. by apply blank_true.
  - exists r. rewrite app_cons. by rewrite <- Hr.
Qed.

Lemma trimEnd_clean s : starts_clean s → starts_clean (trimEnd s).
Proof.
  intros H. destruct (trimEnd_split s) as (r & Hr & _). rewrite Hr in H.
  by apply starts_clean_prefix in H.
Qed.

Lemma trimEnd_blank s : trimStart s = "" → trimEnd s = "".
Proof. intros H. destruct s as [|c s]; [done|]. cbn [trimEnd]. apply blank_true in H. by rewrite H. Qed.

(** A text that is not white space only has something left. *)
Lemma trimEnd_nonempty s : trimStart s ≠ "" → trimEnd s ≠ "".
Proof.
  intros H. destruct s as [|c s]; [done|]. cbn [trimEnd].
  apply blank_false in H. by rewrite H.
Qed.

Lemma trimEnd_idem s : trimEnd (trimEnd s) = trimEnd s.
Proof.
  induction s as [|c s IH]; [done|]. cbn [trimEnd].
  destruct (blank (String c s)) eqn:E; [done|]. cbn [trimEnd]. rewrite IH.
  destruct (blank (String c (trimEnd s))) eqn:E'; [|done].
  exfalso. apply blank_false in E. apply E.
  destruct (trimEnd_split s) as (r & Hr & Hblank).
  rewrite Hr, <- app_cons. rewrite trimStart_app_blank by by apply blank_true.
  done.
Qed.

Lemma trim_clean s : starts_clean (trim s).
Proof. apply trimEnd_clean, trimStart_clean. Qed.

Lemma trim_idem s : trim (trim s) = trim s.
Proof.
  unfold trim. rewrite (trimStart_of_clean (trimEnd _)).
  - apply trimEnd_idem.
  - apply trimEnd_clean, trimStart_clean.
Qed.

Lemma includes_append c s r : includes c (s +:+ r) = includes c s || includes c r.
Proof.
  induction s as [|a s IH]; [done|]. rewrite app_cons. simpl. rewrite IH.
  by rewrite orb_assoc.
Qed.

Lemma includes_trimStart c s : includes c (trimStart s) = true → includes c s = true.
Proof.
  intros H. destruct (trimStart_split s) as (p & Hp & _). rewrite Hp, includes_append, H.
  apply orb_true_r.
Qed.

Lemma includes_trimEnd c s : includes c (trimEnd s) = true → includes c s = true.
Proof.
  intros H. destruct (trimEnd_split s) as (r & Hr & _). rewrite Hr, includes_append, H.
  done.
Qed.

Lemma includes_trim c s : includes c (trim s) = true → includes c s = true.
Proof. intros H. by apply includes_trimStart, includes_trimEnd. Qed.

Lemma split_cons sep s : ∃ t ts, split sep s = t :: ts.
Proof.
  induction s as [|c s (t & ts & IH)]; simpl; [by eauto|].
  destruct (Ascii.eqb c sep); [by eauto|]. rewrite IH. by eauto.
Qed.

Lemma split_no_sep sep s t : t ∈ split sep s → includes sep t = false.
Proof.
  revert t. induction s as [|c s IH]; simpl; intros t Ht.
  - apply list_elem_of_singleton in Ht. by subst.
  - destruct (Ascii.eqb c sep) eqn:E.
    + apply elem_of_cons in Ht as [->|Ht]; [done|]. by apply IH.
    + destruct (split_cons sep s) as (u & us & Hs). rewrite Hs in Ht, IH.
      apply elem_of_cons in Ht as [->|Ht].
      * simpl. rewrite E. simpl. apply IH. by left.
      * apply IH. by right.
Qed.

(** [lastIndexOf_from] returns the accumulator when [c] does not occur,
    and otherwise the position of an occurrence of [c] after which [c]
    does not occur again. *)
Lemma lastIndexOf_from_spec c s : ∀ i acc,
  (includes c s = false ∧ lastIndexOf_from c s i acc = acc)
  ∨ (∃ n : nat, lastIndexOf_from c s i acc = i + Z.of_nat n
       ∧ s = take n s +:+ String c (drop (S n) s)
       ∧ includes c (drop (S n) s) = false).
Proof.
  induction s as [|a s IH]; intros i acc; simpl; [by left|].
  destruct (IH (i + 1) (if Ascii.eqb a c then i else acc))
    as [[Hno Heq]|(n & Heq & Hs & Hno)].
  - destruct (Ascii.eqb_spec a c) as [->|Hne].
    + right. exists 0%nat. rewrite Heq. simpl. split; [lia|]. split; [done|].
      by destruct s.
    + left. by rewrite Hno, Heq.
  - right. exists (S n). rewrite Heq. split; [lia|].
    split; [|done]. cbn [take drop]. rewrite app_cons. by f_equal.
Qed.

Lemma lastIndexOf_spec c s :
  (lastIndexOf c s = -1 ∧ includes c s = false)
  ∨ (0 ≤ lastIndexOf c s
     ∧ s = slice_to (lastIndexOf c s) s
           +:+ String c (slice_from (lastIndexOf c s + 1) s)
     ∧ includes c (slice_from (lastIndexOf c s + 1) s) = false).
Proof.
  unfold lastIndexOf, slice_to, slice_from.
  destruct (lastIndexOf_from_spec c s 0 (-1)) as [[Hno ->]|(n & -> & Hs & Hno)].
  - by left.
  - right. replace (Z.to_nat (0 + Z.of_nat n)) with n by lia.
    replace (Z.to_nat (0 + Z.of_nat n + 1)) with (S n) by lia.
    split; [lia|done].
Qed.

Lemma lastIndexOf_absent c s : includes c s = false → lastIndexOf c s = -1.
Proof.
  intros Hno. destruct (lastIndexOf_spec c s) as [[? _]|(_ & Hs & _)]; [done|].
  exfalso. revert Hno. rewrite Hs. clear Hs.
  generalize (slice_to (lastIndexOf c s) s) as pre.
  induction pre as [|a pre IH]; rewrite ?app_cons; simpl.
  - by rewrite Ascii.eqb_refl.
  - destruct (Ascii.eqb a c); simpl; [done|]. exact IH.
Qed.

(** Lower-casing leaves every byte of a white space character as it is,
    and makes no byte into one. *)
Lemma is_space_lower c : Ascii.is_space (lower_ascii c) = Ascii.is_space c.
Proof. by destruct c as [[] [] [] [] [] [] [] []]. Qed.

Lemma lower_ascii_idem c : lower_ascii (lower_ascii c) = lower_ascii c.
Proof. by destruct c as [[] [] [] [] [] [] [] []]. Qed.

Lemma nat_lower c :
  (128 ≤ nat_of_ascii c)%nat ∨ (128 ≤ nat_of_ascii (lower_ascii c))%nat →
  lower_ascii c = c.
Proof.
  destruct c as [[] [] [] [] [] [] [] []]; vm_compute; intros [H|H]; try done; lia.
Qed.

Lemma byte_lower n c : (128 ≤ n)%nat → byte n (lower_ascii c) = byte n c.
Proof.
  intros Hn. unfold byte.
  destruct (Nat.eqb_spec (nat_of_ascii (lower_ascii c)) n) as [H1|H1].
  - rewrite nat_lower in H1 by lia. by rewrite H1, Nat.eqb_refl.
  - destruct (Nat.eqb_spec (nat_of_ascii c) n) as [H2|H2]; [|done].
    rewrite nat_lower in H1 by lia. done.
Qed.

Lemma space2_lower a b : space2 (lower_ascii a) (lower_ascii b) = space2 a b.
Proof. unfold space2. by rewrite !byte_lower by lia. Qed.

Lemma space3_lower a b c :
  space3 (lower_ascii a) (lower_ascii b) (lower_ascii c) = space3 a b c.
Proof.
  unfold space3. rewrite !byte_lower by lia.
  destruct (Nat.le_gt_cases 128 (nat_of_ascii c)) as [H|H].
  - by rewrite (nat_lower c) by lia.
  - assert ((128 <=? nat_of_ascii (lower_ascii c))%nat = false) as ->.
    { apply Nat.leb_gt. destruct (Nat.le_gt_cases 128 (nat_of_ascii (lower_ascii c)))
        as [H'|H']; [|done].
      rewrite (nat_lower c) in H' by lia. lia. }
    by rewrite (proj2 (Nat.leb_gt 128 (nat_of_ascii c))).
Qed.

Lemma toLowerCase_idem s : toLowerCase (toLowerCase s) = toLowerCase s.
Proof. induction s as [|c s IH]; simpl; [done|]. by rewrite lower_ascii_idem, IH. Qed.

Lemma toLowerCase_nonempty s : nonempty (toLowerCase s) = nonempty s.
Proof. by destruct s. Qed.

Lemma space_width_lower s : space_width (toLowerCase s) = space_width s.
Proof.
  destruct s as [|a [|b [|c s]]]; cbn [toLowerCase space_width];
    rewrite ?is_space_lower, ?space2_lower, ?space3_lower; done.
Qed.

Lemma drop_lower n s : drop n (toLowerCase s) = toLowerCase (drop n s).
Proof. revert s. induction n as [|n IH]; intros [|c s]; simpl; try done. Qed.

Lemma trimStart_lower s : trimStart (toLowerCase s) = toLowerCase (trimStart s).
Proof.
  remember (String.length s) as n eqn:Hn. revert s Hn.
  induction (lt_wf n) as [n _ IH]. intros s ->.
  rewrite (trimStart_step (toLowerCase s)), (trimStart_step s), space_width_lower.
  destruct (space_width s) as [|k] eqn:E; [done|].
  rewrite drop_lower. apply (IH (String.length (drop (S k) s))); [|done].
  rewrite drop_length. pose proof (space_width_le s). lia.
Qed.

Lemma blank_lower s : blank (toLowerCase s) = blank s.
Proof. unfold blank. rewrite trimStart_lower. by destruct (trimStart s). Qed.

Lemma trimEnd_lower s : trimEnd (toLowerCase s) = toLowerCase (trimEnd s).
Proof.
  induction s as [|c s IH]; [done|].
  change (toLowerCase (String c s)) with (String (lower_ascii c) (toLowerCase s)).
  cbn [trimEnd].
  change (String (lower_ascii c) (toLowerCase s)) with (toLowerCase (String c s)).
  rewrite blank_lower. destruct (blank (String c s)); [done|].
  simpl. by rewrite IH.
Qed.

Lemma trim_lower s : trim (toLowerCase s) = toLowerCase (trim s).
Proof. unfold trim. by rewrite trimStart_lower, trimEnd_lower. Qed.


Lemma or_lit_some s : or_lit (Some s) "" = s.
Proof. by destruct s. Qed.

Lemma append_empty s : s +:+ "" = s.
Proof. induction s as [|c s IH]; [done|]. rewrite app_cons. by rewrite IH. Qed.

Lemma append_assoc (a b c : string) : (a +:+ b) +:+ c = a +:+ (b +:+ c).
Proof. induction a as [|x a IH]; [done|]. rewrite !app_cons. by rewrite IH. Qed.

Lemma append_length (a b : string) :
  String.length (a +:+ b) = (String.length a + String.length b)%nat.
Proof. induction a as [|x a IH]; [done|]. rewrite app_cons. simpl. by rewrite IH. Qed.

Lemma toLowerCase_length s : String.length (toLowerCase s) = String.length s.
Proof. induction s as [|c s IH]; simpl; [done|]. by rewrite IH. Qed.

Lemma byte_eq n c : byte n c = true → nat_of_ascii c = n.
Proof. unfold byte. apply Nat.eqb_eq. Qed.

Lemma is_space_low c : Ascii.is_space c = true → (nat_of_ascii c < 128)%nat.
Proof. destruct c as [[] [] [] [] [] [] [] []]; vm_compute; intros; try done; lia. Qed.

(** The first byte of a white space character is no second and no third
    byte of one. *)
Lemma space_lead a r :
  space_width (String a r) ≠ 0%nat →
  (nat_of_ascii a < 128)%nat ∨ (192 ≤ nat_of_ascii a)%nat.
Proof.
  cbn [space_width]. destruct (Ascii.is_space a) eqn:Ha.
  { intros _. left. by apply is_space_low. }
  destruct r as [|b [|c r]]; [done| |].
  - unfold space2. destruct (byte 194 a) eqn:E; [|done].
    apply byte_eq in E. intros _. right. lia.
  - unfold space2, space3.
    destruct (byte 194 a) eqn:E1; [apply byte_eq in E1; intros _; right; lia|].
    destruct (byte 225 a) eqn:E2; [apply byte_eq in E2; intros _; right; lia|].
    destruct (byte 226 a) eqn:E3; [apply byte_eq in E3; intros _; right; lia|].
    destruct (byte 227 a) eqn:E4; [apply byte_eq in E4; intros _; right; lia|].
    destruct (byte 239 a) eqn:E5; [apply byte_eq in E5; intros _; right; lia|].
    done.
Qed.

Lemma space2_tail x a : space2 x a = true → (128 ≤ nat_of_ascii a < 192)%nat.
Proof. unfold space2. intros [_ H%byte_eq]%andb_prop. lia. Qed.

Lemma space3_tail x a b :
  space3 x a b = true →
  (128 ≤ nat_of_ascii a < 192)%nat ∧ (128 ≤ nat_of_ascii b < 192)%nat.
Proof.
  unfold space3.
  repeat (rewrite orb_true_iff || rewrite andb_true_iff || rewrite Nat.leb_le).
  intros H. repeat match goal with
                   | H : _ ∨ _ |- _ => destruct H as [H|H]
                   | H : _ ∧ _ |- _ => destruct H as [? H]
                   | H : byte _ _ = true |- _ => apply byte_eq in H
                   end; lia.
Qed.

(** White space after a text that starts with none makes no white space
    at the front. *)
Lemma starts_clean_app u b :
  starts_clean u → u ≠ "" → trimStart b = "" → starts_clean (u +:+ b).
Proof.
  unfold starts_clean. intros Hu Hne Hb.
  destruct b as [|b0 b1]; [by rewrite append_empty|].
  assert (space_width (String b0 b1) ≠ 0%nat) as Hlead.
  { intros H0. by rewrite trimStart_step, H0 in Hb. }
  apply space_lead in Hlead.
  destruct u as [|x [|y [|z u]]]; [done|..]; rewrite ?app_cons;
    change ("" +:+ String b0 b1) with (String b0 b1); cbn [space_width] in *.
  - destruct (Ascii.is_space x); [done|].
    destruct (space2 x b0) eqn:E2; [apply space2_tail in E2; lia|].
    destruct b1 as [|b2 b1]; [done|].
    destruct (space3 x b0 b2) eqn:E3; [apply space3_tail in E3; lia|done].
  - destruct (Ascii.is_space x); [done|]. destruct (space2 x y); [done|].
    destruct (space3 x y b0) eqn:E3; [apply space3_tail in E3; lia|done].
  - done.
Qed.

(** White space after a text does not decide whether the text is white
    space only. *)
Lemma blank_app a b : trimStart b = "" → blank (a +:+ b) = blank a.
Proof.
  intros Hb. destruct (trimStart_split a) as (p & Hp & Hblank).
  assert (trimStart (a +:+ b) = trimStart (trimStart a +:+ b)) as Heq.
  { rewrite Hp at 1. by rewrite append_assoc, trimStart_app_blank. }
  unfold blank. rewrite Heq. destruct (trimStart a) as [|c a'] eqn:Ha.
  { change ("" +:+ b) with b. by rewrite Hb. }
  rewrite trimStart_of_clean; [done|].
  apply starts_clean_app; [|done..]. rewrite <- Ha. apply trimStart_clean.
Qed.

(** White space after a text is cut off with the white space that ends
    the text. *)
Lemma trimEnd_app_blank s b : trimStart b = "" → trimEnd (s +:+ b) = trimEnd s.
Proof.
  intros Hb. induction s as [|c s IH].
  { by apply trimEnd_blank. }
  rewrite app_cons. cbn [trimEnd]. rewrite <- app_cons, blank_app, IH by done.
  done.
Qed.

(** [trim] takes the white space around a text away, and nothing else. *)
Lemma trim_padded p u q :
  trimStart p = "" → trimStart q = "" → trim u = u → trim (p +:+ u +:+ q) = u.
Proof.
  intros Hp Hq Hu. unfold trim. rewrite trimStart_app_blank by done.
  destruct u as [|c u]; [change ("" +:+ q) with q; by rewrite Hq|].
  assert (starts_clean (String c u)) as Hclean by (rewrite <- Hu; apply trim_clean).
  rewrite trimStart_of_clean by by apply starts_clean_app.
  rewrite trimEnd_app_blank by done.
  unfold trim in Hu. by rewrite trimStart_of_clean in Hu.
Qed.

Lemma white_space_width w :
  w ∈ WHITE_SPACE → space_width w = String.length w ∧ w ≠ "".
Proof.
  unfold WHITE_SPACE. rewrite !elem_of_cons, elem_of_nil.
  intros H. repeat (destruct H as [->|H]; [by split|]). done.
Qed.

Lemma white_space_blank w : w ∈ WHITE_SPACE → trimStart w = "".
Proof.
  unfold WHITE_SPACE. rewrite !elem_of_cons, elem_of_nil.
  intros H. repeat (destruct H as [->|H]; [reflexivity|]). done.
Qed.

Lemma white_spaces_blank ws :
  Forall (λ w, w ∈ WHITE_SPACE) ws → trimStart (join_all ws) = "".
Proof.
  induction 1 as [|w ws Hw _ IH]; [done|].
  cbn [join_all]. by rewrite trimStart_app_blank by by apply white_space_blank.
Qed.

(** A text that starts with white space is not what [trimStart] leaves,
    and one that ends with white space is not what [trimEnd] leaves. *)
Lemma clean_no_prefix w r : w ∈ WHITE_SPACE → ¬ starts_clean (w +:+ r).
Proof.
  intros Hw. unfold starts_clean. destruct (white_space_width w Hw) as [Hl Hne].
  rewrite space_width_app; rewrite Hl; destruct w; simpl; done.
Qed.

Lemma trimEnd_no_suffix w p : w ∈ WHITE_SPACE → trimEnd (p +:+ w) ≠ p +:+ w.
Proof.
  intros Hw H. rewrite trimEnd_app_blank in H by by apply white_space_blank.
  destruct (trimEnd_split p) as (r & Hr & _).
  apply (f_equal String.length) in H, Hr. rewrite !append_length in *.
  destruct (white_space_width w Hw) as [_ Hne]. destruct w; [done|]. simpl in *. lia.
Qed.

Lemma trim_tight s : trim s = s → starts_clean s ∧ trimEnd s = s.
Proof.
  intros H. assert (starts_clean s) as Hc by (rewrite <- H; apply trim_clean).
  split; [done|]. unfold trim in H. by rewrite trimStart_of_clean in H.
Qed.

(** What [trim] leaves is a part of the text. *)
Lemma trim_split s : ∃ p r, s = p +:+ trim s +:+ r ∧ trimStart p = "" ∧ trimStart r = "".
Proof.
  destruct (trimStart_split s) as (p & Hp & Hblank).
  destruct (trimEnd_split (trimStart s)) as (r & Hr & Hblank').
  exists p, r. split; [|done]. unfold trim. by rewrite <- Hr.
Qed.

(** A text whose lower case is free of white space at both ends is so
    itself. *)
Lemma trim_of_lower u : trim (toLowerCase u) = toLowerCase u → trim u = u.
Proof.
  rewrite trim_lower. intros H.
  destruct (trim_split u) as (p & r & Hu & _).
  apply (f_equal String.length) in H. rewrite !toLowerCase_length in H.
  pose proof (f_equal String.length Hu) as Hl. rewrite !append_length in Hl.
  destruct p as [|x p]; [|simpl in Hl; lia].
  destruct r as [|y r]; [|simpl in Hl; lia].
  rewrite append_empty in Hu. done.
Qed.

Lemma byte_is n c : byte n c = true → c = ascii_of_nat n.
Proof. intros H%byte_eq. by rewrite <- H, ascii_nat_embedding. Qed.

Lemma listed (w : string) : bool_decide (w ∈ WHITE_SPACE) = true → w ∈ WHITE_SPACE.
Proof. apply bool_decide_eq_true_1. Qed.

(** The white space character at the front of a text is one of the
    list. *)
Lemma space_width_listed s n : space_width s = S n → take (S n) s ∈ WHITE_SPACE.
Proof.
  destruct s as [|a r]; [done|]. cbn [space_width].
  destruct (Ascii.is_space a) eqn:Ha.
  { intros [= <-]. cbn [take]. clear r. apply listed.
    destruct a as [[] [] [] [] [] [] [] []]; vm_compute in Ha;
      first [discriminate Ha|vm_compute; reflexivity]. }
  destruct r as [|b r]; [done|]. destruct (space2 a b) eqn:Hb.
  { intros [= <-]. cbn [take]. unfold space2 in Hb.
    apply andb_prop in Hb as [->%byte_is ->%byte_is]. apply listed. vm_compute. reflexivity. }
  destruct r as [|c r]; [done|]. destruct (space3 a b c) eqn:Hc; [|done].
  intros [= <-]. cbn [take]. clear Ha Hb. unfold space3 in Hc.
  repeat (apply orb_prop in Hc as [Hc|Hc]);
    repeat match goal with
           | H : _ && _ = true |- _ => apply andb_prop in H as [? ?]
           | H : byte _ _ = true |- _ => apply byte_is in H; subst
           end; try (apply listed; vm_compute; reflexivity).
  apply listed. clear -H0.
  destruct c as [[] [] [] [] [] [] [] []]; vm_compute in H0;
    first [discriminate H0|vm_compute; reflexivity].
Qed.

Lemma blank_white_spaces s :
  trimStart s = "" ↔ ∃ ws, Forall (λ w, w ∈ WHITE_SPACE) ws ∧ s = join_all ws.
Proof.
  split; [|intros (ws & Hws & ->); by apply white_spaces_blank].
  remember (String.length s) as n eqn:Hn. revert s Hn.
  induction (lt_wf n) as [n _ IH]. intros s -> Hs.
  rewrite trimStart_step in Hs. destruct (space_width s) as [|k] eqn:E.
  { subst s. by exists []. }
  destruct (IH (String.length (drop (S k) s))) with (s := drop (S k) s)
    as (ws & Hws & Hrest); [|done..|].
  { rewrite drop_length. pose proof (space_width_le s). lia. }
  exists (take (S k) s :: ws). split.
  - constructor; [by apply space_width_listed|done].
  - cbn [join_all]. by rewrite <- Hrest, take_drop.
Qed.

Lemma trim_blank s : trim s = "" ↔ trimStart s = "".
Proof.
  unfold trim. split; [|by intros ->].
  intros H. destruct (trimStart s) as [|c r] eqn:E; [done|].
  exfalso. revert H. apply trimEnd_nonempty. rewrite <- E, trimStart_idem. by rewrite E.
Qed.

Lemma trim_white_spaces s :
  trim s = "" ↔ ∃ ws, Forall (λ w, w ∈ WHITE_SPACE) ws ∧ s = join_all ws.
Proof. rewrite trim_blank. apply blank_white_spaces. Qed.

Lemma eqb_lower_at c : Ascii.eqb (lower_ascii c) "@" = Ascii.eqb c "@".
Proof. by destruct c as [[] [] [] [] [] [] [] []]. Qed.

Lemma includes_lower_at s : includes "@" (toLowerCase s) = includes "@" s.
Proof. induction s as [|c s IH]; simpl; [done|]. by rewrite eqb_lower_at, IH. Qed.

(** A text without white space around it neither starts nor ends with a
    white space character. *)
Lemma tight_no_white_space t w r :
  trim t = t → w ∈ WHITE_SPACE → t ≠ w +:+ r ∧ t ≠ r +:+ w.
Proof.
  intros [Hclean Hend]%trim_tight Hw. split; intros ->.
  - by apply (clean_no_prefix w r).
  - by apply (trimEnd_no_suffix w r).
Qed.

End JsFacts.

(** ** agents.js *)

Module AgentsFacts.
Import Js JsFacts Agents.

Lemma parseArgsString_eq s :
  parseArgsString (Some s)
  = filter (λ part, Is_true (nonempty part)) (map trim (split " " s)).
Proof. destruct s; reflexivity. Qed.

Lemma parseArgsString_token s t :
  t ∈ parseArgsString (Some s) → t ≠ "" ∧ trim t = t ∧ includes " " t = false.
Proof.
  rewrite parseArgsString_eq. intros Ht.
  apply list_elem_of_filter in Ht as [Hne Ht].
  apply list_elem_of_fmap in Ht as (u & -> & Hu).
  split; [by apply nonempty_true, Is_true_true|].
  split; [apply trim_idem|].
  destruct (includes " " (trim u)) eqn:E; [|done].
  apply includes_trim in E. by rewrite (split_no_sep _ _ _ Hu) in E.
Qed.

(** C8. [parseArgsString] splits its argument on single spaces, trims each
    part and drops the empty ones, so every token is non-empty, free of
    spaces, and neither starts nor ends with a white space character (tab,
    line feed, no-break space and the others of [WHITE_SPACE]); a part that
    holds white space only gives no token, and white space other than the
    space does not split. ["resume --flag  extra"] gives the three tokens
    [resume], [--flag], [extra]; [null], a missing argument and the empty
    string give no token. *)
Theorem parseArgsString_tokenizes :
  (∀ s, parseArgsString (Some s)
        = filter (λ part, Is_true (nonempty part)) (map trim (split " " s)))
  ∧ (∀ s t, t ∈ parseArgsString (Some s) →
            t ≠ "" ∧ trim t = t ∧ includes " " t = false
            ∧ ∀ w r, w ∈ WHITE_SPACE → t ≠ w +:+ r ∧ t ≠ r +:+ w)
  ∧ (∀ x, trim x = "" ↔ ∃ ws, Forall (λ w, w ∈ WHITE_SPACE) ws ∧ x = join_all ws)
  ∧ parseArgsString (Some "resume --flag  extra") = ["resume"; "--flag"; "extra"]
  ∧ parseArgsString (Some ("a " +:+ text [9] +:+ " b" +:+ text [10])) = ["a"; "b"]
  ∧ parseArgsString (Some ("a " +:+ text [194; 160] +:+ " " +:+ text [239; 187; 191] +:+ "b"))
    = ["a"; "b"]
  ∧ parseArgsString (Some ("a" +:+ text [9] +:+ "b c")) = ["a" +:+ text [9] +:+ "b"; "c"]
  ∧ parseArgsString None = []
  ∧ parseArgsString (Some "") = [].
Proof.
  split; [exact parseArgsString_eq|].
  split.
  { intros s t Ht. destruct (parseArgsString_token s t Ht) as (Hne & Htrim & Hsp).
    repeat split; try done; by apply (tight_no_white_space t w r). }
  split; [exact trim_white_spaces|].
  repeat split; reflexivity.
Qed.

Lemma or_lit_chain a b c d :
  or_lit (a ||| b ||| c) d = default d (Spec.first_nonempty [a; b; c]).
Proof. destruct a as [[|]|], b as [[|]|], c as [[|]|]; reflexivity. Qed.

Lemma normalize_chain a b c :
  normalizeAgentName (a ||| b ||| c) = normalizeAgentName (Spec.first_nonempty [a; b; c]).
Proof. destruct a as [[|]|], b as [[|]|], c as [[|]|]; reflexivity. Qed.

Lemma resolvePackageName_chain n o c s :
  resolvePackageName n o c s
  = match Spec.first_nonempty [o; c; s; DEFAULT_PACKAGES !! n] with
    | Some p => Ok p
    | None => Err (NoPackageConfigured n)
    end.
Proof.
  unfold resolvePackageName.
  destruct o as [[|]|], c as [[|]|], s as [[|]|], (DEFAULT_PACKAGES !! n) as [[|]|];
    reflexivity.
Qed.

Lemma currentForAgent_state_for s n :
  match st_current s with
  | Some c => if String.eqb (normalizeAgentName (cur_name c)) n then Some c else None
  | None => None
  end = Spec.state_for s n.
Proof.
  unfold Spec.state_for. destruct (st_current s) as [cur|]; [|done].
  destruct (String.eqb_spec (normalizeAgentName (cur_name cur)) n);
    case_decide; congruence.
Qed.

(** The source function and the rules in the specification's words agree
    on every input. *)
Lemma resolveTarget_refines a c s o :
  resolveTarget a c s o = Spec.resolve_spec a c s o.
Proof.
  unfold resolveTarget, Spec.resolve_spec, Spec.name_sources.
  rewrite normalize_chain.
  generalize (normalizeAgentName
    (Spec.first_nonempty [spec_name <$> parseAgentSpec a; cfg_default c;
                          st_current s ≫= cur_name])).
  intros n. destruct (nonempty n) eqn:Hn; cbn [negb].
  - apply nonempty_true in Hn. rewrite decide_False by done.
    unfold assertSupportedAgent. case_decide; cbn [mbind result_bind]; [|done].
    rewrite currentForAgent_state_for, resolvePackageName_chain, !or_lit_chain.
    unfold Spec.package_sources, Spec.version_sources, Spec.args_sources, Spec.entry_for.
    by destruct (Spec.first_nonempty [packageOverride o; _; _; _]).
  - apply nonempty_false in Hn. by rewrite decide_True.
Qed.

Lemma normalize_some x : normalizeAgentName (Some x) = toLowerCase (trim x).
Proof. unfold normalizeAgentName. by rewrite or_lit_some. Qed.

Lemma normalize_idem x :
  normalizeAgentName (Some (normalizeAgentName x)) = normalizeAgentName x.
Proof.
  rewrite normalize_some. unfold normalizeAgentName.
  by rewrite trim_lower, toLowerCase_idem, trim_idem.
Qed.

Lemma supported_iff n :
  n ∈ SUPPORTED_AGENTS ↔ n = "codex" ∨ n = "claude" ∨ n = "gemini".
Proof.
  unfold SUPPORTED_AGENTS.
  rewrite !elem_of_union, !elem_of_singleton. tauto.
Qed.

Lemma default_package_supported n :
  n ∈ SUPPORTED_AGENTS → ∃ p, DEFAULT_PACKAGES !! n = Some p ∧ nonempty p = true.
Proof.
  intros [-> | [-> | ->]]%supported_iff; eexists; split; reflexivity.
Qed.

Lemma first_nonempty_package o c s p :
  nonempty p = true → ∃ q, Spec.first_nonempty [o; c; s; Some p] = Some q.
Proof.
  intros Hp. simpl. rewrite Hp.
  destruct o as [[|]|], c as [[|]|], s as [[|]|]; simpl; eauto.
Qed.

(** The three outcomes of name resolution. *)
Lemma resolveTarget_by_name a c s o :
  let n := normalizeAgentName (Spec.first_nonempty (Spec.name_sources a c s)) in
  (n = "" → resolveTarget a c s o = Err NoAgentSpecified)
  ∧ (n ≠ "" → n ∉ SUPPORTED_AGENTS → resolveTarget a c s o = Err (UnsupportedAgent n))
  ∧ (n ∈ SUPPORTED_AGENTS → ∃ t, resolveTarget a c s o = Ok t ∧ name t = n).
Proof.
  intros n. rewrite resolveTarget_refines. unfold Spec.resolve_spec. fold n.
  repeat split.
  - intros Hn. by rewrite decide_True.
  - intros Hn Hs. by rewrite decide_False, decide_False.
  - intros Hs.
    assert (n ≠ "") as Hn.
    { apply supported_iff in Hs as [-> | [-> | ->]]; done. }
    rewrite decide_False, decide_True by done.
    destruct (default_package_supported n Hs) as (p & Hp & Hpne).
    unfold Spec.package_sources. rewrite Hp.
    destruct (first_nonempty_package (packageOverride o) (e_package (Spec.entry_for c n))
                (Spec.state_for s n ≫= cur_package) p Hpne) as [q ->].
    by eexists.
Qed.

Lemma parseAgentSpec_plain x :
  includes "@" (trim x) = false →
  parseAgentSpec (Some x)
  = if nonempty (toLowerCase (trim x))
    then Some {| spec_name := toLowerCase (trim x); spec_version := None |}
    else None.
Proof.
  intros Hno. unfold parseAgentSpec.
  destruct (nonempty x) eqn:Hx; cbn [negb].
  2:{ apply nonempty_false in Hx. by subst. }
  rewrite toLowerCase_nonempty.
  destruct (nonempty (trim x)) eqn:Ht; cbn [negb]; [|done].
  rewrite lastIndexOf_absent by done.
  cbn [Z.ltb Z.compare]. rewrite normalize_some, trim_idem, toLowerCase_nonempty, Ht.
  done.
Qed.

(** The name that a specifier without ['@'] gives. *)
Lemma plain_name x c s :
  includes "@" (trim x) = false → toLowerCase (trim x) ≠ "" →
  normalizeAgentName (Spec.first_nonempty (Spec.name_sources (Some x) c s))
  = toLowerCase (trim x).
Proof.
  intros Hno Hn. unfold Spec.name_sources.
  rewrite (parseAgentSpec_plain x Hno).
  apply nonempty_true in Hn. rewrite Hn. cbn [fmap option_fmap option_map spec_name].
  simpl Spec.first_nonempty. rewrite Hn.
  by rewrite <- normalize_some, normalize_idem.
Qed.

Lemma supported_tight n :
  n ∈ SUPPORTED_AGENTS → trim n = n ∧ includes "@" n = false ∧ n ≠ "".
Proof. intros [-> | [-> | ->]]%supported_iff; by repeat split. Qed.

(** A supported name in any case, with any white space around it, is the
    name that the specifier gives. *)
Lemma padded_name pre post u n c s :
  Forall (λ w, w ∈ WHITE_SPACE) pre → Forall (λ w, w ∈ WHITE_SPACE) post →
  n ∈ SUPPORTED_AGENTS → toLowerCase u = n →
  normalizeAgentName
    (Spec.first_nonempty
       (Spec.name_sources (Some (join_all pre +:+ u +:+ join_all post)) c s)) = n.
Proof.
  intros Hpre Hpost Hn Hu. destruct (supported_tight n Hn) as (Htrim & Hat & Hne).
  assert (trim (join_all pre +:+ u +:+ join_all post) = u) as Hx.
  { apply trim_padded; [by apply white_spaces_blank..|].
    apply trim_of_lower. by rewrite Hu. }
  rewrite plain_name; rewrite Hx.
  - done.
  - by rewrite <- includes_lower_at, Hu.
  - by rewrite Hu.
Qed.

(** C7, as the code has it. Names are compared with the supported set after
    trimming and lower-casing. A supported name, in any case and with any
    white space around it (the space, the tab, the no-break space and the
    others of [WHITE_SPACE]), resolves to its lower-case form; [" CoDeX "]
    resolves to [codex]. A name whose normal form is not empty and lies
    outside [{codex, claude, gemini}] fails with UnsupportedAgent. A name
    that is available but blank has the empty normal form, which lies
    outside the set, and fails with NoAgentSpecified, as does resolution
    with no name from the command line, the project configuration or the
    state. *)
Theorem resolveTarget_normalizes_name :
  (∀ x, normalizeAgentName (Some x) = toLowerCase (trim x))
  ∧ (∀ n, n ∈ SUPPORTED_AGENTS ↔ n = "codex" ∨ n = "claude" ∨ n = "gemini")
  ∧ (∀ a c s o,
       let n := normalizeAgentName (Spec.first_nonempty (Spec.name_sources a c s)) in
       (n = "" → resolveTarget a c s o = Err NoAgentSpecified)
       ∧ (n ≠ "" → n ∉ SUPPORTED_AGENTS →
          ∃ m, resolveTarget a c s o = Err (UnsupportedAgent m))
       ∧ (n ∈ SUPPORTED_AGENTS → ∃ t, resolveTarget a c s o = Ok t ∧ name t = n))
  ∧ (∀ pre post u n c s o,
       Forall (λ w, w ∈ WHITE_SPACE) pre → Forall (λ w, w ∈ WHITE_SPACE) post →
       n ∈ SUPPORTED_AGENTS → toLowerCase u = n →
       ∃ t, resolveTarget (Some (join_all pre +:+ u +:+ join_all post)) c s o = Ok t
            ∧ name t = n)
  ∧ (∀ pre post u c s o,
       Forall (λ w, w ∈ WHITE_SPACE) pre → Forall (λ w, w ∈ WHITE_SPACE) post →
       trim u = u → u ≠ "" → includes "@" u = false →
       toLowerCase u ∉ SUPPORTED_AGENTS →
       ∃ m, resolveTarget (Some (join_all pre +:+ u +:+ join_all post)) c s o
            = Err (UnsupportedAgent m))
  ∧ (∀ c s o, ∃ t, resolveTarget (Some " CoDeX ") c s o = Ok t ∧ name t = "codex")
  ∧ (∀ c s o, ∃ t, resolveTarget (Some (text [194; 160] +:+ "CLAUDE" +:+ text [9])) c s o
                   = Ok t ∧ name t = "claude")
  ∧ (∀ c s o, ∃ t, resolveTarget (Some (text [239; 187; 191] +:+ "Gemini" +:+ text [10]))
                     c s o = Ok t ∧ name t = "gemini")
  ∧ (∀ c s o, resolveTarget (Some " Cursor ") c s o = Err (UnsupportedAgent "cursor"))
  ∧ (∀ a c s o,
       Spec.first_nonempty (Spec.name_sources a c s) = None →
       resolveTarget a c s o = Err NoAgentSpecified)
  ∧ (∀ a c s o x,
       Spec.first_nonempty (Spec.name_sources a c s) = Some x → trim x = "" →
       resolveTarget a c s o = Err NoAgentSpecified).
Proof.
  split; [exact normalize_some|].
  split; [exact supported_iff|].
  split.
  { intros a c s o n.
    destruct (resolveTarget_by_name a c s o) as (Hempty & Hbad & Hgood).
    split; [exact Hempty|]. split; [|exact Hgood].
    intros Hne Hout. eexists. by apply Hbad. }
  assert (∀ pre post u n c s o,
            Forall (λ w, w ∈ WHITE_SPACE) pre → Forall (λ w, w ∈ WHITE_SPACE) post →
            n ∈ SUPPORTED_AGENTS → toLowerCase u = n →
            ∃ t, resolveTarget (Some (join_all pre +:+ u +:+ join_all post)) c s o = Ok t
                 ∧ name t = n) as Hpad.
  { intros pre post u n c s o Hpre Hpost Hn Hu.
    destruct (resolveTarget_by_name (Some (join_all pre +:+ u +:+ join_all post)) c s o)
      as (_ & _ & Hgood).
    rewrite (padded_name pre post u n c s Hpre Hpost Hn Hu) in Hgood. by apply Hgood. }
  split; [exact Hpad|].
  split.
  { intros pre post u c s o Hpre Hpost Htrim Hne Hat Hout.
    destruct (resolveTarget_by_name (Some (join_all pre +:+ u +:+ join_all post)) c s o)
      as (_ & Hbad & _).
    assert (trim (join_all pre +:+ u +:+ join_all post) = u) as Hx.
    { apply trim_padded; [by apply white_spaces_blank..|done]. }
    assert (toLowerCase u ≠ "") as Hlow.
    { apply nonempty_true. rewrite toLowerCase_nonempty. by apply nonempty_true. }
    rewrite plain_name in Hbad by (by rewrite Hx).
    rewrite Hx in Hbad. eexists. by apply Hbad. }
  split.
  { intros c s o. apply (Hpad [" "] [" "] "CoDeX" "codex"); [by repeat constructor..| |done].
    apply supported_iff. by left. }
  split.
  { intros c s o. apply (Hpad [text [194; 160]] [text [9]] "CLAUDE" "claude");
      [repeat constructor; by apply listed..| |done].
    apply supported_iff. right. by left. }
  split.
  { intros c s o. apply (Hpad [text [239; 187; 191]] [text [10]] "Gemini" "gemini");
      [repeat constructor; by apply listed..| |done].
    apply supported_iff. right. by right. }
  split.
  { intros c s o.
    destruct (resolveTarget_by_name (Some " Cursor ") c s o) as (_ & Hbad & _).
    rewrite (plain_name " Cursor ") in Hbad by done.
    apply Hbad; [done|]. intros [H|[H|H]]%supported_iff; discriminate H. }
  split.
  { intros a c s o Hnone.
    destruct (resolveTarget_by_name a c s o) as (Hempty & _).
    apply Hempty. by rewrite Hnone. }
  intros a c s o x Hsome Hblank.
  destruct (resolveTarget_by_name a c s o) as (Hempty & _).
  apply Hempty. by rewrite Hsome, normalize_some, Hblank.
Qed.

Lemma normalize_slice_nonempty t i :
  starts_clean t → 0 < i → t ≠ "" →
  nonempty (normalizeAgentName (Some (slice_to i t))) = true.
Proof.
  intros Hclean Hi Ht. unfold slice_to.
  rewrite normalize_some, toLowerCase_nonempty. apply nonempty_true.
  assert (starts_clean (take (Z.to_nat i) t)) as Hc.
  { rewrite <- (take_drop (Z.to_nat i) t) in Hclean.
    by apply starts_clean_prefix in Hclean. }
  unfold trim. rewrite trimStart_of_clean by done.
  apply trimEnd_nonempty. rewrite trimStart_of_clean by done.
  destruct t as [|c r]; [done|]. by destruct (Z.to_nat i) eqn:E; [lia|].
Qed.

(** The version that [parseAgentSpec] reads off a specifier. *)
Lemma parseAgentSpec_version x :
  parseAgentSpec (Some x) ≫= spec_version
  = if (0 <? lastIndexOf "@" (trim x))
       && nonempty (slice_from (lastIndexOf "@" (trim x) + 1) (trim x))
    then Some (slice_from (lastIndexOf "@" (trim x) + 1) (trim x))
    else None.
Proof.
  unfold parseAgentSpec.
  destruct (nonempty x) eqn:Hx; cbn [negb].
  2:{ apply nonempty_false in Hx. by subst. }
  destruct (nonempty (trim x)) eqn:Ht; cbn [negb].
  2:{ apply nonempty_false in Ht. by rewrite Ht. }
  destruct (0 <? lastIndexOf "@" (trim x)) eqn:Hi; cbn [andb].
  - rewrite normalize_slice_nonempty; cbn [negb].
    + by destruct (nonempty (slice_from _ _)).
    + apply trim_clean.
    + by apply Z.ltb_lt.
    + by apply nonempty_true.
  - by destruct (nonempty (normalizeAgentName _)).
Qed.

Lemma parseAgentSpec_version_nonempty a v :
  parseAgentSpec a ≫= spec_version = Some v → nonempty v = true.
Proof.
  destruct a as [x|]; [|done]. rewrite parseAgentSpec_version.
  destruct (0 <? _); cbn [andb]; [|done].
  destruct (nonempty (slice_from _ _)) eqn:E; [|done]. by intros [= <-].
Qed.

(** The version that resolution gives. *)
Lemma resolved_version a c s o t :
  resolveTarget a c s o = Ok t →
  version t
  = match parseAgentSpec a ≫= spec_version with
    | Some v => v
    | None =>
        default "latest"
          (Spec.first_nonempty [e_version (Spec.entry_for c (name t));
                                Spec.state_for s (name t) ≫= cur_version])
    end.
Proof.
  rewrite resolveTarget_refines. unfold Spec.resolve_spec.
  repeat case_decide; try done.
  destruct (Spec.first_nonempty (Spec.package_sources _ c s o)); [|done].
  intros [= <-]. cbn [version name]. unfold Spec.version_sources.
  destruct (parseAgentSpec a ≫= spec_version) as [v|] eqn:Hv; [|done].
  cbn [Spec.first_nonempty]. by rewrite (parseAgentSpec_version_nonempty a v Hv).
Qed.

(** C9. The version of a command-line specifier is the text after the last
    ['@'] of the (trimmed) specifier when that ['@'] stands after position
    0 and the text is not empty: the specifier is then the name part, the
    ['@'] and the version, and the version holds no ['@']; a leading ['@']
    starts no version. Whenever the name resolves to a supported tool,
    resolution succeeds and the resolved version is the specifier's when it
    has one, else the project configuration's for the tool, else the
    state's when the state is for that tool, else ["latest"]; the four
    cases are shown on examples. *)
Theorem version_precedence :
  (∀ x,
     parseAgentSpec (Some x) ≫= spec_version
     = if (0 <? lastIndexOf "@" (trim x))
          && nonempty (slice_from (lastIndexOf "@" (trim x) + 1) (trim x))
       then Some (slice_from (lastIndexOf "@" (trim x) + 1) (trim x))
       else None)
  ∧ (∀ x,
       0 < lastIndexOf "@" (trim x) →
       trim x = slice_to (lastIndexOf "@" (trim x)) (trim x)
                +:+ String "@" (slice_from (lastIndexOf "@" (trim x) + 1) (trim x))
       ∧ includes "@" (slice_from (lastIndexOf "@" (trim x) + 1) (trim x)) = false)
  ∧ (∀ x,
       trim x = x →
       parseAgentSpec (Some x) ≫= spec_version
       = if (0 <? lastIndexOf "@" x) && nonempty (slice_from (lastIndexOf "@" x + 1) x)
         then Some (slice_from (lastIndexOf "@" x + 1) x)
         else None)
  ∧ parseAgentSpec (Some "@scope/name")
    = Some {| spec_name := "@scope/name"; spec_version := None |}
  ∧ parseAgentSpec (Some "@scope/name@1.2.3")
    = Some {| spec_name := "@scope/name"; spec_version := Some "1.2.3" |}
  ∧ (∀ a c s o,
       let n := normalizeAgentName (Spec.first_nonempty (Spec.name_sources a c s)) in
       n ∈ SUPPORTED_AGENTS →
       ∃ t, resolveTarget a c s o = Ok t ∧ name t = n
            ∧ version t
              = match parseAgentSpec a ≫= spec_version with
                | Some v => v
                | None =>
                    match e_version (Spec.entry_for c n) with
                    | Some (String x v) => String x v
                    | _ =>
                        match Spec.state_for s n ≫= cur_version with
                        | Some (String x v) => String x v
                        | _ => "latest"
                        end
                    end
                end)
  ∧ (∀ a c s o t,
       resolveTarget a c s o = Ok t →
       version t
       = match parseAgentSpec a ≫= spec_version with
         | Some v => v
         | None =>
             default "latest"
               (Spec.first_nonempty [e_version (Spec.entry_for c (name t));
                                     Spec.state_for s (name t) ≫= cur_version])
         end)
  ∧ version <$> resolveTarget (Some "codex@0.60.1") Samples.codex_args_config
                  Samples.codex_state no_overrides = Ok "0.60.1"
  ∧ version <$> resolveTarget (Some "codex") Samples.codex_args_config
                  Samples.codex_state no_overrides = Ok "0.45.1"
  ∧ version <$> resolveTarget (Some "codex") Samples.no_config
                  Samples.codex_state no_overrides = Ok "0.31.0"
  ∧ version <$> resolveTarget (Some "claude") Samples.codex_args_config
                  Samples.codex_state no_overrides = Ok "latest"
  ∧ version <$> resolveTarget None Samples.no_config Samples.codex_state no_overrides
    = Ok "0.31.0".
Proof.
  split; [exact parseAgentSpec_version|].
  split.
  { intros x Hi.
    destruct (lastIndexOf_spec "@" (trim x)) as [[Hneg _]|(_ & Hs & Hno)]; [lia|].
    split; [exact Hs|exact Hno]. }
  split.
  { intros x Hx. by rewrite parseAgentSpec_version, Hx. }
  split; [reflexivity|]. split; [reflexivity|].
  split.
  { intros a c s o n Hn.
    destruct (resolveTarget_by_name a c s o) as (_ & _ & Hgood).
    destruct (Hgood Hn) as (t & Ht & Hname). exists t. split; [done|]. split; [done|].
    rewrite (resolved_version a c s o t Ht). fold n in Hname. rewrite Hname.
    destruct (parseAgentSpec a ≫= spec_version); [done|].
    cbn [Spec.first_nonempty].
    destruct (e_version (Spec.entry_for c n)) as [[|x v]|]; cbn [nonempty default];
      try done; by destruct (Spec.state_for s n ≫= cur_version) as [[|y v']|]. }
  split; [exact resolved_version|].
  repeat split; vm_compute; reflexivity.
Qed.

(** C10. An override equal to the empty string is no override: with
    [argsOverride = ""] (or [packageOverride = ""]) [resolveTarget] returns
    what it returns without the override, so the args (the package) come
    from the project configuration, then from the state for the tool; the
    empty override cannot force empty args over a configured non-empty
    value. *)
Theorem empty_override_falls_through a c s o :
  resolveTarget a c s {| packageOverride := packageOverride o; argsOverride := Some "" |}
  = resolveTarget a c s {| packageOverride := packageOverride o; argsOverride := None |}
  ∧ resolveTarget a c s {| packageOverride := Some ""; argsOverride := argsOverride o |}
    = resolveTarget a c s {| packageOverride := None; argsOverride := argsOverride o |}
  ∧ (∀ t,
       resolveTarget a c s
         {| packageOverride := packageOverride o; argsOverride := Some "" |} = Ok t →
       args t
       = default ""
           (Spec.first_nonempty [e_args (Spec.entry_for c (name t));
                                 Spec.state_for s (name t) ≫= cur_args])
       ∧ ∀ v, e_args (Spec.entry_for c (name t)) = Some v → v ≠ "" → args t = v)
  ∧ (∀ t,
       resolveTarget a c s
         {| packageOverride := Some ""; argsOverride := argsOverride o |} = Ok t →
       Some (package t)
       = Spec.first_nonempty [e_package (Spec.entry_for c (name t));
                              Spec.state_for s (name t) ≫= cur_package;
                              DEFAULT_PACKAGES !! name t]).
Proof.
  split; [reflexivity|]. split; [reflexivity|].
  split.
  - intros t. rewrite resolveTarget_refines. unfold Spec.resolve_spec.
    repeat case_decide; try done.
    destruct (Spec.first_nonempty (Spec.package_sources _ _ _ _)); [|done].
    intros [= <-]. cbn [args name]. split; [reflexivity|].
    intros v Hv Hne. unfold Spec.args_sources. cbn [argsOverride].
    rewrite Hv. simpl. apply nonempty_true in Hne. by rewrite Hne.
  - intros t. rewrite resolveTarget_refines. unfold Spec.resolve_spec.
    repeat case_decide; try done.
    unfold Spec.package_sources. cbn [packageOverride].
    change (Spec.first_nonempty (Some "" :: ?l)) with (Spec.first_nonempty l).
    set (n := normalizeAgentName _).
    destruct (Spec.first_nonempty [e_package (Spec.entry_for c n); _; _]) eqn:E; [|done].
    intros [= <-]. cbn [package name]. by rewrite E.
Qed.

Lemma first_nonempty_skips pre v rest :
  Forall (λ x, x = None ∨ x = Some "") pre → v ≠ "" →
  Spec.first_nonempty (pre ++ Some v :: rest) = Some v.
Proof.
  intros Hpre Hv. induction Hpre as [|x pre [->| ->] _ IH]; simpl; [|done..].
  apply nonempty_true in Hv. by rewrite Hv.
Qed.

Lemma state_for_other s n cur :
  st_current s = Some cur → normalizeAgentName (cur_name cur) ≠ n →
  Spec.state_for s n = None.
Proof. unfold Spec.state_for. intros -> Hne. by rewrite decide_False. Qed.

(** When the state is about another tool than the one resolved, the name
    did not come from the state. *)
Lemma name_sources_isolated a c s :
  Spec.state_for s (normalizeAgentName (Spec.first_nonempty (Spec.name_sources a c s)))
  = None →
  Spec.first_nonempty (Spec.name_sources a c s)
  = Spec.first_nonempty (Spec.name_sources a c {| st_current := None |}).
Proof.
  unfold Spec.name_sources, Spec.state_for. cbn [st_current].
  destruct (st_current s) as [cur|]; cbn [mbind option_bind]; [|done].
  destruct (spec_name <$> parseAgentSpec a) as [[|]|], (cfg_default c) as [[|]|];
    try reflexivity;
    (destruct (cur_name cur) as [[|]|] eqn:Hc;
     cbn [Spec.first_nonempty nonempty]; try reflexivity;
     by rewrite decide_True).
Qed.

Lemma resolve_spec_fields a c s o t :
  Spec.resolve_spec a c s o = Ok t →
  name t = normalizeAgentName (Spec.first_nonempty (Spec.name_sources a c s))
  ∧ Some (package t) = Spec.first_nonempty (Spec.package_sources (name t) c s o)
  ∧ version t = default "latest" (Spec.first_nonempty (Spec.version_sources a (name t) c s))
  ∧ args t = default "" (Spec.first_nonempty (Spec.args_sources (name t) c s o)).
Proof.
  unfold Spec.resolve_spec. repeat case_decide; try done.
  set (n := normalizeAgentName _).
  destruct (Spec.first_nonempty (Spec.package_sources n c s o)) eqn:E; [|done].
  intros [= <-]. cbn [name package version args]. by rewrite E.
Qed.

Lemma resolve_spec_isolated a c s o t :
  Spec.resolve_spec a c s o = Ok t →
  Spec.state_for s (name t) = None →
  Spec.resolve_spec a c {| st_current := None |} o = Ok t.
Proof.
  intros Hres Hst.
  destruct (resolve_spec_fields _ _ _ _ _ Hres) as (Hn & _).
  rewrite Hn in Hst. clear Hn.
  pose proof (name_sources_isolated _ _ _ Hst) as Heq.
  unfold Spec.resolve_spec in *. rewrite <- Heq. clear Heq.
  revert Hres Hst.
  generalize (normalizeAgentName (Spec.first_nonempty (Spec.name_sources a c s))).
  intros n Hres Hst.
  unfold Spec.package_sources, Spec.version_sources, Spec.args_sources in *.
  rewrite Hst in Hres. exact Hres.
Qed.

(** C2, as the code has it. [resolveTarget] is first-match-wins on each of
    its four chains, where a source matches when it holds a non-empty
    string: name from the specifier, the configuration's default, the
    state's current name; package from the override, the configuration's
    section, the state for the tool, the built-in table; version from the
    specifier, the section, the state for the tool, ["latest"]; args from
    the override, the section, the state for the tool, the empty string. A
    non-empty value wins over whatever stands at the sources after it. The
    state is consulted for package, version and args only when its current
    name normalises to the resolved name: otherwise the result is the one
    obtained without any state. *)
Theorem resolveTarget_first_nonempty_wins :
  (∀ a c s o, resolveTarget a c s o = Spec.resolve_spec a c s o)
  ∧ (∀ a c s o t,
       resolveTarget a c s o = Ok t →
       name t = normalizeAgentName (Spec.first_nonempty (Spec.name_sources a c s))
       ∧ Some (package t) = Spec.first_nonempty (Spec.package_sources (name t) c s o)
       ∧ version t
         = default "latest" (Spec.first_nonempty (Spec.version_sources a (name t) c s))
       ∧ args t = default "" (Spec.first_nonempty (Spec.args_sources (name t) c s o)))
  ∧ (∀ pre v rest,
       Forall (λ x, x = None ∨ x = Some "") pre → v ≠ "" →
       Spec.first_nonempty (pre ++ Some v :: rest) = Some v)
  ∧ (∀ s n cur,
       st_current s = Some cur → normalizeAgentName (cur_name cur) ≠ n →
       Spec.state_for s n = None)
  ∧ (∀ a c s o t,
       resolveTarget a c s o = Ok t →
       Spec.state_for s (name t) = None →
       resolveTarget a c {| st_current := None |} o = Ok t).
Proof.
  split; [exact resolveTarget_refines|].
  split.
  { intros a c s o t. rewrite resolveTarget_refines. apply resolve_spec_fields. }
  split; [exact first_nonempty_skips|].
  split; [exact state_for_other|].
  intros a c s o t. rewrite !resolveTarget_refines. apply resolve_spec_isolated.
Qed.

(** The theorem at a run where every chain is decided by a different
    source and the state is about another tool. *)
Lemma resolveTarget_first_nonempty_wins_witness :
  ∃ t,
    resolveTarget (Some "codex@0.60.1") Samples.codex_args_config Samples.claude_state
      no_overrides = Ok t
    ∧ Some (package t)
      = Spec.first_nonempty
          (Spec.package_sources (name t) Samples.codex_args_config Samples.claude_state
             no_overrides)
    ∧ resolveTarget (Some "codex@0.60.1") Samples.codex_args_config
        {| st_current := None |} no_overrides = Ok t.
Proof.
  destruct resolveTarget_first_nonempty_wins as (_ & Hfields & _ & _ & Hiso).
  exists {| name := "codex"; package := "@acme/codex"; version := "0.60.1";
            args := "--full-auto" |}.
  split; [vm_compute; reflexivity|].
  split.
  - apply (Hfields (Some "codex@0.60.1") Samples.codex_args_config Samples.claude_state
             no_overrides). vm_compute. reflexivity.
  - apply (Hiso (Some "codex@0.60.1") Samples.codex_args_config Samples.claude_state
             no_overrides); vm_compute; reflexivity.
Defined.

(** C2 as stated fails: the explicit args override holds a value, the empty
    string, and yet the resolved args are the project configuration's. *)
Lemma present_empty_override_loses :
  Spec.first_present
    (Spec.args_sources "codex" Samples.codex_args_config Samples.no_state
       Samples.empty_args_override) = Some ""
  ∧ resolveTarget (Some "codex") Samples.codex_args_config Samples.no_state
      Samples.empty_args_override
    = Ok {| name := "codex"; package := "@acme/codex"; version := "0.45.1";
            args := "--full-auto" |}.
Proof. split; vm_compute; reflexivity. Qed.

(** The name check at a supported and at an unsupported name. *)
Lemma resolveTarget_normalizes_name_witness :
  ∃ t, resolveTarget (Some (join_all [text [194; 160]; " "] +:+ "GeMiNi"
                            +:+ join_all [text [9]; text [226; 128; 169]]))
         Samples.no_config Samples.no_state no_overrides = Ok t
       ∧ name t = "gemini".
Proof.
  destruct resolveTarget_normalizes_name as (_ & Hsup & _ & Hpad & _).
  apply (Hpad [text [194; 160]; " "] [text [9]; text [226; 128; 169]] "GeMiNi" "gemini").
  - repeat constructor; by apply JsFacts.listed.
  - repeat constructor; by apply JsFacts.listed.
  - apply Hsup. right. by right.
  - reflexivity.
Defined.

(** C7 as stated fails: a name is available from the state, its normal
    form is the empty string, which is outside the supported set, and yet
    resolution does not fail with UnsupportedAgent but with
    NoAgentSpecified. *)
Lemma blank_name_is_no_agent :
  Spec.first_nonempty (Spec.name_sources None Samples.no_config Samples.blank_state)
  = Some "  "
  ∧ normalizeAgentName (Some "  ") = ""
  ∧ bool_decide (normalizeAgentName (Some "  ") ∈ SUPPORTED_AGENTS) = false
  ∧ resolveTarget None Samples.no_config Samples.blank_state no_overrides
    = Err NoAgentSpecified.
Proof. repeat split; vm_compute; reflexivity. Qed.

(** A token of the example string. *)
Lemma parseArgsString_tokenizes_witness :
  "--flag" ≠ "" ∧ trim "--flag" = "--flag" ∧ includes " " "--flag" = false
  ∧ ∀ w r, w ∈ WHITE_SPACE → "--flag" ≠ w +:+ r ∧ "--flag" ≠ r +:+ w.
Proof.
  destruct parseArgsString_tokenizes as (_ & Htoken & _).
  apply (Htoken ("resume " +:+ text [194; 160] +:+ text [9] +:+ "--flag"
                 +:+ text [10] +:+ "  extra") "--flag").
  vm_compute. apply list_elem_of_further, list_elem_of_here.
Defined.

(** The version of a padded specifier. *)
Lemma version_precedence_witness :
  ∃ t, resolveTarget (Some " Codex ") Samples.codex_args_config Samples.codex_state
         no_overrides = Ok t
       ∧ name t = "codex" ∧ version t = "0.45.1".
Proof.
  destruct version_precedence as (_ & _ & _ & _ & _ & Hfall & _).
  apply (Hfall (Some " Codex ") Samples.codex_args_config Samples.codex_state no_overrides).
  vm_compute. tauto.
Defined.

(** An empty args override against configured args. *)
Lemma empty_override_falls_through_witness :
  ∃ t, resolveTarget (Some "codex") Samples.codex_args_config Samples.no_state
         Samples.empty_args_override = Ok t
       ∧ args t = "--full-auto".
Proof.
  destruct (empty_override_falls_through (Some "codex") Samples.codex_args_config
              Samples.no_state no_overrides) as (_ & _ & Hargs & _).
  exists {| name := "codex"; package := "@acme/codex"; version := "0.45.1";
            args := "--full-auto" |}.
  split; [vm_compute; reflexivity|].
  destruct (Hargs {| name := "codex"; package := "@acme/codex"; version := "0.45.1";
                     args := "--full-auto" |}) as (_ & Hcfg).
  - vm_compute. reflexivity.
  - apply (Hcfg "--full-auto").
    + vm_compute. reflexivity.
    + discriminate.
Defined.

End AgentsFacts.

(** ** JSON objects *)

Module JsonFacts.
Import Json.

Lemma assoc_set k k' v ps :
  assoc k (set k' v ps) = if String.eqb k' k then Some v else assoc k ps.
Proof.
  induction ps as [|[k0 v0] ps IH]; simpl.
  - by destruct (String.eqb k' k).
  - destruct (String.eqb_spec k0 k') as [->|Hne]; simpl.
    + by destruct (String.eqb k' k).
    + destruct (String.eqb_spec k0 k) as [->|Hne'].
      * destruct (String.eqb_spec k' k) as [->|_]; [done|]. done.
      * exact IH.
Qed.

Lemma assoc_app k ps qs :
  assoc k (ps ++ qs) = match assoc k ps with Some v => Some v | None => assoc k qs end.
Proof.
  induction ps as [|[k0 v0] ps IH]; simpl; [done|].
  by destruct (String.eqb k0 k).
Qed.

(** Lookup in a spread: the last binding of [k] among the assigned
    properties, else the binding of the object spread first. *)
Lemma assoc_assign k ps qs :
  assoc k (assign ps qs)
  = match assoc k (reverse qs) with Some v => Some v | None => assoc k ps end.
Proof.
  unfold assign. revert ps.
  induction qs as [|[k0 v0] qs IH]; intros ps; simpl; [done|].
  rewrite IH, reverse_cons, assoc_app, assoc_set. simpl.
  destruct (assoc k (reverse qs)); [done|].
  by destruct (String.eqb k0 k).
Qed.

Lemma assoc_Some_elem_of k v (ps : list (string * json)) :
  assoc k ps = Some v → (k, v) ∈ ps.
Proof.
  induction ps as [|[k0 v0] ps IH]; simpl; [done|].
  destruct (String.eqb_spec k0 k) as [->|_].
  - intros [= ->]. by left.
  - intros H. right. by apply IH.
Qed.

Lemma elem_of_assoc k v (ps : list (string * json)) :
  NoDup ps.*1 → (k, v) ∈ ps → assoc k ps = Some v.
Proof.
  induction ps as [|[k0 v0] ps IH]; simpl; intros Hnd Hin.
  - by apply elem_of_nil in Hin.
  - apply NoDup_cons in Hnd as [Hk0 Hnd].
    apply elem_of_cons in Hin as [[= -> ->]|Hin].
    + by rewrite String.eqb_refl.
    + destruct (String.eqb_spec k0 k) as [->|_]; [|by apply IH].
      exfalso. apply Hk0. apply list_elem_of_fmap. by exists (k, v).
Qed.

(** The properties of an object have distinct names, so the order in
    which they are read does not matter. *)
Lemma assoc_reverse k (ps : list (string * json)) :
  NoDup ps.*1 → assoc k (reverse ps) = assoc k ps.
Proof.
  intros Hnd. apply option_eq. intros v. split; intros H.
  - apply elem_of_assoc; [done|]. by apply elem_of_reverse, assoc_Some_elem_of.
  - apply elem_of_assoc.
    + by rewrite fmap_reverse, reverse_Permutation.
    + by apply elem_of_reverse, assoc_Some_elem_of.
Qed.

Lemma eqb_refl : ∀ j, eqb j j = true.
Proof.
  fix IH 1. intros [|b|n|s|xs|ps]; cbn [eqb].
  - done.
  - by destruct b.
  - apply Z.eqb_refl.
  - apply String.eqb_refl.
  - induction xs as [|x xs IHxs]; [done|]. by rewrite (IH x), IHxs.
  - induction ps as [|[k x] ps IHps]; [done|].
    by rewrite String.eqb_refl, (IH x), IHps.
Qed.

Lemma strict_eq_refl v : strict_eq v v = true.
Proof. destruct v as [j|]; [apply eqb_refl|done]. Qed.

Lemma strict_eq_str v s : strict_eq v (Some (JStr s)) = true ↔ v = Some (JStr s).
Proof.
  destruct v as [[| | |s'| |]|]; simpl; try (split; congruence).
  rewrite String.eqb_eq. split; congruence.
Qed.

End JsonFacts.

(** ** state.js and the project configuration *)

Module StateFacts.
Import State Commands.

Lemma readJson_cases file fallback w :
  readJson file fallback w
  = match files w !! file with
    | Some (Doc j) => (Ok j, w)
    | Some Unparseable => (Err JsonSyntaxError, w)
    | None =>
        if bool_decide (file ∈ dirs w) then (Err (IoError "EISDIR"), w)
        else if Fs.below_file file w then (Err (IoError "ENOTDIR"), w)
        else (Ok fallback, w)
    end.
Proof.
  unfold readJson, Fs.readFile.
  destruct (files w !! file) as [[|j]|]; [done..|].
  case_bool_decide; [done|]. by destruct (Fs.below_file file w).
Qed.

Lemma readState_cases home w :
  readState home w
  = match files w !! STATE_FILE home with
    | Some (Doc j) => (Ok (if Json.truthy j then j else JObj []), w)
    | Some Unparseable => (Err JsonSyntaxError, w)
    | None =>
        if bool_decide (STATE_FILE home ∈ dirs w) then (Err (IoError "EISDIR"), w)
        else if Fs.below_file (STATE_FILE home) w then (Err (IoError "ENOTDIR"), w)
        else (Ok (JObj []), w)
    end.
Proof.
  unfold readState, io_bind. rewrite readJson_cases.
  destruct (files w !! STATE_FILE home) as [[|j]|]; [done..|].
  case_bool_decide; [done|]. by destruct (Fs.below_file _ w).
Qed.

(** [findConfigFile] returns the nearest candidate that exists. *)
Lemma findConfigFile_nearest cwd w k :
  (k ≤ List.length cwd)%nat →
  (∀ i, (i < k)%nat → Fs.exists_ (candidate (drop i cwd)) w = false) →
  Fs.exists_ (candidate (drop k cwd)) w = true →
  findConfigFile cwd w = (Ok (Some (candidate (drop k cwd))), w).
Proof.
  revert k. induction cwd as [|d cwd IH]; intros k Hk Hbelow Hhere.
  - destruct k; [|simpl in Hk; lia].
    simpl in Hhere. cbn [findConfigFile]. unfold io_bind, pathExists.
    by rewrite Hhere.
  - destruct k as [|k].
    + simpl in Hhere. cbn [findConfigFile]. unfold io_bind, pathExists.
      by rewrite Hhere.
    + cbn [findConfigFile]. unfold io_bind, pathExists.
      pose proof (Hbelow 0%nat ltac:(lia)) as H0. simpl in H0. rewrite H0.
      apply IH; [simpl in Hk; lia| |done].
      intros i Hi. apply (Hbelow (S i)). lia.
Qed.

Lemma findConfigFile_missing cwd w :
  (∀ i, (i ≤ List.length cwd)%nat → Fs.exists_ (candidate (drop i cwd)) w = false) →
  findConfigFile cwd w = (Ok None, w).
Proof.
  induction cwd as [|d cwd IH]; intros Hnone.
  - pose proof (Hnone 0%nat ltac:(simpl; lia)) as H0. simpl in H0.
    cbn [findConfigFile]. unfold io_bind, pathExists. by rewrite H0.
  - cbn [findConfigFile]. unfold io_bind, pathExists.
    pose proof (Hnone 0%nat ltac:(simpl; lia)) as H0. simpl in H0. rewrite H0.
    apply IH. intros i Hi. apply (Hnone (S i)). simpl. lia.
Qed.

Lemma findConfigFile_total cwd w : ∃ r, findConfigFile cwd w = (Ok r, w).
Proof.
  induction cwd as [|d cwd IH]; cbn [findConfigFile]; unfold io_bind, pathExists;
    destruct (Fs.exists_ _ w); eauto.
Qed.

Lemma files_exists p c w : files w !! p = Some c → Fs.exists_ p w = true.
Proof.
  intros H. unfold Fs.exists_. rewrite (bool_decide_eq_true_2 (is_Some _)) by eauto.
  apply orb_true_r.
Qed.

Lemma loadProjectConfig_unparseable cwd w p :
  findConfigFile cwd w = (Ok (Some p), w) → files w !! p = Some Unparseable →
  loadProjectConfig cwd w = (Err (ConfigParseError p), w).
Proof.
  intros Hfind Hfile. unfold loadProjectConfig, io_bind. rewrite Hfind.
  unfold io_catch, io_bind, Fs.readFile. by rewrite Hfile.
Qed.

Lemma loadProjectConfig_missing cwd w :
  findConfigFile cwd w = (Ok None, w) → loadProjectConfig cwd w = (Ok empty_project, w).
Proof. intros Hfind. unfold loadProjectConfig, io_bind. by rewrite Hfind. Qed.

(** C4, as the code has it. [readState] returns the empty object when the
    state file is missing, that is when nothing stands at its path and no
    regular file stands on the way to it (and also when the file holds
    [null] or another falsy JSON value), and the parsed value otherwise; a
    state file that does not parse makes it fail with the parse error, and
    a state path that is a directory, or that lies below a regular file,
    with the error of the read. [loadProjectConfig] fails with a
    ConfigParseError on the nearest configuration file when that file does
    not parse, and returns the empty configuration when no directory from
    the working directory up to the root has one. None of these changes the
    world. *)
Theorem state_and_config_reads :
  (∀ home w,
     files w !! STATE_FILE home = None → STATE_FILE home ∉ dirs w →
     Fs.below_file (STATE_FILE home) w = false →
     readState home w = (Ok (JObj []), w))
  ∧ (∀ home w j,
       files w !! STATE_FILE home = Some (Doc j) →
       readState home w = (Ok (if Json.truthy j then j else JObj []), w))
  ∧ (∀ home w,
       files w !! STATE_FILE home = Some Unparseable →
       readState home w = (Err JsonSyntaxError, w))
  ∧ (∀ cwd w k,
       (k ≤ List.length cwd)%nat →
       (∀ i, (i < k)%nat → Fs.exists_ (candidate (drop i cwd)) w = false) →
       files w !! candidate (drop k cwd) = Some Unparseable →
       loadProjectConfig cwd w
       = (Err (ConfigParseError (candidate (drop k cwd))), w))
  ∧ (∀ cwd w,
       (∀ i, (i ≤ List.length cwd)%nat →
             Fs.exists_ (candidate (drop i cwd)) w = false) →
       loadProjectConfig cwd w = (Ok empty_project, w))
  ∧ (∀ home w,
       files w !! STATE_FILE home = None →
       (STATE_FILE home ∈ dirs w → readState home w = (Err (IoError "EISDIR"), w))
       ∧ (STATE_FILE home ∉ dirs w → Fs.below_file (STATE_FILE home) w = true →
          readState home w = (Err (IoError "ENOTDIR"), w))).
Proof.
  split.
  { intros home w Hfile Hdir Hway. rewrite readState_cases, Hfile.
    by rewrite bool_decide_eq_false_2, Hway. }
  split.
  { intros home w j Hfile. by rewrite readState_cases, Hfile. }
  split.
  { intros home w Hfile. by rewrite readState_cases, Hfile. }
  split.
  { intros cwd w k Hk Hbelow Hfile.
    apply loadProjectConfig_unparseable; [|done].
    apply findConfigFile_nearest; [done..|]. by eapply files_exists. }
  split.
  { intros cwd w Hnone. by apply loadProjectConfig_missing, findConfigFile_missing. }
  intros home w Hfile. rewrite readState_cases, Hfile. split.
  - intros Hdir. by rewrite bool_decide_eq_true_2.
  - intros Hdir Hway. by rewrite bool_decide_eq_false_2, Hway.
Qed.

(** The theorem at a project whose configuration file, found two
    directories above the working directory, does not parse. *)
Lemma state_and_config_reads_witness :
  loadProjectConfig ["src"; "proj"; "u"; "home"] Samples.corrupt_config_world
  = (Err (ConfigParseError "/home/u/avm.config.json"), Samples.corrupt_config_world).
Proof.
  destruct state_and_config_reads as (_ & _ & _ & Hbad & _).
  apply (Hbad ["src"; "proj"; "u"; "home"] Samples.corrupt_config_world 2%nat).
  - simpl. lia.
  - intros [|[|i]] Hi; [vm_compute; reflexivity..|lia].
  - vm_compute. reflexivity.
Defined.

(** C4 as stated fails: on a state file that does not parse, [readState]
    fails with the parse error instead of returning an empty object. *)
Lemma readState_corrupt_fails :
  files Samples.corrupt_state_world !! STATE_FILE "/home/u/.avm" = Some Unparseable
  ∧ readState "/home/u/.avm" Samples.corrupt_state_world
    = (Err JsonSyntaxError, Samples.corrupt_state_world).
Proof. split; vm_compute; reflexivity. Qed.

Lemma writeJson_run file data w :
  writeJson file data w
  = (Ok tt, {| dirs := {[ Path.dirname file ]} ∪ dirs w;
               files := <[ file := Doc data ]> (files w);
               trace := trace w ++ [Mkdir (Path.dirname file); WriteFile file data] |}).
Proof.
  unfold writeJson, io_bind, Fs.mkdir, Fs.writeFile. cbn [dirs files trace].
  by rewrite <- app_assoc.
Qed.

(** What [writeState] does when the state file can be read. *)
Lemma writeState_run home env patch w previous :
  fst (readState home w) = Ok previous →
  writeState home env patch w
  = writeJson (STATE_FILE home)
      (JObj (Json.assign (Json.assign (Json.own_props previous) patch)
                         [("updatedAt", JStr (now env))])) w.
Proof.
  rewrite readState_cases. unfold writeState, io_bind. rewrite readJson_cases.
  destruct (files w !! STATE_FILE home) as [[|j]|]; cbn [fst].
  - done.
  - by intros [= <-].
  - case_bool_decide; [done|]. destruct (Fs.below_file _ w); [done|]. by intros [= <-].
Qed.

Lemma merged_lookup env patch previous k :
  NoDup patch.*1 →
  Json.assoc k (Json.assign (Json.assign (Json.own_props previous) patch)
                            [("updatedAt", JStr (now env))])
  = if decide (k = "updatedAt") then Some (JStr (now env))
    else match Json.assoc k patch with
         | Some v => Some v
         | None => Json.assoc k (Json.own_props previous)
         end.
Proof.
  intros Hnd. rewrite !JsonFacts.assoc_assign, (JsonFacts.assoc_reverse k patch Hnd).
  cbn [Json.assoc reverse rev_append fst snd].
  destruct (String.eqb_spec "updatedAt" k) as [<-|Hne]; case_decide; congruence.
Qed.

Lemma writeState_spec home env patch w previous :
  fst (readState home w) = Ok previous → NoDup patch.*1 →
  ∃ next,
    writeState home env patch w
    = (Ok tt, {| dirs := {[ Path.dirname (STATE_FILE home) ]} ∪ dirs w;
                 files := <[ STATE_FILE home := Doc (JObj next) ]> (files w);
                 trace := trace w ++ [Mkdir (Path.dirname (STATE_FILE home));
                                      WriteFile (STATE_FILE home) (JObj next)] |})
    ∧ ∀ k, Json.assoc k next
           = if decide (k = "updatedAt") then Some (JStr (now env))
             else match Json.assoc k patch with
                  | Some v => Some v
                  | None => Json.assoc k (Json.own_props previous)
                  end.
Proof.
  intros Hread Hnd. eexists. split.
  - rewrite (writeState_run _ _ _ _ _ Hread). apply writeJson_run.
  - intros k. by apply merged_lookup.
Qed.

(** C6. When the state file can be read, [writeState] writes back one
    object: the previous state overlaid with the patch and stamped with
    [updatedAt]. A key of the patch gets the patch's value, [updatedAt] the
    time of the write, and every other key keeps the value it had; when the
    state file cannot be read nothing is written. Writing
    [{current: x}] and then [{self: y}] leaves a state with [current = x]
    and [self = y], and with the other keys of the previous state. *)
Theorem writeState_shallow_merge :
  (∀ home env patch w previous,
     fst (readState home w) = Ok previous → NoDup patch.*1 →
     ∃ next w',
       writeState home env patch w = (Ok tt, w')
       ∧ files w' = <[ STATE_FILE home := Doc (JObj next) ]> (files w)
       ∧ (∀ k, Json.assoc k next
               = if decide (k = "updatedAt") then Some (JStr (now env))
                 else match Json.assoc k patch with
                      | Some v => Some v
                      | None => Json.assoc k (Json.own_props previous)
                      end))
  ∧ (∀ home env patch w e,
       fst (readState home w) = Err e →
       writeState home env patch w = (Err e, w))
  ∧ (∀ home env1 env2 x y w previous,
       fst (readState home w) = Ok previous →
       ∃ w1 w2 d,
         writeState home env1 [("current", x)] w = (Ok tt, w1)
         ∧ writeState home env2 [("self", y)] w1 = (Ok tt, w2)
         ∧ files w2 !! STATE_FILE home = Some (Doc d)
         ∧ Json.get d "current" = Some x
         ∧ Json.get d "self" = Some y
         ∧ Json.get d "updatedAt" = Some (JStr (now env2))
         ∧ ∀ k, k ≠ "current" → k ≠ "self" → k ≠ "updatedAt" →
                Json.get d k = Json.assoc k (Json.own_props previous)).
Proof.
  split.
  { intros home env patch w previous Hread Hnd.
    destruct (writeState_spec home env patch w previous Hread Hnd) as (next & Hrun & Hk).
    eexists next, _. split; [exact Hrun|]. split; [reflexivity|exact Hk]. }
  split.
  { intros home env patch w e. rewrite readState_cases.
    unfold writeState, io_bind. rewrite readJson_cases.
    destruct (files w !! STATE_FILE home) as [[|j]|]; cbn [fst].
    - by intros [= <-].
    - done.
    - case_bool_decide; [by intros [= <-]|].
      destruct (Fs.below_file _ w); [by intros [= <-]|done]. }
  intros home env1 env2 x y w previous Hread.
  assert (∀ (k : string) (v : json), NoDup [(k, v)].*1) as Hone.
  { intros k v. apply NoDup_singleton. }
  destruct (writeState_spec home env1 [("current", x)] w previous Hread (Hone _ _))
    as (next1 & Hrun1 & Hk1).
  set (w1 := {| dirs := _ |}) in Hrun1.
  assert (fst (readState home w1) = Ok (JObj next1)) as Hread1.
  { rewrite readState_cases. unfold w1. cbn [files]. by rewrite lookup_insert_eq. }
  destruct (writeState_spec home env2 [("self", y)] w1 (JObj next1) Hread1 (Hone _ _))
    as (next2 & Hrun2 & Hk2).
  eexists w1, _, (JObj next2). split; [exact Hrun1|]. split; [exact Hrun2|].
  cbn [files]. split; [by rewrite lookup_insert_eq|].
  cbn [Json.get Json.own_props] in *.
  split; [by rewrite Hk2, Hk1|]. split; [by rewrite Hk2|]. split; [by rewrite Hk2|].
  intros k Hc Hs Hu. rewrite Hk2, Hk1. case_decide; [done|].
  cbn [Json.assoc].
  destruct (String.eqb_spec "self" k); [congruence|].
  destruct (String.eqb_spec "current" k); [congruence|]. done.
Qed.

(** The theorem at a state file that already records a self-update
    check: setting the current target keeps the [self] record. *)
Lemma writeState_shallow_merge_witness :
  ∃ next w',
    writeState "/home/u/.avm" {| now := "2026-01-01T00:00:00.000Z"; child_end := Exit 0 |}
      [("current", JObj [("name", JStr "codex")])] Samples.checked_world = (Ok tt, w')
    ∧ files w' = <[ STATE_FILE "/home/u/.avm" := Doc (JObj next) ]>
                   (files Samples.checked_world)
    ∧ Json.assoc "self" next = Some (JObj [("latestVersion", JStr "0.3.0")]).
Proof.
  destruct writeState_shallow_merge as (Hmerge & _ & _).
  destruct (Hmerge "/home/u/.avm"
              {| now := "2026-01-01T00:00:00.000Z"; child_end := Exit 0 |}
              [("current", JObj [("name", JStr "codex")])] Samples.checked_world
              (JObj [("self", JObj [("latestVersion", JStr "0.3.0")])]))
    as (next & w' & Hrun & Hfiles & Hk).
  - vm_compute. reflexivity.
  - apply NoDup_singleton.
  - exists next, w'. split; [exact Hrun|]. split; [exact Hfiles|].
    rewrite Hk. reflexivity.
Defined.

End StateFacts.

(** ** install.js *)

Module InstallFacts.
Import Agents Install StoreSpec.

Lemma string_length_app (s r : string) :
  String.length (s +:+ r) = (String.length s + String.length r)%nat.
Proof. induction s as [|c s IH]; [done|]. rewrite JsFacts.app_cons. simpl. by rewrite IH. Qed.

Lemma join_neq a b : Path.join a b ≠ a.
Proof.
  unfold Path.join. intros H. apply (f_equal String.length) in H.
  rewrite !string_length_app in H. simpl in H. lia.
Qed.

Lemma join_join_neq a b c : Path.join (Path.join a b) c ≠ a.
Proof.
  unfold Path.join. intros H. apply (f_equal String.length) in H.
  rewrite !string_length_app in H. simpl in H. lia.
Qed.

Section facts.

Context (home : string).

Lemma install_path_not_base t : install_path home t ≠ State.AGENTS_DIR home.
Proof. apply join_join_neq. Qed.

Lemma meta_path_not_base t : meta_path home t ≠ State.AGENTS_DIR home.
Proof.
  unfold meta_path, install_path, installDir, agentDir, Path.join.
  intros H. apply (f_equal String.length) in H.
  rewrite !string_length_app in H. simpl in H. lia.
Qed.

Lemma elem_of_after_base q (D : gset string) :
  q ≠ State.AGENTS_DIR home → q ∈ {[ State.AGENTS_DIR home ]} ∪ D ↔ q ∈ D.
Proof. intros Hq. rewrite elem_of_union, elem_of_singleton. tauto. Qed.

(** The world after [ensureBaseDirs]. *)
Lemma exists_after_base q w tr :
  q ≠ State.AGENTS_DIR home →
  Fs.exists_ q {| dirs := {[ State.AGENTS_DIR home ]} ∪ dirs w; files := files w;
                  trace := tr |}
  = Fs.exists_ q w.
Proof.
  intros Hq. unfold Fs.exists_. cbn [dirs files]. f_equal.
  apply bool_decide_ext. by apply elem_of_after_base.
Qed.

Lemma readJson_after_base q fallback w tr :
  q ≠ State.AGENTS_DIR home →
  State.readJson q fallback
    {| dirs := {[ State.AGENTS_DIR home ]} ∪ dirs w; files := files w; trace := tr |}
  = (match files w !! q with
     | Some (Doc j) => Ok j
     | Some Unparseable => Err JsonSyntaxError
     | None =>
         if bool_decide (q ∈ dirs w) then Err (IoError "EISDIR")
         else if Fs.below_file q w then Err (IoError "ENOTDIR")
         else Ok fallback
     end,
     {| dirs := {[ State.AGENTS_DIR home ]} ∪ dirs w; files := files w; trace := tr |}).
Proof.
  intros Hq. rewrite StateFacts.readJson_cases. cbn [dirs files].
  destruct (files w !! q) as [[|j]|]; [done..|].
  rewrite (bool_decide_ext _ _ (elem_of_after_base q (dirs w) Hq)).
  case_bool_decide; [done|]. unfold Fs.below_file. cbn [files].
  by destruct (existsb _ _).
Qed.

Lemma fresh_record_eq t env :
  JObj (Json.assign (target_props t) [("installedAt", JStr (now env))])
  = fresh_record t env.
Proof. reflexivity. Qed.

Lemma merged_record_eq t j :
  JObj (Json.assign (Json.own_props j)
          [("name", JStr (name t)); ("package", JStr (package t));
           ("version", JStr (version t));
           ("args", Json.or_lit (Json.or (Some (JStr (args t))) (Json.get j "args"))
                                (JStr ""))])
  = merged_record t j.
Proof. unfold merged_record. by destruct (args t). Qed.

(** The four properties that a cache hit sets. *)
Lemma merged_record_get t j k :
  Json.get (merged_record t j) k
  = if String.eqb "args" k then
      Some (if Js.nonempty (args t) then JStr (args t)
            else Json.or_lit (Json.get j "args") (JStr ""))
    else if String.eqb "version" k then Some (JStr (version t))
    else if String.eqb "package" k then Some (JStr (package t))
    else if String.eqb "name" k then Some (JStr (name t))
    else Json.assoc k (Json.own_props j).
Proof.
  unfold merged_record. cbn [Json.get]. rewrite JsonFacts.assoc_assign.
  cbn [reverse rev_append Json.assoc].
  by repeat (destruct (String.eqb _ k); [done|]).
Qed.

(** The branch of [ensureInstalled] that installs, run after
    [ensureBaseDirs]. *)
Lemma install_branch env t registry w :
  (let* _ := (if Fs.exists_ (install_path home t) w then Fs.rm (install_path home t)
              else io_ret tt) in
   let* _ := emit (Log ("> Installing " +:+ (package t +:+ "@" +:+ version t)
                          +:+ " into " +:+ install_path home t)) in
   let* _ := npmInstall env (install_path home t) (package t +:+ "@" +:+ version t)
               registry in
   let* _ := State.writeJson (meta_path home t) (fresh_record t env) in
   io_ret (install_path home t, fresh_record t env))
    {| dirs := {[ State.AGENTS_DIR home ]} ∪ dirs w; files := files w;
       trace := trace w ++ [Mkdir (State.AGENTS_DIR home)] |}
  = after_install home t env registry w.
Proof.
  unfold after_install, install_events, npmInstall, runCommand, State.writeJson.
  fold (pkg_spec t). fold (npm_argv home t registry).
  unfold io_bind, emit, Fs.rm, Fs.mkdir, Fs.writeFile, io_ret, io_throw.
  destruct (Fs.exists_ (install_path home t) w), (child_end env) as [[|c|c]|];
    cbn [dirs files trace fst snd];
    repeat rewrite <- app_assoc; reflexivity.
Qed.

(** The branch of [ensureInstalled] that keeps the installation, run after
    [ensureBaseDirs], on a stored record of the target's package and
    version. *)
Lemma hit_branch t j w :
  matches t j →
  (let* _ :=
     (if negb (Json.strict_eq (Json.get (merged_record t j) "name") (Json.get j "name"))
         || negb (Json.strict_eq (Json.get (merged_record t j) "package")
                                 (Json.get j "package"))
         || negb (Json.strict_eq (Json.get (merged_record t j) "version")
                                 (Json.get j "version"))
         || negb (Json.strict_eq (Json.get (merged_record t j) "args")
                                 (Json.get j "args"))
      then State.writeJson (meta_path home t) (merged_record t j)
      else io_ret tt) in
   io_ret (install_path home t, merged_record t j))
    {| dirs := {[ State.AGENTS_DIR home ]} ∪ dirs w; files := files w;
       trace := trace w ++ [Mkdir (State.AGENTS_DIR home)] |}
  = after_hit home t j w.
Proof.
  intros [Hpkg Hver]. unfold after_hit, name_differs, args_differ.
  rewrite (merged_record_get t j "name"), (merged_record_get t j "package"),
    (merged_record_get t j "version").
  cbn [String.eqb Ascii.eqb Bool.eqb andb].
  rewrite Hpkg, Hver, !JsonFacts.strict_eq_refl. cbn [negb orb].
  assert (Json.strict_eq (Some (JStr (name t))) (Json.get j "name")
          = Json.strict_eq (Json.get j "name") (Some (JStr (name t)))) as ->.
  { destruct (Json.get j "name") as [[| | |s| |]|]; simpl; try done.
    apply String.eqb_sym. }
  rewrite !orb_false_r.
  destruct (negb (Json.strict_eq (Json.get j "name") (Some (JStr (name t))))
            || negb (Json.strict_eq (Json.get (merged_record t j) "args")
                                    (Json.get j "args"))).
  - unfold io_bind, State.writeJson, io_bind, Fs.mkdir, Fs.writeFile, io_ret.
    cbn [dirs files trace]. repeat rewrite <- app_assoc. reflexivity.
  - reflexivity.
Qed.

Lemma ensureInstalled_cases env t registry w :
  ensureInstalled home env t registry w
  = let base := {| dirs := {[ State.AGENTS_DIR home ]} ∪ dirs w; files := files w;
                   trace := trace w ++ [Mkdir (State.AGENTS_DIR home)] |} in
    if Fs.exists_ (install_path home t) w then
      match files w !! meta_path home t with
      | Some Unparseable => (Err JsonSyntaxError, base)
      | Some (Doc j) =>
          if Json.truthy j
             && Json.strict_eq (Json.get j "package") (Some (JStr (package t)))
             && Json.strict_eq (Json.get j "version") (Some (JStr (version t)))
          then after_hit home t j w
          else after_install home t env registry w
      | None =>
          if bool_decide (meta_path home t ∈ dirs w)
          then (Err (IoError "EISDIR"), base)
          else if Fs.below_file (meta_path home t) w
          then (Err (IoError "ENOTDIR"), base)
          else after_install home t env registry w
      end
    else after_install home t env registry w.
Proof.
  unfold ensureInstalled, ensureBaseDirs.
  fold (install_path home t). fold (meta_path home t).
  rewrite fresh_record_eq.
  unfold io_bind at 1. unfold Fs.mkdir at 1.
  unfold io_bind at 1. unfold State.pathExists at 1.
  rewrite exists_after_base by apply install_path_not_base.
  pose proof (install_branch env t registry w) as Hinstall.
  destruct (Fs.exists_ (install_path home t) w) eqn:Hdir.
  - unfold io_bind at 1. unfold io_bind at 1.
    rewrite readJson_after_base by apply meta_path_not_base.
    destruct (files w !! meta_path home t) as [[|j]|] eqn:Hfile.
    + done.
    + unfold io_ret at 1. destruct (Json.truthy j) eqn:Htruthy.
      * rewrite Htruthy. cbn [negb orb andb].
        destruct (Json.strict_eq (Json.get j "package") _) eqn:Hpkg;
          [|exact Hinstall].
        destruct (Json.strict_eq (Json.get j "version") _) eqn:Hver;
          [|exact Hinstall].
        cbn [negb orb andb].
        repeat match goal with
               | |- context [Json.assoc ?k (Json.assign ?a ?b)] =>
                   change (Json.assoc k (Json.assign a b))
                     with (Json.get (JObj (Json.assign a b)) k)
               end.
        rewrite merged_record_eq.
        apply hit_branch. split; by apply JsonFacts.strict_eq_str.
      * exact Hinstall.
    + case_bool_decide; [done|].
      destruct (Fs.below_file (meta_path home t) w); [done|]. exact Hinstall.
  - unfold io_bind at 1. unfold io_ret at 1. exact Hinstall.
Qed.

Lemma matches_bool t j :
  Json.strict_eq (Json.get j "package") (Some (JStr (package t)))
  && Json.strict_eq (Json.get j "version") (Some (JStr (version t))) = true
  ↔ matches t j.
Proof.
  unfold matches. rewrite andb_true_iff, !JsonFacts.strict_eq_str. done.
Qed.

Lemma unreadable_dec t w : unreadable home t w ∨ ¬ unreadable home t w.
Proof.
  unfold unreadable. destruct (Fs.exists_ _ w); [|right; by intros [? _]].
  destruct (files w !! meta_path home t) as [[|j]|].
  - left. by split; [|left].
  - right. intros [_ [?|[? _]]]; done.
  - destruct (decide (meta_path home t ∈ dirs w)).
    { left. split; [done|]. right. split; [done|by left]. }
    destruct (Fs.below_file (meta_path home t) w) eqn:Hway.
    + left. split; [done|]. right. split; [done|by right].
    + right. intros [_ [?|[_ [?|?]]]]; done.
Qed.

(** A run on a slot without a record of the target's package and version
    is a run that installs. *)
Lemma ensure_miss env t registry w :
  ¬ unreadable home t w → cache_miss home t w →
  ensureInstalled home env t registry w = after_install home t env registry w.
Proof.
  intros Hread Hmiss. rewrite ensureInstalled_cases. cbv zeta.
  unfold unreadable, cache_miss, stored_record in *.
  destruct (Fs.exists_ (install_path home t) w); [|done].
  destruct (files w !! meta_path home t) as [[|j]|].
  - destruct Hread. by split; [|left].
  - destruct (Json.truthy j); [|done]. cbn [andb].
    destruct (_ && _) eqn:Hm; [|done].
    apply matches_bool in Hm as [Hp Hv]. by destruct Hmiss.
  - case_bool_decide; [destruct Hread; split; [done|]; right; split; [done|by left]|].
    destruct (Fs.below_file (meta_path home t) w) eqn:Hway; [|done].
    destruct Hread. split; [done|]. right. split; [done|by right].
Qed.

(** A run on a slot that holds a record of the target's package and
    version keeps the installation. *)
Lemma ensure_hit env t registry w j :
  stored_record home t w = Some j → matches t j →
  ensureInstalled home env t registry w = after_hit home t j w.
Proof.
  intros Hrec Hm. rewrite ensureInstalled_cases. cbv zeta.
  unfold stored_record in Hrec.
  destruct (Fs.exists_ (install_path home t) w); [|done].
  destruct (files w !! meta_path home t) as [[|j']|]; [done| |done].
  destruct (Json.truthy j') eqn:Ht; [|done]. injection Hrec as ->.
  cbn [andb]. apply matches_bool in Hm. by rewrite Hm.
Qed.

Lemma ensure_unreadable env t registry w :
  unreadable home t w →
  ∃ e, ensureInstalled home env t registry w
       = (Err e, {| dirs := {[ State.AGENTS_DIR home ]} ∪ dirs w; files := files w;
                    trace := trace w ++ [Mkdir (State.AGENTS_DIR home)] |}).
Proof.
  intros [Hdir Hbad]. rewrite ensureInstalled_cases, Hdir. cbv zeta.
  destruct Hbad as [->|[-> Hd]]; [by eauto|].
  case_bool_decide; [by eauto|]. destruct Hd as [Hd|Hd]; [done|].
  rewrite Hd. by eauto.
Qed.

Lemma hit_or_miss t w : cache_hit home t w ∨ cache_miss home t w.
Proof.
  unfold cache_hit, cache_miss, matches.
  destruct (stored_record home t w) as [j|]; [|by right].
  destruct (Json.strict_eq (Json.get j "package") (Some (JStr (package t)))) eqn:Hp.
  2:{ right. left. intros H. apply JsonFacts.strict_eq_str in H. congruence. }
  destruct (Json.strict_eq (Json.get j "version") (Some (JStr (version t)))) eqn:Hv.
  2:{ right. right. intros H. apply JsonFacts.strict_eq_str in H. congruence. }
  left. exists j. split; [done|]. split; by apply JsonFacts.strict_eq_str.
Qed.

Lemma hit_not_miss t w : cache_hit home t w → ¬ cache_miss home t w.
Proof.
  unfold cache_hit, cache_miss, matches. intros (j & -> & Hp & Hv) [H|H]; congruence.
Qed.

Lemma installs_app evs evs' : installs (evs ++ evs') = (installs evs + installs evs')%nat.
Proof. unfold installs. by rewrite List.filter_app, List.length_app. Qed.

Lemma installs_install_events t env registry had_dir :
  installs (install_events home t env registry had_dir) = 1%nat.
Proof.
  unfold install_events. destruct had_dir, (child_end env) as [[|c|c]|]; reflexivity.
Qed.

Lemma after_install_trace t env registry w :
  trace (snd (after_install home t env registry w))
  = trace w ++ install_events home t env registry (Fs.exists_ (install_path home t) w).
Proof. unfold after_install. by destruct (child_end env) as [[|c|c]|]. Qed.

Lemma or_lit_idem v :
  Json.or_lit (Some (Json.or_lit v (JStr ""))) (JStr "") = Json.or_lit v (JStr "").
Proof.
  destruct v as [j|]; [|done]. simpl. destruct (Json.truthy j) eqn:E; [|done].
  by rewrite E.
Qed.

Lemma fresh_settled t env : settled t (fresh_record t env).
Proof.
  split; [by split|]. split.
  - unfold name_differs. cbn. by rewrite String.eqb_refl.
  - unfold args_differ. rewrite merged_record_get. cbn.
    destruct (args t) as [|c a]; cbn; [done|].
    by rewrite Ascii.eqb_refl, String.eqb_refl.
Qed.

Lemma merged_matches t j : matches t (merged_record t j).
Proof. split; by rewrite merged_record_get. Qed.

Lemma merged_settled t j : settled t (merged_record t j).
Proof.
  split; [apply merged_matches|]. split.
  - unfold name_differs. rewrite merged_record_get. cbn. by rewrite String.eqb_refl.
  - unfold args_differ. rewrite !merged_record_get. cbn [String.eqb Ascii.eqb Bool.eqb].
    destruct (Js.nonempty (args t)).
    + by rewrite JsonFacts.strict_eq_refl.
    + by rewrite or_lit_idem, JsonFacts.strict_eq_refl.
Qed.

Lemma fresh_string_args t env : string_args (fresh_record t env).
Proof. by exists (args t). Qed.

Lemma merged_string_args t j : string_args j → string_args (merged_record t j).
Proof.
  intros [a Ha]. unfold string_args. rewrite merged_record_get, Ha. cbn.
  destruct (Js.nonempty (args t)); [by eauto|].
  destruct a; cbn; by eauto.
Qed.

Lemma stored_exists t w j :
  stored_record home t w = Some j →
  Fs.exists_ (install_path home t) w = true
  ∧ files w !! meta_path home t = Some (Doc j) ∧ Json.truthy j = true.
Proof.
  unfold stored_record. destruct (Fs.exists_ _ w); [|done].
  destruct (files w !! meta_path home t) as [[|j']|]; [done| |done].
  destruct (Json.truthy j') eqn:E; [|done]. by intros [= ->].
Qed.

Lemma stored_intro t w j :
  Fs.exists_ (install_path home t) w = true →
  files w !! meta_path home t = Some (Doc j) → Json.truthy j = true →
  stored_record home t w = Some j.
Proof. intros He Hf Ht. unfold stored_record. by rewrite He, Hf, Ht. Qed.

Lemma exists_dir q w : q ∈ dirs w → Fs.exists_ q w = true.
Proof. intros H. unfold Fs.exists_. by rewrite bool_decide_eq_true_2. Qed.

Lemma exists_mono q w w' :
  Fs.exists_ q w = true → dirs w ⊆ dirs w' →
  (∀ c, files w !! q = Some c → is_Some (files w' !! q)) →
  Fs.exists_ q w' = true.
Proof.
  unfold Fs.exists_. intros H Hd Hf.
  apply orb_true_iff in H as [H|H]; apply bool_decide_eq_true_1 in H.
  - rewrite (bool_decide_eq_true_2 (q ∈ dirs w')); [done|]. by apply Hd.
  - destruct H as [c Hc]. rewrite (bool_decide_eq_true_2 (is_Some _)) by eauto.
    apply orb_true_r.
Qed.

(** After an installation that succeeded, the slot holds the fresh
    record. *)
Lemma after_install_ok t env registry w :
  child_end env = Exit 0 →
  fst (after_install home t env registry w) = Ok (install_path home t, fresh_record t env)
  ∧ stored_record home t (snd (after_install home t env registry w))
    = Some (fresh_record t env)
  ∧ files (snd (after_install home t env registry w))
    = <[ meta_path home t := Doc (fresh_record t env) ]>
        (if Fs.exists_ (install_path home t) w
         then filter (λ kv, ¬ Is_true (Path.under (install_path home t) kv.1)) (files w)
         else files w).
Proof.
  intros Hok. unfold after_install. rewrite Hok. cbn [fst snd files].
  split; [done|]. split; [|done].
  apply stored_intro; [|by cbn [files]; rewrite lookup_insert_eq|done].
  apply exists_dir. cbn [dirs]. rewrite !elem_of_union, !elem_of_singleton. tauto.
Qed.

Lemma exists_after_hit_write t j w x :
  Fs.exists_ (install_path home t) w = true →
  Fs.exists_ (install_path home t)
    {| dirs := {[ Path.dirname (meta_path home t) ]}
               ∪ ({[ State.AGENTS_DIR home ]} ∪ dirs w);
       files := <[ meta_path home t := Doc j ]> (files w);
       trace := x |} = true.
Proof.
  intros He. eapply exists_mono; [exact He| |]; cbn [dirs files].
  - apply elem_of_subseteq. intros q Hq. rewrite !elem_of_union. tauto.
  - intros c Hc. rewrite lookup_insert. case_decide; eauto.
Qed.

Lemma exists_after_hit_keep t w x :
  Fs.exists_ (install_path home t) w = true →
  Fs.exists_ (install_path home t)
    {| dirs := {[ State.AGENTS_DIR home ]} ∪ dirs w; files := files w; trace := x |}
  = true.
Proof.
  intros He. eapply exists_mono; [exact He| |]; cbn [dirs files].
  - apply elem_of_subseteq. intros q Hq. rewrite !elem_of_union. tauto.
  - by eauto.
Qed.

(** After a cache hit, the slot holds a settled record. *)
Lemma after_hit_stored t j w :
  stored_record home t w = Some j → matches t j →
  fst (after_hit home t j w) = Ok (install_path home t, merged_record t j)
  ∧ ∃ j', stored_record home t (snd (after_hit home t j w)) = Some j' ∧ settled t j'.
Proof.
  intros Hrec Hm. destruct (stored_exists _ _ _ Hrec) as (He & Hf & Ht).
  unfold after_hit.
  destruct (name_differs t j || args_differ t j) eqn:Hw; cbn [fst snd].
  - split; [done|]. exists (merged_record t j). split; [|apply merged_settled].
    apply stored_intro; [by apply exists_after_hit_write| |done].
    cbn [files]. by rewrite lookup_insert_eq.
  - split; [done|]. exists j. apply orb_false_iff in Hw as [Hn Ha].
    split; [|done]. apply stored_intro; [by apply exists_after_hit_keep|done..].
Qed.

(** Whenever [ensureInstalled] returns, it returns the install path of the
    target and leaves a settled record in the slot. *)
Lemma ensure_ok_settled env t registry w x :
  fst (ensureInstalled home env t registry w) = Ok x →
  fst x = install_path home t
  ∧ ∃ j, stored_record home t (snd (ensureInstalled home env t registry w)) = Some j
         ∧ settled t j.
Proof.
  destruct (hit_or_miss t w) as [(j & Hrec & Hm)|Hmiss].
  - rewrite (ensure_hit env t registry w j Hrec Hm).
    destruct (after_hit_stored t j w Hrec Hm) as (-> & Hs). by intros [= <-].
  - assert (unreadable home t w ∨ ¬ unreadable home t w) as [Hbad|Hread].
    { apply unreadable_dec. }
    + destruct (ensure_unreadable env t registry w Hbad) as [e ->]. done.
    + rewrite (ensure_miss env t registry w Hread Hmiss).
      destruct (child_end env) as [[|c|c]|] eqn:Hc.
      * destruct (after_install_ok t env registry w Hc) as (-> & Hs & _).
        intros [= <-]. split; [done|]. eexists. split; [exact Hs|apply fresh_settled].
      * unfold after_install. by rewrite Hc.
      * unfold after_install. by rewrite Hc.
      * unfold after_install. by rewrite Hc.
Qed.

(** On a settled record, a run only makes sure that the base directory
    exists. *)
Lemma ensure_settled env t registry w j :
  stored_record home t w = Some j → settled t j →
  ensureInstalled home env t registry w
  = (Ok (install_path home t, merged_record t j),
     {| dirs := {[ State.AGENTS_DIR home ]} ∪ dirs w; files := files w;
        trace := trace w ++ [Mkdir (State.AGENTS_DIR home)] |}).
Proof.
  intros Hrec (Hm & Hn & Ha). rewrite (ensure_hit env t registry w j Hrec Hm).
  unfold after_hit. by rewrite Hn, Ha.
Qed.

Lemma after_hit_events t j w :
  ∃ evs, trace (snd (after_hit home t j w)) = trace w ++ evs
         ∧ installs evs = 0%nat ∧ existsb is_rm evs = false
         ∧ existsb is_write evs = name_differs t j || args_differ t j.
Proof.
  unfold after_hit. destruct (name_differs t j || args_differ t j); cbn [snd trace];
    eexists; (split; [reflexivity|by repeat split]).
Qed.

(** The events of a run, and how many of them invoke the installer. *)
Lemma ensure_events env t registry w :
  ∃ evs, trace (snd (ensureInstalled home env t registry w)) = trace w ++ evs
         ∧ (cache_hit home t w → installs evs = 0%nat)
         ∧ (¬ unreadable home t w → cache_miss home t w → installs evs = 1%nat)
         ∧ (installs evs ≤ 1)%nat.
Proof.
  destruct (hit_or_miss t w) as [Hhit|Hmiss].
  - pose proof Hhit as (j & Hrec & Hm).
    rewrite (ensure_hit env t registry w j Hrec Hm).
    destruct (after_hit_events t j w) as (evs & Htr & Hi & _).
    exists evs. split; [done|]. split; [done|]. split; [|lia].
    intros _ Hmiss. by destruct (hit_not_miss t w Hhit).
  - assert (unreadable home t w ∨ ¬ unreadable home t w) as [Hbad|Hread].
    { apply unreadable_dec. }
    + destruct (ensure_unreadable env t registry w Hbad) as [e ->].
      exists [Mkdir (State.AGENTS_DIR home)]. cbn [snd trace].
      split; [done|]. split; [|split; [done|cbn; lia]].
      intros Hhit. by destruct (hit_not_miss t w Hhit).
    + rewrite (ensure_miss env t registry w Hread Hmiss), after_install_trace.
      eexists. split; [reflexivity|]. rewrite installs_install_events.
      split; [|split; [done|lia]].
      intros Hhit. by destruct (hit_not_miss t w Hhit).
Qed.

(** C3. [ensureInstalled] is idempotent: when a call returns, a second call
    with the same target returns the same install path, takes the cache-hit
    path, writes nothing, and the two calls together invoke the installer
    at most once. *)
Theorem ensureInstalled_idempotent env1 env2 t registry1 registry2 w x :
  fst (ensureInstalled home env1 t registry1 w) = Ok x →
  ∃ m evs,
    fst x = install_path home t
    ∧ fst (ensureInstalled home env2 t registry2
             (snd (ensureInstalled home env1 t registry1 w))) = Ok (fst x, m)
    ∧ cache_hit home t (snd (ensureInstalled home env1 t registry1 w))
    ∧ trace (snd (ensureInstalled home env1 t registry1 w)) = trace w ++ evs
    ∧ trace (snd (ensureInstalled home env2 t registry2
                    (snd (ensureInstalled home env1 t registry1 w))))
      = trace w ++ evs ++ [Mkdir (State.AGENTS_DIR home)]
    ∧ files (snd (ensureInstalled home env2 t registry2
                    (snd (ensureInstalled home env1 t registry1 w))))
      = files (snd (ensureInstalled home env1 t registry1 w))
    ∧ (installs (evs ++ [Mkdir (State.AGENTS_DIR home)]) ≤ 1)%nat.
Proof.
  intros Hok.
  destruct (ensure_ok_settled env1 t registry1 w x Hok) as (Hpath & j & Hrec & Hs).
  destruct (ensure_events env1 t registry1 w) as (evs & Htr & _ & _ & Hle).
  rewrite (ensure_settled env2 t registry2 _ j Hrec Hs). cbn [fst snd trace files].
  exists (merged_record t j), evs. rewrite Hpath, Htr, <- app_assoc.
  repeat split; try done.
  - exists j. split; [done|]. by destruct Hs.
  - rewrite installs_app. cbn. lia.
Qed.

(** When the args kept on a hit differ from the stored ones. *)
Lemma args_differ_cases t j :
  args_differ t j = args_updated t j || args_missing j.
Proof.
  unfold args_differ, args_updated, args_missing. rewrite merged_record_get.
  cbn [String.eqb Ascii.eqb Bool.eqb].
  destruct (args t) as [|c a] eqn:Ht; cbn [Js.nonempty andb orb].
  - destruct (Json.get j "args") as [v|]; cbn [Json.or_lit Json.truthy_opt]; [|done].
    destruct (Json.truthy v) eqn:Hv; cbn [negb andb].
    + by rewrite JsonFacts.strict_eq_refl.
    + destruct v as [| | |s'| |]; try done. by destruct s'.
  - destruct (Json.get j "args") as [[|b|n|s'|xs|ps]|]; cbn; try done.
    rewrite (String.eqb_sym s' (String c a)).
    destruct s'; cbn; [done|]. by rewrite orb_false_r.
Qed.

(** C5, as the code has it. On a cache hit [ensureInstalled] returns the
    merged record without invoking the installer and without removing
    anything. The merged record has the target's name, package and version,
    the target's args when they are not empty, otherwise the stored args,
    or the empty string when the stored record has none, and the other
    properties of the stored record. It is written over the stored record
    when the target's args are not empty and differ from the stored ones,
    or the stored name is not the target's, or the stored record has no
    args; otherwise no file changes. *)
Theorem ensureInstalled_cache_hit env t registry w j :
  stored_record home t w = Some j → matches t j →
  let changed := args_updated t j || name_differs t j || args_missing j in
  fst (ensureInstalled home env t registry w)
  = Ok (install_path home t, merged_record t j)
  ∧ (∃ evs,
       trace (snd (ensureInstalled home env t registry w)) = trace w ++ evs
       ∧ installs evs = 0%nat ∧ existsb is_rm evs = false
       ∧ existsb is_write evs = changed)
  ∧ dirs w ⊆ dirs (snd (ensureInstalled home env t registry w))
  ∧ Json.get (merged_record t j) "name" = Some (JStr (name t))
  ∧ matches t (merged_record t j)
  ∧ (∀ k, k ≠ "name" → k ≠ "package" → k ≠ "version" → k ≠ "args" →
          Json.get (merged_record t j) k = Json.get j k)
  ∧ Json.get (merged_record t j) "args"
    = (if Js.nonempty (args t) then Some (JStr (args t))
       else if args_missing j then Some (JStr "")
       else Json.get j "args")
  ∧ files (snd (ensureInstalled home env t registry w))
    = (if changed then <[ meta_path home t := Doc (merged_record t j) ]> (files w)
       else files w)
  ∧ (string_args j → args_missing j = false ∧ string_args (merged_record t j)).
Proof.
  intros Hrec Hm changed.
  rewrite (ensure_hit env t registry w j Hrec Hm).
  assert (name_differs t j || args_differ t j = changed) as Hch.
  { unfold changed. rewrite args_differ_cases.
    destruct (args_updated t j), (name_differs t j), (args_missing j); done. }
  split.
  { unfold after_hit. by destruct (name_differs t j || args_differ t j). }
  split.
  { destruct (after_hit_events t j w) as (evs & Htr & Hi & Hr & Hw).
    exists evs. by rewrite <- Hch. }
  split.
  { unfold after_hit. destruct (name_differs t j || args_differ t j);
      cbn [snd dirs]; apply elem_of_subseteq; intros q Hq;
      rewrite !elem_of_union; tauto. }
  split; [by rewrite merged_record_get|].
  split; [apply merged_matches|].
  split.
  { intros k Hn Hp Hv Hg. rewrite merged_record_get.
    destruct (String.eqb_spec "args" k); [congruence|].
    destruct (String.eqb_spec "version" k); [congruence|].
    destruct (String.eqb_spec "package" k); [congruence|].
    destruct (String.eqb_spec "name" k); [congruence|].
    destruct Hm as [Hpkg _]. destruct j; simpl in Hpkg; done. }
  split.
  { rewrite merged_record_get. cbn [String.eqb Ascii.eqb Bool.eqb].
    destruct (Js.nonempty (args t)); [done|]. unfold args_missing.
    destruct (Json.get j "args") as [v|]; cbn [Json.or_lit Json.truthy_opt]; [|done].
    destruct (Json.truthy v) eqn:Hv; cbn [negb andb]; [done|].
    destruct v as [| | |s'| |]; try done. by destruct s'. }
  split.
  { rewrite <- Hch. unfold after_hit.
    by destruct (name_differs t j || args_differ t j). }
  intros Hstr. split; [|by apply merged_string_args].
  destruct Hstr as [a Ha]. unfold args_missing. rewrite Ha. by destruct a.
Qed.

Lemma readable_of_stored t w j : stored_record home t w = Some j → ¬ unreadable home t w.
Proof.
  intros Hrec. destruct (stored_exists _ _ _ Hrec) as (_ & Hf & _).
  intros [_ [H|[H _]]]; congruence.
Qed.

Lemma removed_below t env registry w q :
  child_end env = Exit 0 → Fs.exists_ (install_path home t) w = true →
  Path.under (install_path home t) q = true → q ≠ meta_path home t →
  files (snd (after_install home t env registry w)) !! q = None.
Proof.
  intros Hok Hdir Hq Hne.
  destruct (after_install_ok t env registry w Hok) as (_ & _ & ->).
  rewrite Hdir, lookup_insert_ne by done.
  apply map_lookup_filter_None. right. intros c _. cbn [fst]. rewrite Hq. by intros [].
Qed.

(** C1, as the code has it. On a slot whose metadata can be read,
    [ensureInstalled] invokes the installer exactly when the slot holds no
    record, or a record of another package, or of another version. Such a
    run removes a directory found at the install path, then invokes the
    installer on [package@version], then, when the installer succeeded,
    writes the fresh record: nothing that stood below the install path is
    left, and the slot holds the fresh record. When the metadata of the
    slot cannot be read (it does not parse, its path is a directory, or a
    regular file stands at the install path) the call fails, installs
    nothing and touches no file, although the slot holds no record. In the
    cache-drift scenario, after codex 0.1.0 has been installed from
    [@openai/codex], a call for the fork at the same version finds a record
    of another package, removes the directory, installs the fork and
    records it, and a third call for the fork is a cache hit that neither
    installs nor writes. The name and the version of the target are plain
    path segments, and no regular file stands where the way to the slot
    needs a directory. *)
Theorem ensureInstalled_reinstalls_on_miss :
  (∀ env t registry w,
     Discovery.plain_target t → Fs.below_file (install_path home t) w = false →
     ¬ unreadable home t w →
     ∃ evs,
       trace (snd (ensureInstalled home env t registry w)) = trace w ++ evs
       ∧ (cache_miss home t w ↔ installs evs = 1%nat)
       ∧ (cache_hit home t w ↔ installs evs = 0%nat))
  ∧ (∀ env t registry w,
       Discovery.plain_target t → Fs.below_file (install_path home t) w = false →
       ¬ unreadable home t w → cache_miss home t w →
       trace (snd (ensureInstalled home env t registry w))
       = trace w ++ install_events home t env registry
                      (Fs.exists_ (install_path home t) w)
       ∧ (child_end env = Exit 0 →
          fst (ensureInstalled home env t registry w)
          = Ok (install_path home t, fresh_record t env)
          ∧ stored_record home t (snd (ensureInstalled home env t registry w))
            = Some (fresh_record t env)
          ∧ (Fs.exists_ (install_path home t) w = true →
             ∀ q, Path.under (install_path home t) q = true → q ≠ meta_path home t →
                  files (snd (ensureInstalled home env t registry w)) !! q = None)))
  ∧ (∀ env t registry,
       child_end env = Exit 0 →
       install_events home t env registry true
       = [Mkdir (State.AGENTS_DIR home);
          Rm (install_path home t);
          Log ("> Installing " +:+ pkg_spec t +:+ " into " +:+ install_path home t);
          Mkdir (install_path home t);
          Spawn "npm" (npm_argv home t registry);
          Mkdir (Path.dirname (meta_path home t));
          WriteFile (meta_path home t) (fresh_record t env)]
       ∧ In (package t +:+ "@" +:+ version t) (npm_argv home t registry))
  ∧ (∀ env t registry w,
       Discovery.plain_target t → unreadable home t w →
       stored_record home t w = None
       ∧ ∃ e, fst (ensureInstalled home env t registry w) = Err e
              ∧ files (snd (ensureInstalled home env t registry w)) = files w
              ∧ trace (snd (ensureInstalled home env t registry w))
                = trace w ++ [Mkdir (State.AGENTS_DIR home)])
  ∧ (∀ env1 env2 env3 registry1 registry2 registry3 a1 a2 w x,
       Fs.below_file (install_path home (Samples.codex_target a1)) w = false →
       fst (ensureInstalled home env1 (Samples.codex_target a1) registry1 w) = Ok x →
       child_end env2 = Exit 0 →
       let w1 := snd (ensureInstalled home env1 (Samples.codex_target a1) registry1 w) in
       let w2 := snd (ensureInstalled home env2 (Samples.fork_target a2) registry2 w1) in
       cache_miss home (Samples.fork_target a2) w1
       ∧ trace w2
         = trace w1 ++ install_events home (Samples.fork_target a2) env2 registry2 true
       ∧ fst (ensureInstalled home env2 (Samples.fork_target a2) registry2 w1)
         = Ok (install_path home (Samples.fork_target a2),
               fresh_record (Samples.fork_target a2) env2)
       ∧ cache_hit home (Samples.fork_target a2) w2
       ∧ fst (ensureInstalled home env3 (Samples.fork_target a2) registry3 w2)
         = Ok (install_path home (Samples.fork_target a2),
               merged_record (Samples.fork_target a2)
                 (fresh_record (Samples.fork_target a2) env2))
       ∧ trace (snd (ensureInstalled home env3 (Samples.fork_target a2) registry3 w2))
         = trace w2 ++ [Mkdir (State.AGENTS_DIR home)]
       ∧ files (snd (ensureInstalled home env3 (Samples.fork_target a2) registry3 w2))
         = files w2).
Proof.
  split.
  { intros env t registry w _ _ Hread.
    destruct (ensure_events env t registry w) as (evs & Htr & Hhit & Hmiss & _).
    exists evs. split; [done|]. split; split.
    - by apply Hmiss.
    - intros H1. destruct (hit_or_miss t w) as [Hh|Hm]; [|done].
      rewrite (Hhit Hh) in H1. done.
    - exact Hhit.
    - intros H0. destruct (hit_or_miss t w) as [Hh|Hm]; [done|].
      rewrite (Hmiss Hread Hm) in H0. done. }
  split.
  { intros env t registry w _ _ Hread Hmiss.
    rewrite (ensure_miss env t registry w Hread Hmiss).
    split; [apply after_install_trace|]. intros Hok.
    destruct (after_install_ok t env registry w Hok) as (Hres & Hrec & _).
    split; [done|]. split; [done|].
    intros Hdir q Hq Hne. by apply removed_below. }
  split.
  { intros env t registry Hok. unfold install_events. rewrite Hok.
    split; [reflexivity|]. unfold npm_argv, pkg_spec. apply in_or_app. left.
    simpl. tauto. }
  split.
  { intros env t registry w _ Hbad. split.
    - destruct (stored_record home t w) as [j|] eqn:Hrec; [|done].
      by destruct (readable_of_stored _ _ _ Hrec).
    - destruct (ensure_unreadable env t registry w Hbad) as [e ->]. by exists e. }
  intros env1 env2 env3 registry1 registry2 registry3 a1 a2 w x _ Hok1 Hok2 w1 w2.
  destruct (ensure_ok_settled env1 _ registry1 w x Hok1) as (_ & j & Hrec & Hs).
  fold w1 in Hrec.
  change (stored_record home (Samples.codex_target a1) w1)
    with (stored_record home (Samples.fork_target a2) w1) in Hrec.
  assert (cache_miss home (Samples.fork_target a2) w1) as Hmiss.
  { unfold cache_miss. rewrite Hrec. left. destruct Hs as ((Hp & _) & _).
    rewrite Hp. done. }
  pose proof (readable_of_stored _ _ _ Hrec) as Hread.
  destruct (stored_exists _ _ _ Hrec) as (Hdir & _ & _).
  pose proof (ensure_miss env2 _ registry2 w1 Hread Hmiss) as Hrun2.
  destruct (after_install_ok (Samples.fork_target a2) env2 registry2 w1 Hok2)
    as (Hres2 & Hrec2 & _).
  assert (trace w2 = trace w1 ++ install_events home (Samples.fork_target a2) env2
                                  registry2 true) as Htr2.
  { unfold w2. by rewrite Hrun2, after_install_trace, Hdir. }
  assert (stored_record home (Samples.fork_target a2) w2
          = Some (fresh_record (Samples.fork_target a2) env2)) as Hrec2'.
  { unfold w2. by rewrite Hrun2. }
  split; [done|]. split; [done|].
  split; [by rewrite Hrun2|].
  split.
  { eexists. split; [exact Hrec2'|]. by destruct (fresh_settled (Samples.fork_target a2) env2). }
  rewrite (ensure_settled env3 _ registry3 w2 _ Hrec2' (fresh_settled _ _)).
  done.
Qed.

End facts.

(** The cache-drift scenario run from an empty store: the third call is a
    hit on the fork's record. *)
Lemma ensureInstalled_reinstalls_on_miss_witness :
  fst (ensureInstalled "/home/u/.avm" Samples.good_day (Samples.fork_target "") None
         (snd (ensureInstalled "/home/u/.avm" Samples.good_day (Samples.fork_target "")
                 None
                 (snd (ensureInstalled "/home/u/.avm" Samples.good_day
                         (Samples.codex_target "") None Samples.empty_world)))))
  = Ok (install_path "/home/u/.avm" (Samples.fork_target ""),
        merged_record (Samples.fork_target "")
          (fresh_record (Samples.fork_target "") Samples.good_day)).
Proof.
  destruct (ensureInstalled_reinstalls_on_miss "/home/u/.avm")
    as (_ & _ & _ & _ & Hdrift).
  destruct (Hdrift Samples.good_day Samples.good_day Samples.good_day None None None
              "" "" Samples.empty_world
              ("/home/u/.avm/agents/codex/0.1.0",
               fresh_record (Samples.codex_target "") Samples.good_day))
    as (_ & _ & _ & _ & Hthird & _).
  - vm_compute. reflexivity.
  - vm_compute. reflexivity.
  - reflexivity.
  - exact Hthird.
Defined.

(** C1 as stated fails: the slot of codex 0.1.0 exists and holds no record,
    since its metadata file does not parse, and yet the call does not treat
    it as a miss: it fails with the parse error, invokes no installer,
    removes nothing and leaves the file as it is. The same happens when a
    regular file stands at the install path. *)
Lemma unreadable_slot_is_no_miss :
  stored_record "/home/u/.avm" (Samples.codex_target "") Samples.garbled_world = None
  ∧ cache_miss "/home/u/.avm" (Samples.codex_target "") Samples.garbled_world
  ∧ fst (ensureInstalled "/home/u/.avm" Samples.good_day (Samples.codex_target "") None
           Samples.garbled_world) = Err JsonSyntaxError
  ∧ trace (snd (ensureInstalled "/home/u/.avm" Samples.good_day (Samples.codex_target "")
                  None Samples.garbled_world))
    = [Mkdir "/home/u/.avm/agents"]
  ∧ files (snd (ensureInstalled "/home/u/.avm" Samples.good_day (Samples.codex_target "")
                  None Samples.garbled_world))
    = files Samples.garbled_world
  ∧ stored_record "/home/u/.avm" (Samples.codex_target "") Samples.blocked_world = None
  ∧ fst (ensureInstalled "/home/u/.avm" Samples.good_day (Samples.codex_target "") None
           Samples.blocked_world) = Err (IoError "ENOTDIR")
  ∧ trace (snd (ensureInstalled "/home/u/.avm" Samples.good_day (Samples.codex_target "")
                  None Samples.blocked_world))
    = [Mkdir "/home/u/.avm/agents"].
Proof. repeat split; vm_compute; reflexivity. Qed.

(** Two calls for codex 0.1.0 from an empty store. *)
Lemma ensureInstalled_idempotent_witness :
  ∃ m,
    fst (ensureInstalled "/home/u/.avm" Samples.good_day (Samples.codex_target "") None
           (snd (ensureInstalled "/home/u/.avm" Samples.good_day
                   (Samples.codex_target "") None Samples.empty_world)))
    = Ok ("/home/u/.avm/agents/codex/0.1.0", m).
Proof.
  destruct (ensureInstalled_idempotent "/home/u/.avm" Samples.good_day Samples.good_day
              (Samples.codex_target "") None None Samples.empty_world
              ("/home/u/.avm/agents/codex/0.1.0",
               fresh_record (Samples.codex_target "") Samples.good_day))
    as (m & evs & _ & Hsecond & _).
  - vm_compute. reflexivity.
  - exists m. exact Hsecond.
Defined.

(** A call that brings new default args to an installed codex 0.1.0. *)
Lemma ensureInstalled_cache_hit_witness :
  files (snd (ensureInstalled "/home/u/.avm" Samples.good_day
                (Samples.codex_target "--full-auto") None Samples.installed_world))
  = <[ meta_path "/home/u/.avm" (Samples.codex_target "--full-auto") :=
         Doc (JObj [("name", JStr "codex"); ("package", JStr "@openai/codex");
                    ("version", JStr "0.1.0"); ("args", JStr "--full-auto");
                    ("installedAt", JStr "2025-12-01T00:00:00.000Z")]) ]>
      (files Samples.installed_world).
Proof.
  destruct (ensureInstalled_cache_hit "/home/u/.avm" Samples.good_day
              (Samples.codex_target "--full-auto") None Samples.installed_world
              (JObj [("name", JStr "codex"); ("package", JStr "@openai/codex");
                     ("version", JStr "0.1.0"); ("args", JStr "");
                     ("installedAt", JStr "2025-12-01T00:00:00.000Z")]))
    as (_ & _ & _ & _ & _ & _ & _ & Hfiles & _).
  - vm_compute. reflexivity.
  - split; reflexivity.
  - exact Hfiles.
Defined.

(** C5 as stated fails: the stored record matches the target's package and
    version, the target carries no args and the stored name is the
    target's, and yet the record on disk is replaced, by one that has the
    empty string for args. *)
Lemma hit_rewrites_record_without_args :
  stored_record "/home/u/.avm" (Samples.codex_target "") Samples.foreign_world
  = Some (JObj [("name", JStr "codex"); ("package", JStr "@openai/codex");
                ("version", JStr "0.1.0")])
  ∧ Js.nonempty (args (Samples.codex_target "")) = false
  ∧ name_differs (Samples.codex_target "")
      (JObj [("name", JStr "codex"); ("package", JStr "@openai/codex");
             ("version", JStr "0.1.0")]) = false
  ∧ files (snd (ensureInstalled "/home/u/.avm" Samples.good_day
                  (Samples.codex_target "") None Samples.foreign_world))
    !! meta_path "/home/u/.avm" (Samples.codex_target "")
    = Some (Doc (JObj [("name", JStr "codex"); ("package", JStr "@openai/codex");
                       ("version", JStr "0.1.0"); ("args", JStr "")]))
  ∧ existsb is_install
      (trace (snd (ensureInstalled "/home/u/.avm" Samples.good_day
                     (Samples.codex_target "") None Samples.foreign_world))) = false.
Proof. repeat split; vm_compute; reflexivity. Qed.

End InstallFacts.

(** ** More on strings *)

Module TextFacts.
Import Js JsFacts.

Lemma app_empty (y : string) : "" +:+ y = y.
Proof. reflexivity. Qed.

Lemma includes_app c s r : includes c (s +:+ r) = includes c s || includes c r.
Proof.
  induction s as [|a s IH]; [done|]. simpl.
  change (append s r) with (s +:+ r). by rewrite IH, orb_assoc.
Qed.

Lemma split_app_any sep a b :
  split sep (a +:+ String sep b) = split sep a ++ split sep b.
Proof.
  induction a as [|c a IH].
  - simpl. by rewrite Ascii.eqb_refl.
  - rewrite app_cons. cbn [split]. rewrite IH.
    destruct (Ascii.eqb c sep); [done|].
    destruct (split_cons sep a) as (t & ts & ->). done.
Qed.

Lemma split_clean sep t : includes sep t = false → split sep t = [t].
Proof.
  induction t as [|c t IH]; [done|]. simpl. intros [Hc Ht]%orb_false_elim.
  rewrite Hc. by rewrite IH.
Qed.

Lemma split_app_sep sep t r :
  includes sep t = false → split sep (t +:+ String sep r) = t :: split sep r.
Proof. intros Ht. by rewrite split_app_any, split_clean. Qed.

Lemma app_assoc_str (a b c : string) : (a +:+ b) +:+ c = a +:+ (b +:+ c).
Proof. induction a as [|x a IH]; [done|]. by rewrite !app_cons, IH. Qed.

Lemma prefix_cons a s r : String.prefix (String a s) (String a r) = String.prefix s r.
Proof. simpl. by destruct (ascii_dec a a). Qed.

Lemma prefix_app_self a b : String.prefix a (a +:+ b) = true.
Proof.
  induction a as [|x a IH]; [by destruct b|]. by rewrite app_cons, prefix_cons.
Qed.

Lemma prefix_app_l a b q : String.prefix (a +:+ b) q = true → String.prefix a q = true.
Proof.
  revert q. induction a as [|x a IH]; intros q; [by destruct q|].
  rewrite app_cons. destruct q as [|y q]; [done|]. simpl.
  destruct (ascii_dec x y); [apply IH|done].
Qed.

Lemma prefix_app_cancel a b c : String.prefix (a +:+ b) (a +:+ c) = String.prefix b c.
Proof. induction a as [|x a IH]; [done|]. by rewrite !app_cons, prefix_cons. Qed.

End TextFacts.

(** ** Paths *)

Module PathFacts.
Import Js JsFacts TextFacts.

Lemma under_join p x : Path.under p (Path.join p x) = true.
Proof.
  unfold Path.under, Path.join.
  rewrite <- (app_assoc_str p "/" x), prefix_app_self. apply orb_true_r.
Qed.

(** What lies below [a/b] lies below [a]. *)
Lemma under_parent a b q : Path.under (Path.join a b) q = true → Path.under a q = true.
Proof.
  unfold Path.under, Path.join. intros [Heq|Hpre]%orb_true_iff; apply orb_true_iff; right.
  - apply String.eqb_eq in Heq as <-.
    rewrite <- (app_assoc_str a "/" b). apply prefix_app_self.
  - rewrite <- (app_assoc_str a "/" b) in Hpre. rewrite app_assoc_str in Hpre.
    by apply prefix_app_l in Hpre.
Qed.

Lemma join_eq_cancel a b c : Path.join a b = Path.join a c → b = c.
Proof.
  unfold Path.join. induction a as [|x a IH].
  - rewrite !app_empty, !app_cons, !app_empty. by intros [= ->].
  - rewrite !app_cons. intros [= H]. by apply IH.
Qed.

(** A path is cut in one way only into a directory and a last segment. *)
Lemma join_inj a b a' b' :
  includes "/" b = false → includes "/" b' = false →
  Path.join a b = Path.join a' b' → a = a' ∧ b = b'.
Proof.
  unfold Path.join. revert a'. induction a as [|x a IH]; intros [|x' a'] Hb Hb';
    rewrite ?app_cons, ?app_empty.
  - by intros [= ->].
  - intros [= <- ->]. rewrite includes_app in Hb. simpl in Hb.
    by rewrite orb_true_r in Hb.
  - intros [= -> <-]. rewrite includes_app in Hb'. simpl in Hb'.
    by rewrite orb_true_r in Hb'.
  - intros [= <- H]. by destruct (IH a' Hb Hb' H) as [-> ->].
Qed.

End PathFacts.

(** ** agents.js: what the resolution engine returns *)

Module ResolutionFacts.
Import Js JsFacts TextFacts Agents AgentsFacts.

(** The three shapes of what [parseAgentSpec] returns for a string that is
    not blank. *)
Lemma parseAgentSpec_shape x :
  trim x ≠ "" →
  ∃ n v, parseAgentSpec (Some x) = Some {| spec_name := n; spec_version := v |}
         ∧ n ≠ "" ∧ normalizeAgentName (Some n) = n ∧ v ≠ Some "".
Proof.
  intros Ht. unfold parseAgentSpec.
  assert (nonempty x = true) as Hx.
  { destruct x; [done|reflexivity]. }
  rewrite Hx. cbn [negb].
  apply nonempty_true in Ht as Ht'. rewrite Ht'. cbn [negb].
  destruct (0 <? lastIndexOf "@" (trim x)) eqn:Hi.
  - rewrite normalize_slice_nonempty; [|apply trim_clean|by apply Z.ltb_lt|done].
    cbn [negb].
    assert (normalizeAgentName (Some (slice_to (lastIndexOf "@" (trim x)) (trim x))) ≠ "")
      as Hn.
    { apply nonempty_true, normalize_slice_nonempty;
        [apply trim_clean|by apply Z.ltb_lt|done]. }
    destruct (nonempty (slice_from _ _)) eqn:Hv; cbn [negb].
    + eexists _, _. split; [reflexivity|]. split; [done|].
      split; [apply normalize_idem|]. intros [= Hv']. by rewrite Hv' in Hv.
    + eexists _, _. split; [reflexivity|]. split; [done|].
      split; [apply normalize_idem|done].
  - rewrite normalize_some, trim_idem, toLowerCase_nonempty, Ht'. cbn [negb].
    eexists _, _. split; [reflexivity|].
    split; [by apply nonempty_true; rewrite toLowerCase_nonempty|].
    split; [|done].
    rewrite <- (normalize_some x). apply normalize_idem.
Qed.

Lemma parseAgentSpec_blank x : trim x = "" → parseAgentSpec (Some x) = None.
Proof.
  intros Ht. unfold parseAgentSpec. destruct (nonempty x); cbn [negb]; [|done].
  by rewrite Ht.
Qed.

Lemma parseAgentSpec_shape_of a p :
  parseAgentSpec a = Some p →
  spec_name p ≠ "" ∧ normalizeAgentName (Some (spec_name p)) = spec_name p
  ∧ spec_version p ≠ Some "".
Proof.
  destruct a as [x|]; [|done]. intros Hp.
  destruct (decide (trim x = "")) as [Hb|Hne].
  { by rewrite parseAgentSpec_blank in Hp. }
  destruct (parseAgentSpec_shape x Hne) as (n & v & Hp' & Hn & Hnorm & Hv).
  rewrite Hp' in Hp. injection Hp as <-. done.
Qed.

(** X1. [parseAgentSpec] returns nothing exactly for a missing or blank
    specifier, a blank one being a sequence of white space characters (the
    space, the tab, the no-break space and the others of [WHITE_SPACE]);
    the name it returns otherwise is never empty and is in normal form
    (trimmed, lower case), and the version it returns is never the empty
    string. *)
Theorem parseAgentSpec_none_iff_blank :
  (∀ a, parseAgentSpec a = None ↔ a = None ∨ ∃ x, a = Some x ∧ trim x = "")
  ∧ (∀ a, parseAgentSpec a = None
          ↔ a = None ∨ ∃ ws, Forall (λ w, w ∈ WHITE_SPACE) ws ∧ a = Some (join_all ws))
  ∧ (∀ a p, parseAgentSpec a = Some p →
       spec_name p ≠ "" ∧ normalizeAgentName (Some (spec_name p)) = spec_name p
       ∧ spec_version p ≠ Some "")
  ∧ parseAgentSpec (Some (text [194; 160])) = None
  ∧ parseAgentSpec (Some (text [227; 128; 128] +:+ text [239; 187; 191] +:+ text [9])) = None
  ∧ parseAgentSpec (Some (text [194; 160] +:+ "Codex@1.0 "))
    = Some {| spec_name := "codex"; spec_version := Some "1.0" |}.
Proof.
  assert (∀ a, parseAgentSpec a = None ↔ a = None ∨ ∃ x, a = Some x ∧ trim x = "")
    as Hblank.
  { intros [x|]; [|by split; [left|]]. split.
    + intros Hnone. right. exists x. split; [done|].
      destruct (decide (trim x = "")) as [|Hne]; [done|].
      destruct (parseAgentSpec_shape x Hne) as (n & v & Hp & _). congruence.
    + intros [|(y & [= <-] & Hy)]; [done|]. by apply parseAgentSpec_blank. }
  split; [exact Hblank|].
  split.
  { intros a. rewrite Hblank. split.
    - intros [->|(x & -> & Hx)]; [by left|]. right.
      apply trim_white_spaces in Hx as (ws & Hws & ->). by exists ws.
    - intros [->|(ws & Hws & ->)]; [by left|]. right. eexists. split; [done|].
      apply trim_white_spaces. by exists ws. }
  split; [apply parseAgentSpec_shape_of|].
  repeat split; reflexivity.
Qed.

Lemma spec_ok a c s o t :
  Spec.resolve_spec a c s o = Ok t →
  let n := normalizeAgentName (Spec.first_nonempty (Spec.name_sources a c s)) in
  n ∈ SUPPORTED_AGENTS
  ∧ name t = n
  ∧ Spec.first_nonempty (Spec.package_sources n c s o) = Some (package t)
  ∧ version t = default "latest" (Spec.first_nonempty (Spec.version_sources a n c s))
  ∧ args t = default "" (Spec.first_nonempty (Spec.args_sources n c s o)).
Proof.
  intros H. cbv zeta. unfold Spec.resolve_spec in H. cbv zeta in H.
  set (n := normalizeAgentName (Spec.first_nonempty (Spec.name_sources a c s))) in *.
  repeat case_decide; try done.
  destruct (Spec.first_nonempty (Spec.package_sources n c s o)) as [p|]; [|done].
  by injection H as <-.
Qed.

Lemma first_nonempty_nonempty l v : Spec.first_nonempty l = Some v → v ≠ "".
Proof.
  induction l as [|[x|] l IH]; simpl; [done| |done].
  destruct (nonempty x) eqn:E; [|done]. intros [= <-]. by apply nonempty_true.
Qed.

Lemma default_first_nonempty d l :
  d ≠ "" → default d (Spec.first_nonempty l) ≠ "".
Proof.
  intros Hd. destruct (Spec.first_nonempty l) eqn:E; [|done].
  by apply first_nonempty_nonempty in E.
Qed.

Lemma resolved_wellformed a c s o t :
  resolveTarget a c s o = Ok t →
  name t ∈ SUPPORTED_AGENTS
  ∧ normalizeAgentName (Some (name t)) = name t
  ∧ package t ≠ "" ∧ version t ≠ "".
Proof.
  intros Ht. rewrite resolveTarget_refines in Ht.
  destruct (spec_ok a c s o t Ht) as (Hs & Hn & Hp & Hv & _).
  rewrite Hn. split; [done|]. split; [apply normalize_idem|].
  split; [by apply first_nonempty_nonempty in Hp|].
  rewrite Hv. by apply default_first_nonempty.
Qed.

(** X2. A resolved target names a supported tool in normal form, and its
    package and version are never empty; resolution fails only with
    NoAgentSpecified or with UnsupportedAgent for a non-empty name outside
    the supported set: the NoPackageConfigured branch of
    [resolvePackageName] is never reached from [resolveTarget]. *)
Theorem resolveTarget_wellformed a c s o :
  (∀ t, resolveTarget a c s o = Ok t →
     name t ∈ SUPPORTED_AGENTS
     ∧ normalizeAgentName (Some (name t)) = name t
     ∧ package t ≠ "" ∧ version t ≠ "")
  ∧ (∀ e, resolveTarget a c s o = Err e →
       e = NoAgentSpecified
       ∨ ∃ n, e = UnsupportedAgent n ∧ n ≠ "" ∧ n ∉ SUPPORTED_AGENTS).
Proof.
  split.
  - apply resolved_wellformed.
  - intros e He.
    destruct (resolveTarget_by_name a c s o) as (Hempty & Hbad & Hgood).
    set (n := normalizeAgentName (Spec.first_nonempty (Spec.name_sources a c s))) in *.
    destruct (decide (n = "")) as [Hn|Hn].
    { rewrite (Hempty Hn) in He. injection He as <-. by left. }
    destruct (decide (n ∈ SUPPORTED_AGENTS)) as [Hs|Hs].
    { destruct (Hgood Hs) as (t & Ht & _). congruence. }
    rewrite (Hbad Hn Hs) in He. injection He as <-. right. by exists n.
Qed.

Lemma supported_nonempty_name n : n ∈ SUPPORTED_AGENTS → n ≠ "".
Proof. intros [-> | [-> | ->]]%supported_iff; done. Qed.

(** Resolution from a recorded target alone. *)
Lemma replay_current c' n p v a :
  n ∈ SUPPORTED_AGENTS → p ≠ "" → v ≠ "" →
  Spec.first_nonempty [cfg_default c'] = None →
  cfg_agents c' !! n = None →
  resolveTarget None c'
    {| st_current := Some {| cur_name := Some n; cur_package := Some p;
                             cur_version := Some v; cur_args := a |} |}
    no_overrides
  = Ok {| name := n; package := p; version := v; args := or_lit a "" |}.
Proof.
  intros Hs Hp Hv Hd Hnone.
  pose proof (supported_nonempty_name n Hs) as Hn.
  assert (normalizeAgentName (Some n) = n) as Hnorm.
  { apply supported_iff in Hs as [-> | [-> | ->]]; reflexivity. }
  rewrite resolveTarget_refines. unfold Spec.resolve_spec. cbv zeta.
  assert (Spec.first_nonempty
            (Spec.name_sources None c'
               {| st_current := Some {| cur_name := Some n; cur_package := Some p;
                                        cur_version := Some v; cur_args := a |} |})
          = Some n) as ->.
  { unfold Spec.name_sources. apply nonempty_true in Hn. simpl in Hd |- *.
    destruct (cfg_default c') as [d|]; simpl in Hd |- *; [|by rewrite Hn].
    destruct (nonempty d); [done|]. by rewrite Hn. }
  rewrite Hnorm, decide_False, decide_True by done.
  unfold Spec.package_sources, Spec.version_sources, Spec.args_sources,
    Spec.entry_for, Spec.state_for.
  rewrite Hnone. cbn [default no_entry e_package e_version e_args
                      st_current cur_name packageOverride argsOverride no_overrides
                      parseAgentSpec mbind option_bind].
  rewrite Hnorm, decide_True by done.
  cbn [mbind option_bind cur_package cur_version cur_args Spec.first_nonempty].
  apply nonempty_true in Hp, Hv. rewrite Hp, Hv. cbn [default].
  by destruct a as [[|]|].
Qed.

(** X3. What a resolution returns can be replayed from the state alone:
    once the target is recorded as [state.current], resolving with no
    specifier, no override and a project configuration that says nothing
    about the tool gives the same target again. *)
Theorem resolveTarget_replays_from_state a c s o t c' :
  resolveTarget a c s o = Ok t →
  Spec.first_nonempty [cfg_default c'] = None →
  cfg_agents c' !! name t = None →
  resolveTarget None c' (Actions.state_with t) no_overrides = Ok t.
Proof.
  intros Ht Hd Hnone.
  destruct (resolved_wellformed a c s o t Ht) as (Hs & Hnorm & Hp & Hv).
  unfold Actions.state_with. rewrite replay_current by done.
  destruct t as [n p v ar]. cbn. by destruct ar.
Qed.

Lemma join_spaces_cons t u us :
  Install.join_spaces (t :: u :: us) = t +:+ String " " (Install.join_spaces (u :: us)).
Proof. reflexivity. Qed.

Lemma parseArgsString_join ts :
  Forall Actions.token ts → parseArgsString (Some (Install.join_spaces ts)) = ts.
Proof.
  intros Hts. destruct ts as [|t ts]; [done|].
  rewrite parseArgsString_eq.
  revert t Hts. induction ts as [|u us IH]; intros t Hts.
  - apply Forall_cons in Hts as [(Hne & Htrim & Hsp) _].
    cbn [Install.join_spaces]. rewrite split_clean by done.
    cbn [map]. rewrite Htrim. apply nonempty_true in Hne.
    cbn [filter list_filter]. by rewrite decide_True by (by apply Is_true_true).
  - apply Forall_cons in Hts as [(Hne & Htrim & Hsp) Hrest].
    rewrite join_spaces_cons, split_app_sep by done.
    cbn [map]. rewrite Htrim. apply nonempty_true in Hne.
    rewrite filter_cons, decide_True by (by apply Is_true_true).
    by rewrite (IH u Hrest).
Qed.

(** X4. Joining tokens with single spaces, as [runCommand] does for its
    error message, and tokenizing the text again gives the tokens back: the
    tokens of [parseArgsString] survive the round trip, so tokenizing is
    idempotent through [join]. *)
Theorem parseArgsString_join_round_trip a :
  parseArgsString (Some (Install.join_spaces (parseArgsString a))) = parseArgsString a.
Proof.
  destruct a as [s|]; [|done].
  apply parseArgsString_join, Forall_forall. intros t Ht.
  by apply parseArgsString_token in Ht.
Qed.

Lemma resolveTarget_replays_from_state_witness :
  resolveTarget None Samples.no_config (Actions.state_with (Samples.codex_target "--fast"))
    no_overrides
  = Ok (Samples.codex_target "--fast").
Proof.
  apply (resolveTarget_replays_from_state (Some "codex@0.1.0") Samples.no_config
           Samples.no_state {| packageOverride := None; argsOverride := Some "--fast" |});
    reflexivity.
Defined.

End ResolutionFacts.

(** ** install.js: directory names *)

Module NamingFacts.
Import Js JsFacts TextFacts PathFacts Agents Install Discovery.

Lemma sanitizeName_clean c n :
  c = "/"%char ∨ c = "\"%char → includes c (sanitizeName n) = false.
Proof.
  intros Hc. unfold sanitizeName.
  induction n as [|a n IH]; [done|]. cbn [replace_slashes].
  destruct (Ascii.eqb a "/" || Ascii.eqb a "\") eqn:E.
  - rewrite includes_app, IH. by destruct Hc as [-> | ->].
  - cbn [includes]. rewrite IH. apply orb_false_elim in E as [E1 E2].
    destruct Hc as [-> | ->]; by rewrite ?E1, ?E2.
Qed.

Lemma sanitizeName_id n :
  includes "/" n = false → includes "\" n = false → sanitizeName n = n.
Proof.
  unfold sanitizeName. induction n as [|a n IH]; [done|]. cbn [replace_slashes includes].
  intros [H1 H1']%orb_false_elim [H2 H2']%orb_false_elim.
  rewrite H1, H2. cbn [orb]. by rewrite IH.
Qed.

(** X5. A sanitized name holds no path separator, so that it is a single
    directory name below the agents directory, and a name without
    separators is its own sanitized name. *)
Theorem sanitizeName_single_segment n :
  includes "/" (sanitizeName n) = false
  ∧ includes "\" (sanitizeName n) = false
  ∧ (includes "/" n = false → includes "\" n = false → sanitizeName n = n).
Proof.
  split; [apply sanitizeName_clean; by left|].
  split; [apply sanitizeName_clean; by right|].
  apply sanitizeName_id.
Qed.

Lemma unsanitizeName_cons c s :
  c ≠ "_"%char → unsanitizeName (String c s) = String c (unsanitizeName s).
Proof.
  intros Hc. apply Ascii.eqb_neq in Hc. cbn [unsanitizeName].
  destruct s as [|d s]; [done|]. by rewrite Hc.
Qed.

Lemma unsanitize_sanitize n :
  includes "_" n = false → includes "\" n = false →
  unsanitizeName (sanitizeName n) = n.
Proof.
  unfold sanitizeName. induction n as [|a n IH]; [done|].
  cbn [replace_slashes includes].
  intros [H1 H1']%orb_false_elim [H2 H2']%orb_false_elim.
  rewrite H2, orb_false_r.
  destruct (Ascii.eqb_spec a "/") as [->|Hne].
  - change ("__" +:+ replace_slashes "__" n)
      with (String "_" (String "_" (replace_slashes "__" n))).
    cbn [unsanitizeName]. rewrite Ascii.eqb_refl. cbn [andb]. by rewrite IH.
  - apply Ascii.eqb_neq in H1. by rewrite unsanitizeName_cons, IH.
Qed.

(** X6. [unsanitizeName] undoes [sanitizeName] on every name that holds no
    underscore and no backslash, such as the names of scoped packages. The
    two conditions are needed: a backslash comes back as a slash, and an
    underscore before a separator moves the separator. *)
Theorem unsanitizeName_sanitizeName :
  (∀ n, includes "_" n = false → includes "\" n = false →
        unsanitizeName (sanitizeName n) = n)
  ∧ unsanitizeName (sanitizeName "@openai/codex") = "@openai/codex"
  ∧ unsanitizeName (sanitizeName "a\b") = "a/b"
  ∧ unsanitizeName (sanitizeName "a_/b") = "a/_b".
Proof. split; [exact unsanitize_sanitize|]. repeat split. Qed.

Lemma sanitizeName_supported n : n ∈ SUPPORTED_AGENTS → sanitizeName n = n.
Proof.
  intros [-> | [-> | ->]]%AgentsFacts.supported_iff; reflexivity.
Qed.

(** X7. The install slot is keyed by tool and version: two targets with
    supported names and versions that are plain path segments share their
    install directory only when they agree on name and version. The package
    is no part of the key: a fork of a tool, at the same version, shares
    the slot of the tool. *)
Theorem installDir_injective home t t' :
  name t ∈ SUPPORTED_AGENTS → name t' ∈ SUPPORTED_AGENTS →
  plain_segment (version t) → plain_segment (version t') →
  installDir home (name t) (version t) = installDir home (name t') (version t')
  ↔ name t = name t' ∧ version t = version t'.
Proof.
  intros Hn Hn' (Hv & _) (Hv' & _). split; [|by intros [-> ->]].
  unfold installDir, agentDir.
  intros H. apply join_inj in H as [H ->]; [|done..].
  apply join_inj in H as [_ H]; [|apply sanitizeName_clean; by left..].
  by rewrite !sanitizeName_supported in H.
Qed.

Lemma installDir_injective_witness :
  installDir "/home/u/.avm" (name (Samples.codex_target "")) (version (Samples.codex_target ""))
  = installDir "/home/u/.avm" (name (Samples.fork_target "")) (version (Samples.fork_target ""))
  ↔ name (Samples.codex_target "") = name (Samples.fork_target "")
    ∧ version (Samples.codex_target "") = version (Samples.fork_target "").
Proof.
  apply (installDir_injective "/home/u/.avm").
  - by apply AgentsFacts.supported_iff; left.
  - by apply AgentsFacts.supported_iff; left.
  - by repeat split.
  - by repeat split.
Defined.

End NamingFacts.

(** ** selfUpdate.js: version comparison *)

Module VersionFacts.
Import Js JsFacts TextFacts SelfUpdate.

Lemma component_beyond xs i : (List.length xs ≤ i)%nat → component xs i = Some 0.
Proof.
  intros Hi. unfold component. by rewrite (lookup_ge_None_2 xs i Hi).
Qed.

Lemma numeric_component v i :
  numeric v = true → component (split "." v) i = Some (part v i).
Proof.
  unfold numeric, part. intros Hall.
  destruct (split "." v !! i) as [x|] eqn:Hx.
  - rewrite forallb_forall in Hall.
    assert (In x (split "." v)) as Hin.
    { apply list_elem_of_In. by eapply list_elem_of_lookup_2. }
    apply Hall in Hin. apply bool_decide_eq_true in Hin as [z Hz].
    unfold component. rewrite Hx, Hz. done.
  - rewrite component_beyond; [done|]. by apply lookup_ge_None.
Qed.

Lemma part_beyond v i : (List.length (split "." v) ≤ i)%nat → part v i = 0.
Proof. intros Hi. unfold part. by rewrite component_beyond. Qed.

(** The loop on two versions whose components are all numbers: it answers
    [true] when it meets a greater component of [remote] before a smaller
    one. *)
Lemma compare_from_numeric remote local r l f g :
  (∀ i, component r i = Some (f i)) → (∀ i, component l i = Some (g i)) →
  ∀ n i,
    compare_from remote local r l n i = true
    ↔ ∃ k, (i ≤ k < i + n)%nat ∧ g k < f k ∧ ∀ j, (i ≤ j < k)%nat → f j = g j.
Proof.
  intros Hr Hl. induction n as [|n IH]; intros i; cbn [compare_from].
  { split; [done|]. intros (k & Hk & _). lia. }
  rewrite Hr, Hl.
  destruct (Z.ltb_spec (g i) (f i)) as [Hlt|Hge].
  { split; [|done]. intros _. exists i. split; [lia|]. split; [done|]. intros j Hj. lia. }
  destruct (Z.ltb_spec (f i) (g i)) as [Hlt|Hge'].
  { split; [done|]. intros (k & Hk & Hgt & Heq).
    destruct (decide (k = i)) as [->|Hne]; [lia|].
    specialize (Heq i). lia. }
  rewrite IH. split.
  - intros (k & Hk & Hgt & Heq). exists k. split; [lia|]. split; [done|].
    intros j Hj. destruct (decide (j = i)) as [->|Hne]; [lia|]. apply Heq. lia.
  - intros (k & Hk & Hgt & Heq). exists k.
    destruct (decide (k = i)) as [->|Hne]; [lia|].
    split; [lia|]. split; [done|]. intros j Hj. apply Heq. lia.
Qed.

Lemma well_formed_elim v : well_formed v = true → nonempty v = true ∧ numeric v = true.
Proof. unfold well_formed. by intros [? ?]%andb_prop. Qed.

Lemma newer_lexicographic remote local :
  well_formed remote = true → well_formed local = true →
  isNewerVersion (Some remote) (Some local) = true
  ↔ ∃ k, part local k < part remote k ∧ ∀ j, (j < k)%nat → part remote j = part local j.
Proof.
  intros [Hr Hnr]%well_formed_elim [Hl Hnl]%well_formed_elim.
  unfold isNewerVersion. rewrite Hr, Hl. cbn [negb orb].
  rewrite (compare_from_numeric remote local _ _ (part remote) (part local));
    [|intros i; by apply numeric_component..].
  split.
  - intros (k & _ & Hlt & Heq). exists k. split; [done|]. intros j Hj. apply Heq. lia.
  - intros (k & Hlt & Heq). exists k. split; [|split; [done|intros j Hj; apply Heq; lia]].
    destruct (decide (k < Nat.max (List.length (split "." remote))
                                  (List.length (split "." local)))%nat) as [|Hge]; [lia|].
    rewrite (part_beyond remote), (part_beyond local) in Hlt by lia. lia.
Qed.

Lemma exact_well_formed v : exact v = true → well_formed v = true.
Proof.
  unfold exact, well_formed, safe, numeric. intros [-> H]%andb_prop. cbn [andb].
  rewrite forallb_forall in *. intros x Hx. specialize (H x Hx).
  destruct (parseInt _) as [z|]; [|done]. by apply bool_decide_eq_true_2.
Qed.

(** Reading the digits of a numeral gives its number. *)
Lemma digits_numeral_acc d acc :
  digits (NilEmpty.string_of_uint d) (Some (Z.pos acc))
  = Some (Z.pos (Pos.of_uint_acc d acc)).
Proof.
  revert acc. induction d as [|d IH|d IH|d IH|d IH|d IH|d IH|d IH|d IH|d IH|d IH];
    intros acc; [done|..];
    cbn [NilEmpty.string_of_uint digits Pos.of_uint_acc];
    change (digit _) with (Some 0) || change (digit _) with (Some 1)
    || change (digit _) with (Some 2) || change (digit _) with (Some 3)
    || change (digit _) with (Some 4) || change (digit _) with (Some 5)
    || change (digit _) with (Some 6) || change (digit _) with (Some 7)
    || change (digit _) with (Some 8) || change (digit _) with (Some 9);
    cbn [default from_option id]; rewrite <- IH; do 2 f_equal; lia.
Qed.

Lemma digits_numeral_zero d :
  digits (NilEmpty.string_of_uint d) (Some 0) = Some (Z.of_N (Pos.of_uint d)).
Proof.
  induction d as [|d IH|d IH|d IH|d IH|d IH|d IH|d IH|d IH|d IH|d IH]; [done|..];
    cbn [NilEmpty.string_of_uint digits Pos.of_uint];
    change (digit _) with (Some 0) || change (digit _) with (Some 1)
    || change (digit _) with (Some 2) || change (digit _) with (Some 3)
    || change (digit _) with (Some 4) || change (digit _) with (Some 5)
    || change (digit _) with (Some 6) || change (digit _) with (Some 7)
    || change (digit _) with (Some 8) || change (digit _) with (Some 9);
    cbn [default from_option id]; [exact IH|..]; apply digits_numeral_acc.
Qed.

Lemma digits_numeral d :
  d ≠ Decimal.Nil →
  digits (NilEmpty.string_of_uint d) None = Some (Z.of_N (Pos.of_uint d)).
Proof.
  destruct d as [|d|d|d|d|d|d|d|d|d|d]; [done|..]; intros _;
    cbn [NilEmpty.string_of_uint digits Pos.of_uint];
    change (digit _) with (Some 0) || change (digit _) with (Some 1)
    || change (digit _) with (Some 2) || change (digit _) with (Some 3)
    || change (digit _) with (Some 4) || change (digit _) with (Some 5)
    || change (digit _) with (Some 6) || change (digit _) with (Some 7)
    || change (digit _) with (Some 8) || change (digit _) with (Some 9);
    cbn [default from_option id]; [apply digits_numeral_zero|..]; apply digits_numeral_acc.
Qed.

Lemma numeral_no_dot d : includes "." (NilEmpty.string_of_uint d) = false.
Proof.
  induction d as [|d IH|d IH|d IH|d IH|d IH|d IH|d IH|d IH|d IH|d IH]; [done|..];
    exact IH.
Qed.

Lemma to_uint_given n : N.to_uint n ≠ Decimal.Nil.
Proof.
  intros H. pose proof (DecimalN.Unsigned.of_to n) as Hn. rewrite H in Hn.
  cbn in Hn. subst n. done.
Qed.

Lemma decimal_nonempty n : decimal n ≠ "".
Proof.
  unfold decimal. pose proof (to_uint_given n) as H.
  by destruct (N.to_uint n).
Qed.

(** [parseInt] reads a decimal numeral as its number. *)
Lemma parseInt_decimal n : parseInt (decimal n) = Some (Z.of_N n).
Proof.
  unfold decimal. pose proof (to_uint_given n) as Hd.
  rewrite <- (DecimalN.Unsigned.of_to n) at 2. unfold N.of_uint.
  rewrite <- (digits_numeral _ Hd). unfold parseInt.
  destruct (N.to_uint n) as [|d|d|d|d|d|d|d|d|d|d]; [done|..];
    cbn [NilEmpty.string_of_uint];
    (rewrite trimStart_of_clean;
     [reflexivity|unfold starts_clean; by destruct (NilEmpty.string_of_uint d) as [|b [|c r]]]).
Qed.

Lemma decimal_no_dot n : includes "." (decimal n) = false.
Proof. apply numeral_no_dot. Qed.

Lemma split_dotted n ns : split "." (dotted (n :: ns)) = decimal n :: map decimal ns.
Proof.
  revert n. induction ns as [|m ns IH]; intros n.
  - cbn [dotted map]. apply split_clean, decimal_no_dot.
  - change (dotted (n :: m :: ns)) with (decimal n +:+ String "." (dotted (m :: ns))).
    rewrite split_app_any, IH, (split_clean "." (decimal n)) by apply decimal_no_dot.
    done.
Qed.

(** The components of a version written from numbers are these numbers. *)
Lemma component_dotted ns i :
  ns ≠ [] → component (split "." (dotted ns)) i = Some (Z.of_N (default 0%N (ns !! i))).
Proof.
  destruct ns as [|n ns]; [done|]. intros _. rewrite split_dotted.
  change (decimal n :: map decimal ns) with (map decimal (n :: ns)).
  unfold component. rewrite list_lookup_fmap.
  destruct ((n :: ns) !! i) as [m|]; cbn [fmap option_fmap option_map default]; [|done].
  pose proof (decimal_nonempty m) as Hm. cbn [or_lit].
  apply nonempty_true in Hm. rewrite Hm. apply parseInt_decimal.
Qed.

Lemma part_dotted ns i : ns ≠ [] → part (dotted ns) i = Z.of_N (default 0%N (ns !! i)).
Proof. intros Hns. unfold part. by rewrite component_dotted. Qed.

Lemma dotted_nonempty ns : ns ≠ [] → dotted ns ≠ "".
Proof.
  destruct ns as [|n [|m ns]]; [done|..]; intros _; cbn [dotted].
  - apply decimal_nonempty.
  - pose proof (decimal_nonempty n). by destruct (decimal n).
Qed.

Lemma exact_dotted ns :
  ns ≠ [] → Forall (λ n, (n ≤ 2 ^ 53)%N) ns → exact (dotted ns) = true.
Proof.
  intros Hns Hsafe. unfold exact. apply andb_true_intro. split.
  { by apply nonempty_true, dotted_nonempty. }
  unfold safe. destruct ns as [|n ns]; [done|]. rewrite split_dotted.
  change (decimal n :: map decimal ns) with (map decimal (n :: ns)).
  apply forallb_forall. intros x [m [<- Hm]]%in_map_iff.
  pose proof (decimal_nonempty m) as Hne. cbn [or_lit].
  apply nonempty_true in Hne. rewrite Hne, parseInt_decimal.
  apply Z.leb_le. rewrite Forall_forall in Hsafe.
  specialize (Hsafe m). rewrite list_elem_of_In in Hsafe. specialize (Hsafe Hm). lia.
Qed.

(** X8. On versions whose components are all numbers that a double holds
    exactly (at most 2^53 in absolute value), [isNewerVersion] is the
    lexicographic order of the component sequences, a missing component
    counting as 0. In particular, between two versions written from
    sequences of natural numbers up to 2^53, in decimal with dots between
    them, it is the lexicographic order of these sequences: [1.10.0] is
    newer than [1.9.3]. *)
Theorem isNewerVersion_lexicographic :
  (∀ remote local,
     exact remote = true → exact local = true →
     isNewerVersion (Some remote) (Some local) = true
     ↔ ∃ k, part local k < part remote k
            ∧ ∀ j, (j < k)%nat → part remote j = part local j)
  ∧ (∀ ms ns : list N,
       ms ≠ [] → ns ≠ [] →
       Forall (λ n, (n ≤ 2 ^ 53)%N) ms → Forall (λ n, (n ≤ 2 ^ 53)%N) ns →
       isNewerVersion (Some (dotted ms)) (Some (dotted ns)) = true
       ↔ ∃ k, (default 0 (ns !! k) < default 0 (ms !! k))%N
              ∧ ∀ j, (j < k)%nat → default 0%N (ms !! j) = default 0%N (ns !! j))
  ∧ dotted [1; 10; 0]%N = "1.10.0"
  ∧ isNewerVersion (Some "1.10.0") (Some "1.9.3") = true
  ∧ isNewerVersion (Some "1.9.3") (Some "1.10.0") = false
  ∧ isNewerVersion (Some "2") (Some "1.99.99") = true
  ∧ isNewerVersion (Some "1.2") (Some "1.2.0") = false.
Proof.
  split.
  { intros remote local Hr Hl. by apply newer_lexicographic; apply exact_well_formed. }
  split.
  { intros ms ns Hms Hns Hsafe Hsafe'.
    rewrite (newer_lexicographic (dotted ms) (dotted ns))
      by by apply exact_well_formed, exact_dotted.
    split; intros (k & Hlt & Heq); exists k.
    - rewrite !part_dotted in Hlt by done. split; [lia|].
      intros j Hj. specialize (Heq j Hj). rewrite !part_dotted in Heq by done. lia.
    - rewrite !part_dotted by done. split; [lia|].
      intros j Hj. rewrite !part_dotted by done. by rewrite (Heq j Hj). }
  repeat split; reflexivity.
Qed.

Lemma isNewerVersion_lexicographic_witness :
  isNewerVersion (Some (dotted [1; 10; 0]%N)) (Some (dotted [1; 9; 3]%N)) = true.
Proof.
  destruct isNewerVersion_lexicographic as (_ & Hlex & _).
  apply (Hlex [1; 10; 0]%N [1; 9; 3]%N); [done|done|by repeat constructor..|].
  exists 1%nat. split; [reflexivity|].
  intros j Hj. by replace j with 0%nat by lia.
Defined.

Lemma compare_from_same v xs n i : compare_from v v xs xs n i = false.
Proof.
  revert i. induction n as [|n IH]; intros i; [done|]. cbn [compare_from].
  destruct (component xs i) as [z|].
  - rewrite Z.ltb_irrefl. apply IH.
  - by rewrite String.eqb_refl.
Qed.

Lemma first_difference (f g : nat → Z) k :
  (∀ j, (j < k)%nat → f j = g j)
  ∨ ∃ m, (m < k)%nat ∧ f m ≠ g m ∧ ∀ j, (j < m)%nat → f j = g j.
Proof.
  induction k as [|k [Hall|(m & Hm & Hne & Hbefore)]].
  - left. intros j Hj. lia.
  - destruct (decide (f k = g k)) as [Heq|Hne].
    + left. intros j Hj. destruct (decide (j = k)) as [->|]; [done|]. apply Hall. lia.
    + right. exists k. split; [lia|]. split; [done|]. exact Hall.
  - right. exists m. split; [lia|]. split; [done|]. exact Hbefore.
Qed.

(** Two versions are unordered exactly when they read as the same
    sequence. *)
Lemma unordered_iff a b :
  well_formed a = true → well_formed b = true →
  isNewerVersion (Some a) (Some b) = false ∧ isNewerVersion (Some b) (Some a) = false
  ↔ ∀ i, part a i = part b i.
Proof.
  intros Ha Hb. split.
  - intros [Hab Hba] i.
    destruct (first_difference (part a) (part b) (S i)) as [Hall|(m & Hm & Hne & Hbefore)].
    { apply Hall. lia. }
    destruct (Z.lt_trichotomy (part a m) (part b m)) as [Hlt | [Heq | Hlt]]; [|done|].
    + assert (isNewerVersion (Some b) (Some a) = true) as Hnew; [|congruence].
      apply (newer_lexicographic b a Hb Ha). exists m. split; [done|].
      intros j Hj. symmetry. by apply Hbefore.
    + assert (isNewerVersion (Some a) (Some b) = true) as Hnew; [|congruence].
      apply (newer_lexicographic a b Ha Hb). exists m. split; [lia|].
      intros j Hj. by apply Hbefore.
  - intros Heq. split.
    + destruct (isNewerVersion (Some a) (Some b)) eqn:Hab; [|done].
      apply (newer_lexicographic a b Ha Hb) in Hab as (k & Hk & _).
      rewrite Heq in Hk. lia.
    + destruct (isNewerVersion (Some b) (Some a)) eqn:Hba; [|done].
      apply (newer_lexicographic b a Hb Ha) in Hba as (k & Hk & _).
      rewrite Heq in Hk. lia.
Qed.

(** X9. [isNewerVersion] never holds between a version and itself, nor
    when a version is missing or empty; on versions whose components are
    all numbers that a double holds exactly it is a strict order
    (asymmetric and transitive), and two such versions are unordered
    exactly when their component sequences agree. *)
Theorem isNewerVersion_strict_order :
  (∀ v, isNewerVersion v v = false)
  ∧ (∀ v, isNewerVersion None v = false ∧ isNewerVersion v None = false
          ∧ isNewerVersion (Some "") v = false ∧ isNewerVersion v (Some "") = false)
  ∧ (∀ a b, exact a = true → exact b = true →
       isNewerVersion (Some a) (Some b) = true → isNewerVersion (Some b) (Some a) = false)
  ∧ (∀ a b c, exact a = true → exact b = true → exact c = true →
       isNewerVersion (Some a) (Some b) = true → isNewerVersion (Some b) (Some c) = true →
       isNewerVersion (Some a) (Some c) = true)
  ∧ (∀ a b, exact a = true → exact b = true →
       isNewerVersion (Some a) (Some b) = false ∧ isNewerVersion (Some b) (Some a) = false
       ↔ ∀ i, part a i = part b i).
Proof.
  split.
  { intros [v|]; [|done]. unfold isNewerVersion.
    destruct (nonempty v); cbn [negb orb]; [|done]. apply compare_from_same. }
  split.
  { intros [v|]; repeat split; try done; unfold isNewerVersion;
      by destruct (nonempty v). }
  split.
  { intros a b Ha%exact_well_formed Hb%exact_well_formed Hab.
    destruct (isNewerVersion (Some b) (Some a)) eqn:Hba; [|done].
    apply (newer_lexicographic a b Ha Hb) in Hab as (k & Hk & Hbefore).
    apply (newer_lexicographic b a Hb Ha) in Hba as (k' & Hk' & Hbefore').
    destruct (Nat.lt_trichotomy k k') as [Hlt | [-> | Hlt]].
    - specialize (Hbefore' k Hlt). lia.
    - lia.
    - specialize (Hbefore k' Hlt). lia. }
  split.
  { intros a b c Ha%exact_well_formed Hb%exact_well_formed Hc%exact_well_formed Hab Hbc.
    apply (newer_lexicographic a b Ha Hb) in Hab as (k & Hk & Hbefore).
    apply (newer_lexicographic b c Hb Hc) in Hbc as (k' & Hk' & Hbefore').
    apply (newer_lexicographic a c Ha Hc).
    destruct (Nat.lt_trichotomy k k') as [Hlt | [-> | Hlt]].
    - exists k. split; [rewrite <- (Hbefore' k Hlt); lia|].
      intros j Hj. rewrite (Hbefore j Hj). apply Hbefore'. lia.
    - exists k'. split; [lia|].
      intros j Hj. rewrite (Hbefore j Hj). by apply Hbefore'.
    - exists k'. split; [rewrite (Hbefore k' Hlt); lia|].
      intros j Hj. rewrite <- (Hbefore' j Hj). apply Hbefore. lia. }
  intros a b Ha%exact_well_formed Hb%exact_well_formed. by apply unordered_iff.
Qed.

Lemma component_app_zero xs i : component (xs ++ ["0"]) i = component xs i.
Proof.
  unfold component.
  destruct (decide (i < List.length xs)%nat) as [Hlt|Hge].
  - by rewrite lookup_app_l.
  - rewrite lookup_app_r by lia. rewrite (lookup_ge_None_2 xs i) by lia.
    by destruct (i - List.length xs)%nat as [|[|]].
Qed.

Lemma compare_from_stop remote local r l n i k :
  (i ≤ k < i + n)%nat →
  (∀ j, (i ≤ j < k)%nat → ∃ z, component r j = Some z ∧ component l j = Some z) →
  component r k = None ∨ component l k = None →
  compare_from remote local r l n i = negb (String.eqb remote local).
Proof.
  revert i. induction n as [|n IH]; intros i Hk Hbefore Hnan; [lia|].
  cbn [compare_from]. destruct (decide (i = k)) as [->|Hne].
  - destruct Hnan as [-> | ->]; [done|]. by destruct (component r k).
  - destruct (Hbefore i) as (z & -> & ->); [lia|]. rewrite Z.ltb_irrefl.
    apply IH; [lia| |done]. intros j Hj. apply Hbefore. lia.
Qed.

(** X10. A trailing [.0] changes no component, so that [1.2] and [1.2.0]
    are the same version. A component that is no number, met before any
    difference, ends the comparison with the answer that the two strings
    differ: two different versions of that kind are each newer than the
    other. *)
Theorem isNewerVersion_padding_and_malformed :
  (∀ v i, part (v +:+ ".0") i = part v i)
  ∧ (∀ v, well_formed v = true →
       isNewerVersion (Some (v +:+ ".0")) (Some v) = false
       ∧ isNewerVersion (Some v) (Some (v +:+ ".0")) = false)
  ∧ (∀ remote local k,
       remote ≠ "" → local ≠ "" →
       (∀ j, (j < k)%nat →
          ∃ z, component (split "." remote) j = Some z
               ∧ component (split "." local) j = Some z) →
       component (split "." remote) k = None ∨ component (split "." local) k = None →
       isNewerVersion (Some remote) (Some local) = negb (String.eqb remote local)
       ∧ isNewerVersion (Some local) (Some remote) = negb (String.eqb remote local)).
Proof.
  assert (∀ v i, part (v +:+ ".0") i = part v i) as Hpart.
  { intros v i. unfold part. change (v +:+ ".0") with (v +:+ String "." "0").
    rewrite split_app_any. change (split "." "0") with ["0"%string].
    by rewrite component_app_zero. }
  assert (∀ v, well_formed v = true → well_formed (v +:+ ".0") = true) as Hwf.
  { intros v [Hne Hnum]%well_formed_elim. unfold well_formed.
    apply andb_true_intro. split.
    - destruct v; reflexivity.
    - unfold numeric in *. change (v +:+ ".0") with (v +:+ String "." "0").
      rewrite split_app_any, forallb_app, Hnum. reflexivity. }
  split; [exact Hpart|]. split.
  { intros v Hv.
    apply (unordered_iff (v +:+ ".0") v (Hwf v Hv) Hv). intros i. apply Hpart. }
  intros remote local k Hr Hl Hbefore Hnan.
  assert (k < Nat.max (List.length (split "." remote)) (List.length (split "." local)))%nat
    as Hk.
  { destruct (decide (k < Nat.max (List.length (split "." remote))
                                  (List.length (split "." local)))%nat) as [|Hge]; [done|].
    destruct Hnan as [Hnan|Hnan]; rewrite component_beyond in Hnan by lia; done. }
  apply nonempty_true in Hr, Hl. unfold isNewerVersion. rewrite Hr, Hl. cbn [negb orb].
  split.
  - apply (compare_from_stop _ _ _ _ _ _ k); [lia| |done].
    intros j Hj. apply Hbefore. lia.
  - rewrite (compare_from_stop _ _ _ _ _ _ k); [|lia| |tauto].
    + f_equal. apply String.eqb_sym.
    + intros j Hj. destruct (Hbefore j) as (z & ? & ?); [lia|]. by exists z.
Qed.

End VersionFacts.

(** ** state.js: files of JSON *)

Module PersistFacts.
Import State StateFacts.



End PersistFacts.

(** ** install.js: what a run leaves alone, and a failed installation *)

Module StoreFacts.
Import Agents Install StoreSpec InstallFacts TextFacts PathFacts Discovery.

Section facts.

Context (home : string).

Lemma meta_under t : Path.under (install_path home t) (meta_path home t) = true.
Proof. apply under_join. Qed.

Lemma install_under_base t q :
  Path.under (install_path home t) q = true →
  Path.under (State.AGENTS_DIR home) q = true.
Proof.
  unfold install_path, installDir, agentDir. intros H.
  by apply under_parent, under_parent in H.
Qed.

Lemma state_file_outside : Path.under (State.AGENTS_DIR home) (State.STATE_FILE home) = false.
Proof.
  unfold Path.under, State.AGENTS_DIR, State.STATE_FILE, Path.join.
  apply orb_false_intro.
  - apply String.eqb_neq. intros H. by apply (join_eq_cancel home) in H.
  - by rewrite app_assoc_str, prefix_app_cancel.
Qed.

Lemma lookup_kept (F : gmap string content) p q :
  Path.under p q = false →
  filter (λ kv, ¬ Is_true (Path.under p kv.1)) F !! q = F !! q.
Proof.
  intros Hq. destruct (F !! q) as [c|] eqn:E.
  - apply map_lookup_filter_Some_2; [done|]. cbn [fst]. rewrite Hq. by intros [].
  - apply map_lookup_filter_None_2. by left.
Qed.

Lemma after_install_files t env registry w q :
  Path.under (install_path home t) q = false →
  files (after_install home t env registry w).2 !! q = files w !! q.
Proof.
  intros Hq.
  assert (q ≠ meta_path home t) as Hne.
  { intros ->. by rewrite meta_under in Hq. }
  unfold after_install.
  destruct (child_end env) as [[|c|c]|], (Fs.exists_ (install_path home t) w);
    cbn [snd files]; rewrite ?lookup_insert_ne by done; by rewrite ?lookup_kept.
Qed.

Lemma after_install_dirs t env registry w q :
  Path.under (install_path home t) q = false →
  q ∈ dirs w → q ∈ dirs (after_install home t env registry w).2.
Proof.
  intros Hq Hin. unfold after_install.
  assert (q ∈ filter (λ q, ¬ Is_true (Path.under (install_path home t) q))
                ({[ State.AGENTS_DIR home ]} ∪ dirs w)) as Hkept.
  { apply elem_of_filter. split; [rewrite Hq; by intros []|]. apply elem_of_union. by right. }
  destruct (child_end env) as [[|c|c]|], (Fs.exists_ (install_path home t) w);
    cbn [snd dirs]; rewrite !elem_of_union; tauto.
Qed.

Lemma after_hit_files t j w q :
  Path.under (install_path home t) q = false →
  files (after_hit home t j w).2 !! q = files w !! q.
Proof.
  intros Hq.
  assert (q ≠ meta_path home t) as Hne.
  { intros ->. by rewrite meta_under in Hq. }
  unfold after_hit. destruct (_ || _); cbn [snd files]; [|done].
  by rewrite lookup_insert_ne.
Qed.

Lemma after_hit_dirs t j w q : q ∈ dirs w → q ∈ dirs (after_hit home t j w).2.
Proof.
  intros Hin. unfold after_hit. destruct (_ || _); cbn [snd dirs];
    rewrite !elem_of_union; tauto.
Qed.

(** Every file outside the slot of the target is as it was after a run, and
    every directory outside it is still there. *)
Lemma ensureInstalled_outside env t registry w q :
  Path.under (install_path home t) q = false →
  files (ensureInstalled home env t registry w).2 !! q = files w !! q
  ∧ (q ∈ dirs w → q ∈ dirs (ensureInstalled home env t registry w).2).
Proof.
  intros Hq. rewrite ensureInstalled_cases. cbv zeta.
  pose proof (after_install_files t env registry w q Hq) as Hif.
  pose proof (after_install_dirs t env registry w q Hq) as Hid.
  assert (∀ e : error, q ∈ dirs w →
            q ∈ dirs (Err e : result (string * json),
                      {| dirs := {[ State.AGENTS_DIR home ]} ∪ dirs w; files := files w;
                         trace := trace w ++ [Mkdir (State.AGENTS_DIR home)] |}).2)
    as Hbase.
  { intros e Hin. cbn [snd dirs]. apply elem_of_union. by right. }
  destruct (Fs.exists_ (install_path home t) w); [|done].
  destruct (files w !! meta_path home t) as [[|j]|].
  - split; [done|apply Hbase].
  - destruct (_ && _); [|done].
    split; [by apply after_hit_files|apply after_hit_dirs].
  - case_bool_decide; [split; [done|apply Hbase]|].
    destruct (Fs.below_file _ w); [split; [done|apply Hbase]|done].
Qed.

(** X11. [ensureInstalled] works inside the slot of its target. For a
    target whose name and version are plain path segments, so that its
    install path is its slot below the agents directory: whatever the
    outcome (cache hit, installation, failed installation, unreadable
    record), every file outside the install directory of the target is as
    it was and no directory outside it is removed; in particular the
    installations of the other tools and versions and the global state file
    are left alone. *)
Theorem ensureInstalled_frame env t registry w :
  plain_target t →
  (∀ q, Path.under (install_path home t) q = false →
     files (ensureInstalled home env t registry w).2 !! q = files w !! q
     ∧ (q ∈ dirs w → q ∈ dirs (ensureInstalled home env t registry w).2))
  ∧ (∀ q, Path.under (State.AGENTS_DIR home) q = false →
       files (ensureInstalled home env t registry w).2 !! q = files w !! q)
  ∧ files (ensureInstalled home env t registry w).2 !! State.STATE_FILE home
    = files w !! State.STATE_FILE home.
Proof.
  intros _.
  assert (∀ q, Path.under (State.AGENTS_DIR home) q = false →
            Path.under (install_path home t) q = false) as Hout.
  { intros q Hq. destruct (Path.under (install_path home t) q) eqn:E; [|done].
    apply install_under_base in E. congruence. }
  split; [apply ensureInstalled_outside|].
  split.
  - intros q Hq. by apply ensureInstalled_outside, Hout.
  - apply ensureInstalled_outside, Hout, state_file_outside.
Qed.

Lemma meta_path_neq_install t : meta_path home t ≠ install_path home t.
Proof. apply join_neq. Qed.

Lemma not_under_self_filter (D : gset string) p q :
  Path.under p q = true → q ∉ filter (λ q, ¬ Is_true (Path.under p q)) D.
Proof. intros Hq [Hkeep _]%elem_of_filter. by rewrite Hq in Hkeep. Qed.

Lemma below_file_kept p w w' :
  (∀ q, is_Some (files w' !! q) → is_Some (files w !! q)) →
  Fs.below_file p w = false → Fs.below_file p w' = false.
Proof.
  intros Hsub. unfold Fs.below_file. induction (Path.parents p) as [|q qs IH]; [done|].
  cbn [existsb]. intros [Hq Hqs]%orb_false_elim. rewrite (IH Hqs), orb_false_r.
  apply bool_decide_eq_false_2. apply bool_decide_eq_false_1 in Hq. auto.
Qed.

(** X12. An installation that fails leaves no record behind. The target has
    a name and a version that are plain path segments, no regular file
    stands on the way to its metadata, and its slot holds no usable record
    and nothing that cannot be read. When the installer exits with a
    non-zero code, [ensureInstalled] fails with the error of [runCommand]
    that carries the command line and the code; the slot then holds its
    directory and no record, and the next run on it, whatever the
    surroundings, installs again. *)
Theorem failed_install_is_retried env t registry w code :
  child_end env = Exit code → code ≠ 0 →
  plain_target t → Fs.below_file (meta_path home t) w = false →
  ¬ unreadable home t w → cache_miss home t w → slot_orderly home t w →
  let r := ensureInstalled home env t registry w in
  r.1 = Err (CommandFailed ("npm " +:+ join_spaces (npm_argv home t registry)) code)
  ∧ Fs.exists_ (install_path home t) r.2 = true
  ∧ stored_record home t r.2 = None
  ∧ ∀ env' registry',
      ensureInstalled home env' t registry' r.2 = after_install home t env' registry' r.2.
Proof.
  intros Hend Hcode _ Hway Hread Hmiss Horder r.
  assert (r = after_install home t env registry w) as Hr.
  { by apply ensure_miss. }
  assert (Fs.below_file (meta_path home t) r.2 = false) as Hway'.
  { apply (below_file_kept _ w); [|done]. intros q [c Hc]. rewrite Hr in Hc.
    revert Hc. unfold after_install. rewrite Hend.
    assert ((if Fs.exists_ (install_path home t) w
             then filter (λ kv, ¬ Is_true (Path.under (install_path home t) kv.1)) (files w)
             else files w) !! q = Some c → is_Some (files w !! q)) as Hin.
    { destruct (Fs.exists_ (install_path home t) w); [|by eauto].
      intros [H _]%map_lookup_filter_Some. by eauto. }
    destruct code; [by destruct Hcode|..]; cbn [snd files]; by apply Hin. }
  assert (files r.2 !! meta_path home t = None ∧ (meta_path home t ∉ dirs r.2)
          ∧ install_path home t ∈ dirs r.2) as (Hfile & Hdir & Hslot).
  { assert (install_path home t ∈ dirs r.2) as Hslot.
    { rewrite Hr. unfold after_install. rewrite Hend.
      destruct code; [done|..]; cbn [snd dirs];
        apply elem_of_union; left; by apply elem_of_singleton. }
    assert (dirs r.2 = {[ install_path home t ]}
                       ∪ (if Fs.exists_ (install_path home t) w
                          then filter (λ q, ¬ Is_true (Path.under (install_path home t) q))
                                 ({[ State.AGENTS_DIR home ]} ∪ dirs w)
                          else {[ State.AGENTS_DIR home ]} ∪ dirs w)
            ∧ files r.2 = if Fs.exists_ (install_path home t) w
                          then filter (λ kv, ¬ Is_true (Path.under (install_path home t) kv.1))
                                 (files w)
                          else files w) as [HD HF].
    { rewrite Hr. unfold after_install. rewrite Hend. by destruct code. }
    rewrite HD, HF. split; [|split; [|by rewrite <- HD]].
    - destruct (Fs.exists_ (install_path home t) w) eqn:Hhad.
      + apply map_lookup_filter_None_2. right. intros c' _. cbn [fst].
        rewrite meta_under. by intros [].
      + by destruct (Horder Hhad).
    - rewrite elem_of_union, elem_of_singleton. intros [Heq|Hin].
      { by apply meta_path_neq_install in Heq. }
      destruct (Fs.exists_ (install_path home t) w) eqn:Hhad.
      + by apply (not_under_self_filter _ _ _ (meta_under t)) in Hin.
      + destruct (Horder Hhad) as [_ Hd].
        apply elem_of_union in Hin as [Heq|Hin]; [|done].
        apply elem_of_singleton in Heq. by apply meta_path_not_base in Heq. }
  assert (stored_record home t r.2 = None) as Hnone.
  { unfold stored_record. rewrite Hfile. by destruct (Fs.exists_ _ _). }
  split.
  { rewrite Hr. unfold after_install. rewrite Hend. by destruct code. }
  split; [by apply exists_dir|].
  split; [done|].
  intros env' registry'. apply ensure_miss.
  - intros [_ [Hbad|[_ [Hbad|Hbad]]]]; [congruence|done|congruence].
  - unfold cache_miss. by rewrite Hnone.
Qed.

End facts.

(** An installation of codex 0.1.0 leaves the state file as it is. *)
Lemma ensureInstalled_frame_witness :
  files (ensureInstalled "/home/u/.avm" Samples.good_day (Samples.codex_target "") None
           Samples.checked_world).2 !! State.STATE_FILE "/home/u/.avm"
  = files Samples.checked_world !! State.STATE_FILE "/home/u/.avm".
Proof.
  destruct (ensureInstalled_frame "/home/u/.avm" Samples.good_day
              (Samples.codex_target "") None Samples.checked_world) as (_ & _ & Hstate).
  - by repeat split.
  - exact Hstate.
Defined.

Lemma failed_install_is_retried_witness :
  let home := "/home/u/.avm" in
  let env := Scenes.bad_day in
  let t := Samples.codex_target "" in
  let r := ensureInstalled home env t None Samples.empty_world in
  r.1 = Err (CommandFailed ("npm " +:+ join_spaces (npm_argv home t None)) 1)
  ∧ Fs.exists_ (install_path home t) r.2 = true
  ∧ stored_record home t r.2 = None
  ∧ ∀ env' registry',
      ensureInstalled home env' t registry' r.2 = after_install home t env' registry' r.2.
Proof.
  apply (failed_install_is_retried "/home/u/.avm" Scenes.bad_day
           (Samples.codex_target "") None Samples.empty_world 1).
  - reflexivity.
  - lia.
  - by repeat split.
  - reflexivity.
  - by intros [H _].
  - exact I.
  - intros _. split; [reflexivity|]. intros H. by apply elem_of_empty in H.
Defined.

End StoreFacts.

(** ** install.js: binary discovery *)

Module DiscoveryFacts.
Import Js JsFacts TextFacts Discovery.

Lemma same_fs_exists w w' p : same_fs w w' → Fs.exists_ p w' = Fs.exists_ p w.
Proof. intros [Hd Hf]. unfold Fs.exists_. by rewrite Hd, Hf. Qed.

Lemma same_fs_log w msg :
  same_fs w {| dirs := dirs w; files := files w; trace := trace w ++ [Log msg] |}.
Proof. done. Qed.

(** Reading the manifest never fails and changes no file: what cannot be
    read counts as a manifest without entry. *)
Lemma read_bin_run p w :
  ∃ w', read_bin p w = (Ok (manifest_bin p w), w') ∧ same_fs w w'.
Proof.
  unfold read_bin, manifest_bin, io_catch, io_bind, Fs.readFile.
  destruct (files w !! p) as [[|parsed]|] eqn:Hfile.
  - eexists. split; [reflexivity|apply same_fs_log].
  - unfold io_lift. destruct (declared_bin parsed) as [b|e] eqn:Hbin.
    + exists w. by split.
    + destruct e as [| | | | | |code| |]; try (eexists; split; [reflexivity|apply same_fs_log]).
      unfold declared_bin, Commands.member in Hbin.
      destruct parsed; simpl in Hbin; try done;
        repeat (match type of Hbin with
                | context [match ?x with _ => _ end] => destruct x
                end; simpl in Hbin; try done).
  - case_bool_decide; [|destruct (Fs.below_file p w)]; eexists;
      (split; [reflexivity|]); [apply same_fs_log..|done].
Qed.

Lemma declared_candidate_run dir b w :
  declared_candidate dir b w
  = (match b with
     | Some (JStr rel) =>
         Ok (if nonempty rel && Fs.exists_ (Path.join dir rel) w
             then Some (Path.join dir rel) else None)
     | Some j => if Json.truthy j then Err TypeError else Ok None
     | None => Ok None
     end, w).
Proof.
  unfold declared_candidate.
  destruct b as [[|[]|n|rel| |]|]; try done.
  - simpl. by destruct (n =? 0).
  - simpl. destruct (nonempty rel); [|done].
    unfold io_bind, State.pathExists, io_ret. by destruct (Fs.exists_ _ w).
Qed.

(** The run of [findAgentBinary]: the declared entry when it is a
    non-empty string and its file exists, else the link in [.bin] when it
    exists. *)
Lemma findAgentBinary_run installPath packageName w :
  let dir := package_dir installPath packageName in
  let link := bin_link installPath packageName in
  let fallback := if Fs.exists_ link w then Some link else None in
  ∃ w', same_fs w w'
    ∧ findAgentBinary installPath packageName w
      = (match manifest_bin (Path.join dir "package.json") w with
         | Some (JStr rel) =>
             Ok (if nonempty rel && Fs.exists_ (Path.join dir rel) w
                 then Some (Path.join dir rel) else fallback)
         | Some j => if Json.truthy j then Err TypeError else Ok fallback
         | None => Ok fallback
         end, w').
Proof.
  intros dir link fallback. unfold findAgentBinary. fold dir. fold link.
  destruct (read_bin_run (Path.join dir "package.json") w) as (w' & Hread & Hsame).
  exists w'. split; [done|].
  unfold io_bind at 1. rewrite Hread.
  unfold io_bind at 1. rewrite declared_candidate_run.
  assert ((let* there := State.pathExists link in
           io_ret (if there : bool then Some link else None)) w'
          = (Ok fallback, w')) as Hfall.
  { unfold io_bind, State.pathExists, io_ret. by rewrite (same_fs_exists w w'). }
  destruct (manifest_bin _ w) as [[|[]|n|rel| |]|]; try done.
  - cbn [Json.truthy]. by destruct (negb (n =? 0)).
  - rewrite (same_fs_exists w w') by done.
    by destruct (nonempty rel && Fs.exists_ (Path.join dir rel) w).
Qed.

Ltac split_ifs :=
  repeat match goal with
         | |- context [if ?b then _ else _] => destruct b eqn:?
         end.

Lemma pop_app xs x : pop (xs ++ [x]) = x.
Proof.
  induction xs as [|y xs IH]; [done|].
  assert (xs ++ [x] ≠ []) as Hne by (by destruct xs).
  change ((y :: xs) ++ [x]) with (y :: (xs ++ [x])).
  revert IH Hne. generalize (xs ++ [x]). by intros [|z zs] IH Hne.
Qed.

(** The link of a scoped package is named after the part behind the
    scope. *)
Lemma bin_link_scoped installPath scope n :
  includes "/" n = false →
  bin_link installPath (scope +:+ String "/" n)
  = Path.join (Path.join (Path.join installPath "node_modules") ".bin") n.
Proof.
  intros Hn. unfold bin_link.
  rewrite includes_app. cbn [includes Ascii.eqb Bool.eqb]. rewrite orb_true_r.
  rewrite split_app_any, (split_clean "/" n) by done. by rewrite pop_app.
Qed.

(** X13. [findAgentBinary] only looks: it changes no file and no
    directory; a path that it returns exists; it returns nothing only when
    the link in [node_modules/.bin] does not exist; and it fails in one way
    only, with a TypeError, when the manifest declares an entry that is
    truthy and not a string. A manifest that is missing, that does not
    parse or that holds [null] is no error: the link in [.bin] decides, and
    for a scoped package that link is named after the part behind the
    scope. *)
Theorem findAgentBinary_sound installPath packageName w :
  let r := findAgentBinary installPath packageName w in
  let manifest := Path.join (package_dir installPath packageName) "package.json" in
  same_fs w r.2
  ∧ (∀ p, r.1 = Ok (Some p) → Fs.exists_ p w = true)
  ∧ (r.1 = Ok None → Fs.exists_ (bin_link installPath packageName) w = false)
  ∧ (∀ e, r.1 = Err e →
       e = TypeError
       ∧ ∃ j, manifest_bin manifest w = Some j ∧ Json.truthy j = true
              ∧ ∀ rel, j ≠ JStr rel)
  ∧ ((∀ parsed, files w !! manifest = Some (Doc parsed) → parsed = JNull) →
     r.1 = Ok (if Fs.exists_ (bin_link installPath packageName) w
               then Some (bin_link installPath packageName) else None))
  ∧ (∀ scope n, includes "/" n = false →
       bin_link installPath (scope +:+ String "/" n)
       = Path.join (Path.join (Path.join installPath "node_modules") ".bin") n).
Proof.
  intros r manifest.
  destruct (findAgentBinary_run installPath packageName w) as (w' & Hsame & Hrun).
  cbv zeta in Hrun. fold manifest in Hrun. fold r in Hrun.
  set (dir := package_dir installPath packageName) in *.
  set (link := bin_link installPath packageName) in *.
  rewrite Hrun. cbn [fst snd]. split; [done|].
  split.
  { intros p. destruct (manifest_bin manifest w) as [[|[]|n|rel| |]|]; cbn [Json.truthy];
      split_ifs; try done; intros [= <-]; try done.
    by match goal with H : _ && _ = true |- _ => apply andb_prop in H as [_ H] end. }
  split.
  { destruct (manifest_bin manifest w) as [[|[]|n|rel| |]|]; cbn [Json.truthy];
      split_ifs; done. }
  split.
  { intros e. destruct (manifest_bin manifest w) as [[|[]|n|rel| |]|] eqn:Hb;
      cbn [Json.truthy]; split_ifs; try done; intros [= <-]; (split; [done|]);
      eexists; (split; [reflexivity|]); by split. }
  split; [|intros scope n; apply bin_link_scoped].
  intros Hnull.
  assert (manifest_bin manifest w = None) as ->; [|done].
  unfold manifest_bin. destruct (files w !! manifest) as [[|parsed]|] eqn:Hfile; try done.
  by rewrite (Hnull parsed eq_refl).
Qed.

(** X14. The entry that the manifest declares goes before the link in
    [.bin]: when the manifest declares a string (directly, or as the first
    value of its [bin] object, a key that is an array index going before
    the others) and the file that it names exists, [findAgentBinary]
    returns that file without any other effect. The package name and the
    declared entry are relative paths of plain segments, which [path.join]
    leaves as they are. For a scoped package the link is looked up under
    the name after the scope. *)
Theorem findAgentBinary_prefers_declared installPath packageName w parsed rel :
  plain_path packageName → plain_path rel →
  files w !! Path.join (package_dir installPath packageName) "package.json"
  = Some (Doc parsed) →
  declared_bin parsed = Ok (Some (JStr rel)) →
  Fs.exists_ (Path.join (package_dir installPath packageName) rel) w = true →
  findAgentBinary installPath packageName w
  = (Ok (Some (Path.join (package_dir installPath packageName) rel)), w)
  ∧ declared_bin Scenes.indexed_bin = Ok (Some (JStr "bin/seven.js"))
  ∧ declared_bin (JObj [("bin", JArr [JStr "a.js"; JStr "b.js"])]) = Ok (Some (JStr "a.js"))
  ∧ declared_bin (JObj [("bin", JStr "cli.js")]) = Ok (Some (JStr "cli.js")).
Proof.
  intros _ Hplain Hfile Hbin Hthere. split; [|by repeat split].
  assert (rel ≠ "") as Hrel.
  { intros ->. apply Forall_inv in Hplain. by destruct Hplain as (_ & ? & _). }
  unfold findAgentBinary.
  unfold io_bind at 1.
  assert (read_bin (Path.join (package_dir installPath packageName) "package.json") w
          = (Ok (Some (JStr rel)), w)) as ->.
  { unfold read_bin, io_catch, io_bind, Fs.readFile. rewrite Hfile.
    unfold io_lift. by rewrite Hbin. }
  unfold io_bind at 1. rewrite declared_candidate_run, Hthere.
  apply nonempty_true in Hrel. by rewrite Hrel.
Qed.

Lemma findAgentBinary_prefers_declared_witness :
  findAgentBinary "/s" "@openai/codex" Scenes.bin_world
  = (Ok (Some (Path.join (package_dir "/s" "@openai/codex") "bin/codex.js")),
     Scenes.bin_world).
Proof.
  apply (findAgentBinary_prefers_declared "/s" "@openai/codex" Scenes.bin_world
           (JObj [("name", JStr "@openai/codex");
                  ("bin", JObj [("codex", JStr "bin/codex.js")])])).
  - by repeat constructor.
  - by repeat constructor.
  - reflexivity.
  - reflexivity.
  - reflexivity.
Defined.

End DiscoveryFacts.

(** ** commands.js: the project configuration *)

Module ConfigFacts.
Import JsFacts Agents AgentsFacts Commands Actions StateFacts.

Lemma or_lit_cases a d : Json.truthy (Json.or_lit a d) = true ∨ Json.or_lit a d = d.
Proof.
  destruct a as [j|]; [|by right]. simpl. destruct (Json.truthy j) eqn:E; [by left|by right].
Qed.

Lemma load_section_normal value : normal_section (load_section value).
Proof. unfold normal_section, load_section. cbn. repeat split; apply or_lit_cases. Qed.

Lemma load_default_supported parsed d :
  load_default parsed = Ok (Some d) → d ∈ SUPPORTED_AGENTS.
Proof.
  unfold load_default. destruct (member parsed "default") as [[v|]|]; cbn; [|done..].
  destruct (_ && _); [|done].
  destruct (normalizeJson _) as [n|]; cbn; [|done].
  unfold assertSupportedAgent. case_decide; cbn; [|done]. by intros [= <-].
Qed.

Lemma load_normal_sections entries acc m :
  load_sections entries acc = Ok m → normal_sections acc → normal_sections m.
Proof.
  revert acc. induction entries as [|[k v] entries IH]; intros acc; cbn [load_sections].
  { by intros [= <-]. }
  destruct (String.eqb k "default"); [apply IH|].
  destruct (Json.truthy v && is_object v); [|apply IH].
  destruct (negb (Js.nonempty (normalizeAgentName (Some k)))); [apply IH|].
  unfold assertSupportedAgent. case_decide as Hs; cbn; [|done].
  intros Hm Hacc. apply (IH _ Hm). intros k' s'.
  rewrite lookup_insert. case_decide as Hk.
  - intros [= <-]. subst k'. split; [done|apply load_section_normal].
  - apply Hacc.
Qed.

(** What [findConfigFile] returns: the nearest candidate that exists, or
    nothing when no directory up to the root has one. *)
Lemma findConfigFile_spec cwd w :
  (∃ k, (k ≤ List.length cwd)%nat
        ∧ (∀ i, (i < k)%nat → Fs.exists_ (candidate (drop i cwd)) w = false)
        ∧ Fs.exists_ (candidate (drop k cwd)) w = true
        ∧ findConfigFile cwd w = (Ok (Some (candidate (drop k cwd))), w))
  ∨ ((∀ i, (i ≤ List.length cwd)%nat → Fs.exists_ (candidate (drop i cwd)) w = false)
     ∧ findConfigFile cwd w = (Ok None, w)).
Proof.
  induction cwd as [|d cwd IH].
  - destruct (Fs.exists_ (candidate []) w) eqn:E.
    + left. exists 0%nat. split; [done|]. split; [intros i Hi; lia|]. split; [done|].
      cbn [findConfigFile]. unfold io_bind, State.pathExists. by rewrite E.
    + right. split.
      * intros i Hi. simpl in Hi. by replace i with 0%nat by lia.
      * cbn [findConfigFile]. unfold io_bind, State.pathExists. by rewrite E.
  - destruct (Fs.exists_ (candidate (d :: cwd)) w) eqn:E.
    + left. exists 0%nat. split; [lia|]. split; [intros i Hi; lia|]. split; [done|].
      cbn [findConfigFile]. unfold io_bind, State.pathExists. by rewrite E.
    + destruct IH as [(k & Hk & Hbelow & Hhere & Hfind)|[Hnone Hfind]].
      * left. exists (S k). split; [simpl; lia|]. split.
        { intros [|i] Hi; [done|]. apply Hbelow. lia. }
        split; [done|].
        cbn [findConfigFile]. unfold io_bind, State.pathExists. by rewrite E.
      * right. split.
        { intros [|i] Hi; [done|]. apply Hnone. simpl in Hi. lia. }
        cbn [findConfigFile]. unfold io_bind, State.pathExists. by rewrite E.
Qed.

(** The run of [loadProjectConfig] on a configuration file that was
    found. *)
Lemma load_found cwd w f :
  findConfigFile cwd w = (Ok (Some f), w) →
  loadProjectConfig cwd w
  = (match files w !! f with
     | Some (Doc parsed) =>
         match load_default parsed, load_sections (Json.own_props parsed) ∅ with
         | Ok dflt, Ok agents =>
             Ok {| pr_default := dflt; pr_agents := agents; pr_path := Some f |}
         | _, _ => Err (ConfigParseError f)
         end
     | _ => Err (ConfigParseError f)
     end, w).
Proof.
  intros Hfind. unfold loadProjectConfig. unfold io_bind at 1. rewrite Hfind.
  unfold io_catch, io_bind, Fs.readFile.
  destruct (files w !! f) as [[|parsed]|];
    [done| |case_bool_decide; [done|]; by destruct (Fs.below_file f w)].
  unfold io_lift. destruct (load_default parsed); cbn; [|done].
  by destruct (load_sections _ _).
Qed.

Lemma loadProjectConfig_world cwd w : (loadProjectConfig cwd w).2 = w.
Proof.
  destruct (findConfigFile_spec cwd w) as [(k & _ & _ & _ & Hfind)|[_ Hfind]].
  - by rewrite (load_found _ _ _ Hfind).
  - by rewrite (loadProjectConfig_missing _ _ Hfind).
Qed.

Lemma loadProjectConfig_normal cwd w p :
  (loadProjectConfig cwd w).1 = Ok p → normal_project p.
Proof.
  destruct (findConfigFile_spec cwd w) as [(k & _ & _ & _ & Hfind)|[_ Hfind]].
  - rewrite (load_found _ _ _ Hfind). cbn [fst].
    destruct (files w !! _) as [[|parsed]|]; [done| |done].
    destruct (load_default parsed) as [dflt|] eqn:Hd; [|done].
    destruct (load_sections _ _) as [agents|] eqn:Hs; [|done].
    intros [= <-]. split; cbn.
    + intros d ->. by apply load_default_supported in Hd.
    + apply (load_normal_sections _ _ _ Hs). intros k' s'. by rewrite lookup_empty.
  - rewrite (loadProjectConfig_missing _ _ Hfind). intros [= <-].
    split; cbn; [done|]. intros k' s'. by rewrite lookup_empty.
Qed.

(** Where the configuration that was loaded comes from. *)
Lemma loaded_path cwd w p :
  (loadProjectConfig cwd w).1 = Ok p →
  match pr_path p with
  | Some f =>
      ∃ k, (k ≤ List.length cwd)%nat ∧ f = candidate (drop k cwd)
           ∧ Fs.exists_ f w = true
           ∧ ∀ i, (i < k)%nat → Fs.exists_ (candidate (drop i cwd)) w = false
  | None =>
      p = empty_project
      ∧ ∀ i, (i ≤ List.length cwd)%nat → Fs.exists_ (candidate (drop i cwd)) w = false
  end.
Proof.
  intros Hp.
  destruct (findConfigFile_spec cwd w) as [(k & Hk & Hbelow & Hhere & Hfind)|[Hnone Hfind]].
  - rewrite (load_found _ _ _ Hfind) in Hp. cbn [fst] in Hp.
    destruct (files w !! _) as [[|parsed]|]; [done| |done].
    destruct (load_default parsed) as [dflt|]; [|done].
    destruct (load_sections _ _) as [agents|]; [|done].
    injection Hp as <-. cbn. by exists k.
  - rewrite (loadProjectConfig_missing _ _ Hfind) in Hp. by injection Hp as <-.
Qed.

(** The result of [loadProjectConfig] depends on the directories and the
    files only. *)
Lemma load_same_fs cwd w w' :
  Discovery.same_fs w w' → (loadProjectConfig cwd w').1 = (loadProjectConfig cwd w).1.
Proof.
  intros [Hd Hf].
  assert (∀ q, Fs.exists_ q w' = Fs.exists_ q w) as Hex.
  { intros q. unfold Fs.exists_. by rewrite Hd, Hf. }
  destruct (findConfigFile_spec cwd w) as [(k & Hk & Hbelow & Hhere & Hfind)|[Hnone Hfind]].
  - rewrite (load_found _ _ _ Hfind).
    rewrite (load_found cwd w' (candidate (drop k cwd))).
    + by rewrite Hf.
    + apply findConfigFile_nearest; [done| |by rewrite Hex].
      intros i Hi. rewrite Hex. by apply Hbelow.
  - rewrite (loadProjectConfig_missing _ _ Hfind).
    rewrite (loadProjectConfig_missing cwd w'); [done|].
    apply findConfigFile_missing. intros i Hi. rewrite Hex. by apply Hnone.
Qed.

(** X15. [loadProjectConfig] only reads. What it returns is well formed:
    the default tool, when there is one, and the name of every section are
    supported names, every field of a section holds a truthy value or its
    default, and the path is the nearest configuration file, present
    exactly when one was found. Whatever goes wrong while the file is read
    or interpreted is reported as a ConfigParseError on the nearest
    configuration file: no directory nearer to the working directory has
    one. *)
Theorem loadProjectConfig_wellformed cwd w :
  (loadProjectConfig cwd w).2 = w
  ∧ (∀ p, (loadProjectConfig cwd w).1 = Ok p →
       normal_project p
       ∧ match pr_path p with
         | Some f =>
             ∃ k, (k ≤ List.length cwd)%nat ∧ f = candidate (drop k cwd)
                  ∧ Fs.exists_ f w = true
                  ∧ ∀ i, (i < k)%nat → Fs.exists_ (candidate (drop i cwd)) w = false
         | None =>
             p = empty_project
             ∧ ∀ i, (i ≤ List.length cwd)%nat →
                    Fs.exists_ (candidate (drop i cwd)) w = false
         end)
  ∧ (∀ e, (loadProjectConfig cwd w).1 = Err e →
       ∃ k, (k ≤ List.length cwd)%nat ∧ e = ConfigParseError (candidate (drop k cwd))
            ∧ Fs.exists_ (candidate (drop k cwd)) w = true
            ∧ ∀ i, (i < k)%nat → Fs.exists_ (candidate (drop i cwd)) w = false).
Proof.
  split; [apply loadProjectConfig_world|].
  split.
  - intros p Hp. split; [by eapply loadProjectConfig_normal|by apply loaded_path].
  - intros e He.
    destruct (findConfigFile_spec cwd w) as [(k & Hk & Hbelow & Hhere & Hfind)|[Hnone Hfind]].
    + rewrite (load_found _ _ _ Hfind) in He. cbn [fst] in He. exists k.
      split; [done|]. split; [|done].
      destruct (files w !! _) as [[|parsed]|]; [by injection He| |by injection He].
      destruct (load_default parsed) as [dflt|]; [|by injection He].
      destruct (load_sections _ _) as [agents|]; [done|by injection He].
    + by rewrite (loadProjectConfig_missing _ _ Hfind) in He.
Qed.

Lemma find_from_nearest cwd w k :
  Fs.exists_ (candidate (drop k cwd)) w = true →
  findConfigFile (drop k cwd) w = (Ok (Some (candidate (drop k cwd))), w).
Proof.
  intros Hhere. apply (findConfigFile_nearest (drop k cwd) w 0); [lia| |done].
  intros i Hi. lia.
Qed.

(** X16. The nearest configuration file shadows the ones above it: from a
    directory below the nearest file, [loadProjectConfig] does what it does
    from the directory of that file; nothing of a configuration further up
    is merged in. *)
Theorem loadProjectConfig_nearest_shadows cwd w k :
  (k ≤ List.length cwd)%nat →
  (∀ i, (i < k)%nat → Fs.exists_ (candidate (drop i cwd)) w = false) →
  Fs.exists_ (candidate (drop k cwd)) w = true →
  loadProjectConfig cwd w = loadProjectConfig (drop k cwd) w.
Proof.
  intros Hk Hbelow Hhere.
  rewrite (load_found cwd w (candidate (drop k cwd)))
    by by apply findConfigFile_nearest.
  by rewrite (load_found (drop k cwd) w (candidate (drop k cwd)))
    by by apply find_from_nearest.
Qed.

Lemma loadProjectConfig_nearest_shadows_witness :
  loadProjectConfig ["src"; "proj"] Scenes.nested_world
  = loadProjectConfig (drop 1 ["src"; "proj"]) Scenes.nested_world.
Proof.
  apply (loadProjectConfig_nearest_shadows ["src"; "proj"] Scenes.nested_world 1).
  - simpl. lia.
  - intros [|i] Hi; [reflexivity|lia].
  - reflexivity.
Defined.

End ConfigFacts.

(** ** commands.js: writing the project configuration *)

Module LocalFacts.
Import JsFacts Agents AgentsFacts Commands Actions StateFacts ConfigFacts ResolutionFacts.

Lemma set_fresh k v (ps : list (string * json)) :
  k ∉ ps.*1 → Json.set k v ps = ps ++ [(k, v)].
Proof.
  induction ps as [|[k' v'] ps IH]; [done|]. cbn [Json.set fmap list_fmap fst].
  intros Hk. apply not_elem_of_cons in Hk as [Hne Hk].
  destruct (String.eqb_spec k' k) as [->|_]; [done|]. by rewrite IH.
Qed.

(** The object that [writeProjectConfig] builds, for sections of distinct
    names that are not taken yet. *)
Lemma fold_set_fresh (l : list (string * section)) (data : list (string * json)) :
  NoDup l.*1 → (∀ k, k ∈ l.*1 → k ∉ data.*1) →
  fold_left (λ data kv, Json.set kv.1 (section_json kv.2) data) l data
  = data ++ map (λ kv, (kv.1, section_json kv.2)) l.
Proof.
  revert data. induction l as [|[k s] l IH]; intros data Hnd Hfresh.
  { by rewrite app_nil_r. }
  cbn [fold_left map fst snd]. cbn [fmap list_fmap fst] in Hnd, Hfresh.
  apply NoDup_cons in Hnd as [Hk Hnd].
  rewrite set_fresh by (apply Hfresh; left).
  rewrite IH; [by rewrite <- app_assoc|done|].
  intros k' Hk'. rewrite fmap_app. cbn [fmap list_fmap fst].
  rewrite elem_of_app, list_elem_of_singleton. intros [Hin| ->]; [|done].
  by apply (Hfresh k'); [right|].
Qed.

Lemma section_json_object s :
  Json.truthy (section_json s) && is_object (section_json s) = true.
Proof. reflexivity. Qed.

Lemma load_section_json s : normal_section s → load_section (section_json s) = s.
Proof.
  destruct s as [p v a]. unfold normal_section. cbn [sec_package sec_version sec_args].
  intros (Hp & Hv & Ha). unfold section_json, load_section.
  cbn [sec_package sec_version sec_args].
  destruct Hp as [Hp| ->], Hv as [Hv| ->], Ha as [Ha| ->];
    rewrite ?Hp, ?Hv, ?Ha; cbn; unfold Json.or, Json.truthy_opt, Json.or_lit;
    rewrite ?Hp, ?Hv, ?Ha; cbn; rewrite ?Hp, ?Hv, ?Ha; reflexivity.
Qed.

Lemma supported_normal k : k ∈ SUPPORTED_AGENTS → normalizeAgentName (Some k) = k.
Proof. intros [-> | [-> | ->]]%supported_iff; reflexivity. Qed.

Lemma supported_not_default k : k ∈ SUPPORTED_AGENTS → String.eqb k "default" = false.
Proof. intros [-> | [-> | ->]]%supported_iff; reflexivity. Qed.

Lemma supported_nonempty k : k ∈ SUPPORTED_AGENTS → Js.nonempty k = true.
Proof. intros [-> | [-> | ->]]%supported_iff; reflexivity. Qed.

(** Reading back the sections that were written. *)
Lemma load_written_sections (l : list (string * section)) acc :
  (∀ k s, (k, s) ∈ l → k ∈ SUPPORTED_AGENTS ∧ normal_section s) →
  load_sections (map (λ kv, (kv.1, section_json kv.2)) l) acc
  = Ok (fold_left (λ acc kv, <[ kv.1 := kv.2 ]> acc) l acc).
Proof.
  revert acc. induction l as [|[k s] l IH]; intros acc Hok; [done|].
  cbn [map fold_left load_sections fst snd].
  destruct (Hok k s) as [Hk Hs]; [left|].
  rewrite (supported_not_default k Hk), section_json_object, (supported_normal k Hk),
    (supported_nonempty k Hk).
  cbn [negb]. unfold assertSupportedAgent. rewrite decide_True by done.
  cbn [mbind result_bind]. rewrite (load_section_json s Hs).
  apply IH. intros k' s' Hin. apply Hok. by right.
Qed.

Lemma fold_insert_lookup (l : list (string * section)) (acc : gmap string section) k :
  NoDup l.*1 →
  fold_left (λ acc kv, <[ kv.1 := kv.2 ]> acc) l acc !! k
  = match (list_to_map l : gmap string section) !! k with
    | Some s => Some s
    | None => acc !! k
    end.
Proof.
  revert acc. induction l as [|[k' s'] l IH]; intros acc Hnd; [done|].
  cbn [fmap list_fmap fst] in Hnd. apply NoDup_cons in Hnd as [Hk Hnd].
  cbn [fold_left fst snd list_to_map foldr]. rewrite IH by done.
  change (foldr (λ '(k, s) m, <[k:=s]> m) ∅ l) with (list_to_map l : gmap string section).
  destruct (decide (k = k')) as [->|Hne].
  - rewrite (not_elem_of_list_to_map_1 _ k') by done.
    by rewrite !lookup_insert_eq.
  - rewrite (lookup_insert_ne (list_to_map l)) by done.
    by rewrite lookup_insert_ne by done.
Qed.

Lemma fold_insert_map (m : gmap string section) :
  fold_left (λ acc kv, <[ kv.1 := kv.2 ]> acc) (map_to_list m) ∅ = m.
Proof.
  apply map_eq. intros k.
  rewrite fold_insert_lookup by apply NoDup_fst_map_to_list.
  rewrite list_to_map_to_list, lookup_empty. by destruct (m !! k).
Qed.

Lemma load_default_written d rest :
  d ∈ SUPPORTED_AGENTS →
  load_default (JObj (("default", JObj [("name", JStr d)]) :: rest)) = Ok (Some d).
Proof. intros [-> | [-> | ->]]%supported_iff; reflexivity. Qed.

(** What the file written for a well-formed configuration reads as. *)
Lemma config_json_loads p :
  normal_project p →
  load_default (config_json p) = Ok (pr_default p)
  ∧ load_sections (Json.own_props (config_json p)) ∅ = Ok (pr_agents p).
Proof.
  intros [Hd Hs]. unfold config_json.
  assert (∀ k, k ∈ (map_to_list (pr_agents p)).*1 → k ∈ SUPPORTED_AGENTS) as Hkeys.
  { intros k Hk. apply list_elem_of_fmap in Hk as ([k' s] & -> & Hin).
    apply elem_of_map_to_list in Hin. by destruct (Hs k' s Hin). }
  assert (∀ k s, (k, s) ∈ map_to_list (pr_agents p) →
                 k ∈ SUPPORTED_AGENTS ∧ normal_section s) as Hall.
  { intros k s Hin. apply elem_of_map_to_list in Hin. by apply Hs. }
  assert (Json.assoc "default" (map (λ kv, (kv.1, section_json kv.2))
                                    (map_to_list (pr_agents p))) = None) as Hnodef.
  { destruct (Json.assoc "default" _) as [v|] eqn:E; [|done].
    apply JsonFacts.assoc_Some_elem_of in E.
    apply list_elem_of_fmap in E as ([k s] & [= <- _] & Hin).
    destruct (Hall _ _ Hin) as [Hk _]. by apply supported_not_default in Hk. }
  rewrite fold_set_fresh; [|apply NoDup_fst_map_to_list|].
  2:{ intros k Hk Hin. apply Hkeys in Hk.
      destruct (pr_default p) as [d|]; [|by apply elem_of_nil in Hin].
      destruct (Js.nonempty d); [|by apply elem_of_nil in Hin].
      cbn in Hin. apply list_elem_of_singleton in Hin as ->.
      by apply supported_not_default in Hk. }
  destruct (pr_default p) as [d|] eqn:Hdef.
  - pose proof (Hd d eq_refl) as Hsup.
    rewrite (supported_nonempty d Hsup). split.
    + apply load_default_written, Hsup.
    + cbn [Json.own_props app load_sections String.eqb Ascii.eqb Bool.eqb].
      rewrite load_written_sections by done. by rewrite fold_insert_map.
  - split.
    + unfold load_default. cbn [member Json.get app]. by rewrite Hnodef.
    + cbn [Json.own_props app]. rewrite load_written_sections by done.
      by rewrite fold_insert_map.
Qed.

Lemma path_of_length d cwd :
  (String.length (path_of cwd) < String.length (path_of (d :: cwd)))%nat.
Proof. cbn [path_of]. rewrite !InstallFacts.string_length_app. simpl. lia. Qed.

Lemma path_of_drop_length cwd i k :
  (i < k)%nat → (k ≤ List.length cwd)%nat →
  (String.length (path_of (drop k cwd)) < String.length (path_of (drop i cwd)))%nat.
Proof.
  revert i k. induction cwd as [|d cwd IH]; intros i k Hik Hk; [simpl in Hk; lia|].
  destruct k as [|k]; [lia|]. simpl in Hk. destruct i as [|i].
  - cbn [drop]. pose proof (path_of_length d cwd) as Hd.
    destruct k as [|k]; [by rewrite drop_0|].
    pose proof (IH 0%nat (S k) ltac:(lia) ltac:(lia)) as Hlt. rewrite drop_0 in Hlt. lia.
  - cbn [drop]. apply IH; lia.
Qed.

Lemma candidate_drop_neq cwd i k :
  (i < k)%nat → (k ≤ List.length cwd)%nat →
  candidate (drop i cwd) ≠ candidate (drop k cwd).
Proof.
  intros Hik Hk Heq. pose proof (path_of_drop_length cwd i k Hik Hk) as Hlt.
  unfold candidate, Path.join in Heq. apply (f_equal String.length) in Heq.
  rewrite !InstallFacts.string_length_app in Heq. lia.
Qed.

Lemma exists_after_write q f data w :
  q ≠ f → Fs.exists_ q (Fs.writeFile f data w).2 = Fs.exists_ q w.
Proof.
  intros Hq. unfold Fs.exists_, Fs.writeFile. cbn [snd dirs files].
  by rewrite lookup_insert_ne.
Qed.

Lemma exists_written f data w : Fs.exists_ f (Fs.writeFile f data w).2 = true.
Proof.
  unfold Fs.exists_, Fs.writeFile. cbn [snd dirs files].
  rewrite lookup_insert_eq. rewrite (bool_decide_eq_true_2 (is_Some _)) by eauto.
  apply orb_true_r.
Qed.

(** Writing a well-formed configuration at the place of the nearest
    configuration file, or where no file shadows it, and loading it. *)
Lemma write_then_load p cwd k w :
  normal_project p → (k ≤ List.length cwd)%nat →
  (∀ i, (i < k)%nat → Fs.exists_ (candidate (drop i cwd)) w = false) →
  loadProjectConfig cwd (writeProjectConfig p (candidate (drop k cwd)) w).2
  = (Ok {| pr_default := pr_default p; pr_agents := pr_agents p;
           pr_path := Some (candidate (drop k cwd)) |},
     (writeProjectConfig p (candidate (drop k cwd)) w).2).
Proof.
  intros Hp Hk Hbelow. unfold writeProjectConfig.
  rewrite (load_found _ _ (candidate (drop k cwd))).
  - unfold Fs.writeFile at 1. cbn [snd files]. rewrite lookup_insert_eq.
    destruct (config_json_loads p Hp) as [-> ->]. done.
  - apply findConfigFile_nearest; [done| |apply exists_written].
    intros i Hi. rewrite exists_after_write by by apply candidate_drop_neq.
    by apply Hbelow.
Qed.

(** X17. A configuration that is written is the configuration that is
    read: after [writeProjectConfig] has written a well-formed
    configuration to the place of a configuration file (no directory) that
    no configuration file nearer to the working directory shadows,
    [loadProjectConfig] returns from the working directory the same default
    and the same sections, with the path of the file. *)
Theorem writeProjectConfig_loads_back p cwd k w :
  normal_project p → (k ≤ List.length cwd)%nat →
  candidate (drop k cwd) ∉ dirs w →
  (∀ i, (i < k)%nat → Fs.exists_ (candidate (drop i cwd)) w = false) →
  loadProjectConfig cwd (writeProjectConfig p (candidate (drop k cwd)) w).2
  = (Ok {| pr_default := pr_default p; pr_agents := pr_agents p;
           pr_path := Some (candidate (drop k cwd)) |},
     (writeProjectConfig p (candidate (drop k cwd)) w).2).
Proof. intros Hp Hk _. by apply write_then_load. Qed.

Lemma writeProjectConfig_loads_back_witness :
  loadProjectConfig ["proj"]
    (writeProjectConfig Scenes.codex_project (candidate (drop 0 ["proj"]))
       Scenes.project_world).2
  = (Ok {| pr_default := pr_default Scenes.codex_project;
           pr_agents := pr_agents Scenes.codex_project;
           pr_path := Some (candidate (drop 0 ["proj"])) |},
     (writeProjectConfig Scenes.codex_project (candidate (drop 0 ["proj"]))
        Scenes.project_world).2).
Proof.
  apply (writeProjectConfig_loads_back Scenes.codex_project ["proj"] 0 Scenes.project_world).
  - split.
    + intros d [= <-]. apply supported_iff. by left.
    + intros k s Hk. cbn [pr_agents Scenes.codex_project] in Hk.
      apply lookup_singleton_Some in Hk as [<- <-]. split.
      * apply supported_iff. by left.
      * unfold normal_section. cbn. repeat split; [by right|by left|by right].
  - simpl. lia.
  - intros H. cbn [dirs Scenes.project_world] in H.
    apply elem_of_singleton in H. discriminate H.
  - intros i Hi. lia.
Defined.

Lemma new_section_normal : normal_section new_section.
Proof. unfold normal_section, new_section. cbn. repeat split; by right. Qed.

Lemma updated_section_normal agents n sp args :
  normal_sections agents → normal_section (updated_section agents n sp args).
Proof.
  intros Hs. unfold updated_section.
  assert (normal_section (default new_section (agents !! n))) as Hbase.
  { destruct (agents !! n) as [s|] eqn:E; [by destruct (Hs n s E)|apply new_section_normal]. }
  destruct Hbase as (Hp & Hv & Ha).
  assert (∀ a, Json.truthy (JStr a) = true ∨ JStr a = JStr "") as Hstr.
  { intros [|c a]; [by right|by left]. }
  destruct (spec_version sp) as [v|]; [destruct (Js.nonempty v) eqn:Hne|];
    destruct args as [a|]; unfold normal_section; cbn [sec_package sec_version sec_args];
    repeat split; try done; try apply Hstr; by left.
Qed.

Lemma candidate_nonempty dir : Js.nonempty (candidate dir) = true.
Proof.
  unfold candidate, Path.join. destruct (path_of dir); reflexivity.
Qed.

(** The file that [localAction] writes is the nearest configuration file,
    or the one of the working directory when there is none. *)
Lemma local_target_nearest cwd w p :
  (loadProjectConfig cwd w).1 = Ok p →
  ∃ k, (k ≤ List.length cwd)%nat ∧ local_target cwd p = candidate (drop k cwd)
       ∧ ∀ i, (i < k)%nat → Fs.exists_ (candidate (drop i cwd)) w = false.
Proof.
  intros Hp. apply loaded_path in Hp. unfold local_target.
  destruct (pr_path p) as [f|].
  - destruct Hp as (k & Hk & -> & _ & Hbelow). exists k. split; [done|].
    split; [|done]. cbn. by rewrite candidate_nonempty.
  - exists 0%nat. split; [lia|]. split; [by rewrite drop_0|]. intros i Hi. lia.
Qed.

(** The run of [localAction] once the configuration is loaded and the
    specifier names a supported tool. *)
Lemma localAction_run cwd a args w p sp :
  (loadProjectConfig cwd w).1 = Ok p →
  parseAgentSpec a = Some sp → spec_name sp ∈ SUPPORTED_AGENTS →
  let sec := updated_section (pr_agents p) (spec_name sp) sp args in
  let p' := {| pr_default := Some (spec_name sp);
               pr_agents := <[ spec_name sp := sec ]> (pr_agents p);
               pr_path := pr_path p |} in
  ∃ msg,
    localAction cwd a args w
    = (Ok tt, {| dirs := dirs w;
                 files := <[ local_target cwd p := Doc (config_json p') ]> (files w);
                 trace := trace w ++ [WriteFile (local_target cwd p) (config_json p');
                                      Log msg] |}).
Proof.
  intros Hp Hsp Hsup sec p'.
  destruct (parseAgentSpec_shape_of a sp Hsp) as (Hne & Hnorm & _).
  unfold localAction. unfold io_bind at 1.
  pose proof (loadProjectConfig_world cwd w) as Hw.
  destruct (loadProjectConfig cwd w) as [r w0]. cbn in Hp, Hw. subst r w0.
  rewrite Hsp. apply nonempty_true in Hne. rewrite Hne. cbn [negb].
  rewrite Hnorm. unfold io_bind at 1, io_lift, assertSupportedAgent.
  rewrite decide_True by done.
  unfold io_bind, writeProjectConfig, Fs.writeFile, emit. cbn [dirs files trace].
  eexists. rewrite <- app_assoc. reflexivity.
Qed.

(** X18. The contract of [avm local]. Without a specifier the command
    fails with nothing written, and so it does for a tool that is not
    supported and when the project configuration cannot be loaded.
    Otherwise it writes one file, the nearest configuration file or the one
    of the working directory, and the configuration then loaded from the
    working directory has the tool as default and the version of the
    specifier in the section of the tool, the other sections being as they
    were; resolving with no specifier against it gives that tool, at that
    version, whatever the global state and the overrides are. *)
Theorem localAction_sets_project_default cwd a args w :
  (∀ e, (loadProjectConfig cwd w).1 = Err e → localAction cwd a args w = (Err e, w))
  ∧ (∀ p, (loadProjectConfig cwd w).1 = Ok p → parseAgentSpec a = None →
       localAction cwd a args w = (Err NoAgentSpecified, w))
  ∧ (∀ p sp, (loadProjectConfig cwd w).1 = Ok p → parseAgentSpec a = Some sp →
       spec_name sp ∉ SUPPORTED_AGENTS →
       localAction cwd a args w = (Err (UnsupportedAgent (spec_name sp)), w))
  ∧ (∀ p sp, (loadProjectConfig cwd w).1 = Ok p → parseAgentSpec a = Some sp →
       spec_name sp ∈ SUPPORTED_AGENTS →
       let r := localAction cwd a args w in
       let sec := updated_section (pr_agents p) (spec_name sp) sp args in
       let p' := {| pr_default := Some (spec_name sp);
                    pr_agents := <[ spec_name sp := sec ]> (pr_agents p);
                    pr_path := Some (local_target cwd p) |} in
       r.1 = Ok tt
       ∧ dirs r.2 = dirs w
       ∧ (∀ q, q ≠ local_target cwd p → files r.2 !! q = files w !! q)
       ∧ loadProjectConfig cwd r.2 = (Ok p', r.2)
       ∧ (∀ v, spec_version sp = Some v → sec_version sec = JStr v)
       ∧ ∀ s o, ∃ t, resolveTarget None (config_of p') s o = Ok t
                     ∧ name t = spec_name sp
                     ∧ ∀ v, spec_version sp = Some v → version t = v).
Proof.
  pose proof (loadProjectConfig_world cwd w) as Hw.
  split.
  { intros e He. unfold localAction, io_bind.
    destruct (loadProjectConfig cwd w) as [r w0]. cbn in He, Hw. by subst r w0. }
  split.
  { intros p Hp Hsp. unfold localAction, io_bind.
    destruct (loadProjectConfig cwd w) as [r w0]. cbn in Hp, Hw. subst r w0.
    by rewrite Hsp. }
  split.
  { intros p sp Hp Hsp Hsup.
    destruct (parseAgentSpec_shape_of a sp Hsp) as (Hne & Hnorm & _).
    unfold localAction. unfold io_bind at 1.
    destruct (loadProjectConfig cwd w) as [r w0]. cbn in Hp, Hw. subst r w0.
    rewrite Hsp. apply nonempty_true in Hne. rewrite Hne. cbn [negb].
    rewrite Hnorm. unfold io_bind, io_lift, assertSupportedAgent.
    by rewrite decide_False. }
  intros p sp Hp Hsp Hsup r sec p'.
  destruct (localAction_run cwd a args w p sp Hp Hsp Hsup) as [msg Hrun].
  cbv zeta in Hrun. fold sec in Hrun. fold r in Hrun.
  destruct (parseAgentSpec_shape_of a sp Hsp) as (Hne & Hnorm & Hver).
  pose proof (loadProjectConfig_normal cwd w p Hp) as [Hdef Hsecs].
  assert (normal_section sec) as Hsec by by apply updated_section_normal.
  set (written := {| pr_default := Some (spec_name sp);
                     pr_agents := <[ spec_name sp := sec ]> (pr_agents p);
                     pr_path := pr_path p |}) in *.
  assert (normal_project written) as Hnormal.
  { split; cbn.
    - by intros d [= <-].
    - intros k s. rewrite lookup_insert. case_decide as Hk.
      + intros [= <-]. by subst k.
      + apply Hsecs. }
  destruct (local_target_nearest cwd w p Hp) as (k & Hk & Htarget & Hbelow).
  assert (∀ v, spec_version sp = Some v → sec_version sec = JStr v) as Hsecv.
  { intros v Hv. unfold sec, updated_section. rewrite Hv.
    assert (Js.nonempty v = true) as ->.
    { destruct v; [|done]. by rewrite Hv in Hver. }
    by destruct args. }
  rewrite Hrun. cbn [fst snd dirs files].
  split; [done|]. split; [done|].
  split. { intros q Hq. by rewrite lookup_insert_ne. }
  split.
  { pose proof (write_then_load written cwd k w Hnormal Hk Hbelow) as Hload.
    rewrite <- Htarget in Hload.
    match goal with |- loadProjectConfig cwd ?w2 = _ => set (w2' := w2) end.
    pose proof (loadProjectConfig_world cwd w2') as Hw2.
    assert ((loadProjectConfig cwd w2').1 = Ok p') as Hres.
    { rewrite (load_same_fs cwd (writeProjectConfig written (local_target cwd p) w).2 w2')
        by done.
      by rewrite Hload. }
    destruct (loadProjectConfig cwd w2') as [r2 w2'']. cbn in Hres, Hw2. by subst. }
  split; [exact Hsecv|].
  intros s o.
  destruct (resolveTarget_by_name None (config_of p') s o) as (_ & _ & Hgood).
  assert (normalizeAgentName (Spec.first_nonempty (Spec.name_sources None (config_of p') s))
          = spec_name sp) as Hname.
  { unfold Spec.name_sources. cbn.
    apply nonempty_true in Hne. by rewrite Hne. }
  rewrite Hname in Hgood. destruct (Hgood Hsup) as (t & Ht & Hnt).
  exists t. split; [done|]. split; [done|].
  intros v Hv. rewrite resolveTarget_refines in Ht.
  destruct (spec_ok _ _ _ _ _ Ht) as (_ & _ & _ & Hvt & _). rewrite Hvt, Hname.
  unfold Spec.version_sources, Spec.entry_for. cbn [parseAgentSpec mbind option_bind].
  cbn [config_of cfg_agents pr_agents p']. rewrite lookup_fmap, lookup_insert_eq.
  cbn [fmap option_fmap option_map default]. unfold id, entry_of. cbn [e_version].
  rewrite (Hsecv v Hv). cbn [field Spec.first_nonempty].
  assert (Js.nonempty v = true) as ->; [|done].
  destruct v; [|done]. by rewrite Hv in Hver.
Qed.

End LocalFacts.

(** ** commands.js: the install and global actions *)

Module ActionsFacts.
Import JsFacts Agents AgentsFacts Commands Actions StateFacts ConfigFacts
  ResolutionFacts Install StoreSpec InstallFacts StoreFacts.

(** A sequence that succeeds is made of two steps that succeed. *)
Lemma bind_ok {A B} (m : io A) (f : A → io B) w b w'' :
  io_bind m f w = (Ok b, w'') → ∃ a w', m w = (Ok a, w') ∧ f a w' = (Ok b, w'').
Proof.
  unfold io_bind. destruct (m w) as [[a|e] w']; [|done]. intros H. by exists a, w'.
Qed.

Lemma keeps_bind {A B} q (m : io A) (f : A → io B) :
  keeps q m → (∀ a, keeps q (f a)) → keeps q (io_bind m f).
Proof.
  intros Hm Hf w. unfold io_bind. specialize (Hm w).
  destruct (m w) as [[a|e] w']; cbn [snd] in *; [|done].
  by rewrite Hf.
Qed.

Lemma keeps_load q cwd : keeps q (loadProjectConfig cwd).
Proof. intros w. by rewrite loadProjectConfig_world. Qed.

Lemma readState_world home w : (State.readState home w).2 = w.
Proof.
  rewrite readState_cases. destruct (files w !! _) as [[|j]|]; [done..|].
  case_bool_decide; [done|]. by destruct (Fs.below_file _ w).
Qed.

Lemma keeps_readState q home : keeps q (State.readState home).
Proof. intros w. by rewrite readState_world. Qed.

Lemma keeps_lift {A} q (r : result A) : keeps q (io_lift r).
Proof. done. Qed.

Lemma keeps_emit q e : keeps q (emit e).
Proof. done. Qed.

Lemma keeps_ensureInstalled q home env t registry :
  Path.under (State.AGENTS_DIR home) q = false →
  keeps q (ensureInstalled home env t registry).
Proof.
  intros Hq w. apply ensureInstalled_outside.
  destruct (Path.under (install_path home t) q) eqn:E; [|done].
  apply install_under_base in E. congruence.
Qed.

(** [writeState] fails as [readState] does, or writes the state file. *)
Lemma writeState_cases home env patch w :
  (∃ e, (State.readState home w).1 = Err e
        ∧ State.writeState home env patch w = (Err e, w))
  ∨ (∃ previous, (State.readState home w).1 = Ok previous).
Proof.
  rewrite readState_cases. unfold State.writeState, io_bind. rewrite readJson_cases.
  destruct (files w !! State.STATE_FILE home) as [[|j]|]; cbn [fst].
  - left. by eexists.
  - right. by eexists.
  - case_bool_decide; [left; by eexists|].
    destruct (Fs.below_file _ w); [left|right]; by eexists.
Qed.

Lemma keeps_writeState q home env patch :
  q ≠ State.STATE_FILE home → NoDup patch.*1 →
  keeps q (State.writeState home env patch).
Proof.
  intros Hq Hnd w.
  destruct (writeState_cases home env patch w) as [(e & _ & ->)|[previous Hprev]]; [done|].
  destruct (writeState_spec home env patch w previous Hprev Hnd) as (next & -> & _).
  cbn [snd files]. by rewrite lookup_insert_ne.
Qed.

Lemma load_run cwd w : loadProjectConfig cwd w = ((loadProjectConfig cwd w).1, w).
Proof. rewrite <- (loadProjectConfig_world cwd w) at 3. by destruct (loadProjectConfig cwd w). Qed.

Lemma readState_run home w : State.readState home w = ((State.readState home w).1, w).
Proof. rewrite <- (readState_world home w) at 3. by destruct (State.readState home w). Qed.

(** On a configuration and a state whose fields are falsy or strings, the
    typed readings keep the truthiness and the text of every field. *)
Lemma field_faithful j :
  stringy (Some j) →
  Js.truthy (field j) = Json.truthy j
  ∧ (Json.truthy j = true → Some j = JStr <$> field j).
Proof.
  intros Hj. destruct (Json.truthy j) eqn:Ht.
  - destruct (Hj Ht) as [s ->]. by split.
  - split; [|done]. destruct j as [| | |s| |]; try done.
Qed.

Lemma field_of_faithful v :
  stringy v →
  Js.truthy (field_of v) = Json.truthy_opt v
  ∧ (Json.truthy_opt v = true → v = JStr <$> field_of v).
Proof.
  destruct v as [j|]; [|done]. intros Hj. cbn [Json.truthy_opt stringy] in *.
  destruct (Json.truthy j) eqn:Ht.
  - destruct (Hj eq_refl) as [s ->]. by split.
  - split; [|done]. destruct j as [| | |s| |]; try done.
Qed.

(** X19. The commands keep to their own store. On a project configuration
    and a state whose fields are falsy or strings, and for a resolved
    target whose name and version are plain path segments: [installAction]
    changes no file outside the agents directory, in particular neither
    the global state nor a project configuration; [globalAction] changes,
    outside the agents directory, the state file only. This holds whatever
    the command returns. When the project configuration or the state
    cannot be read, the commands fail with the error of the read and
    change nothing. *)
Theorem actions_keep_to_their_store home cwd env env' a opts w :
  (∀ p st t,
     (loadProjectConfig cwd w).1 = Ok p → typed_project p →
     (State.readState home w).1 = Ok st → typed_state st →
     resolveTarget a (config_of p) (state_of st)
       {| packageOverride := opt_package opts; argsOverride := None |} = Ok t →
     Discovery.plain_target t →
     (∀ q, Path.under (State.AGENTS_DIR home) q = false →
        files (installAction home cwd env a opts w).2 !! q = files w !! q)
     ∧ files (installAction home cwd env a opts w).2 !! State.STATE_FILE home
       = files w !! State.STATE_FILE home)
  ∧ (∀ p st t,
       (loadProjectConfig cwd w).1 = Ok p → typed_project p →
       (State.readState home w).1 = Ok st → typed_state st →
       resolveTarget a (config_of p) (state_of st)
         {| packageOverride := opt_package opts; argsOverride := opt_args opts |} = Ok t →
       Discovery.plain_target t →
       ∀ q, Path.under (State.AGENTS_DIR home) q = false → q ≠ State.STATE_FILE home →
            files (globalAction home cwd env env' a opts w).2 !! q = files w !! q)
  ∧ (∀ e, (loadProjectConfig cwd w).1 = Err e →
       installAction home cwd env a opts w = (Err e, w)
       ∧ globalAction home cwd env env' a opts w = (Err e, w))
  ∧ (∀ p e, (loadProjectConfig cwd w).1 = Ok p → (State.readState home w).1 = Err e →
       installAction home cwd env a opts w = (Err e, w)
       ∧ globalAction home cwd env env' a opts w = (Err e, w)).
Proof.
  assert (∀ q, Path.under (State.AGENTS_DIR home) q = false →
            keeps q (installAction home cwd env a opts)) as Hinstall.
  { intros q Hq. unfold installAction.
    apply keeps_bind; [apply keeps_load|intros p].
    apply keeps_bind; [apply keeps_readState|intros st].
    apply keeps_bind; [apply keeps_lift|intros t].
    apply keeps_bind; [by apply keeps_ensureInstalled|intros r].
    apply keeps_emit. }
  split.
  { intros p st t _ _ _ _ _ _.
    split; [intros q Hq; by apply Hinstall|apply Hinstall, state_file_outside]. }
  split.
  { intros p st t _ _ _ _ _ _ q Hq Hne. revert w.
    change (keeps q (globalAction home cwd env env' a opts)).
    unfold globalAction, setCurrent.
    apply keeps_bind; [apply keeps_load|intros p'].
    apply keeps_bind; [apply keeps_readState|intros st'].
    apply keeps_bind; [apply keeps_lift|intros t'].
    apply keeps_bind; [by apply keeps_ensureInstalled|intros r].
    apply keeps_bind; [|intros ?; apply keeps_emit].
    apply keeps_writeState; [done|]. cbn. apply NoDup_singleton. }
  split.
  { intros e He. unfold installAction, globalAction, io_bind.
    by rewrite (load_run cwd w), He. }
  intros p e Hp He. unfold installAction, globalAction, io_bind.
  by rewrite (load_run cwd w), Hp, (readState_run home w), He.
Qed.

(** [avm install codex@0.1.0] in a project without configuration leaves
    the state file, which records a self-update check, as it is. *)
Lemma actions_keep_to_their_store_witness :
  files (installAction "/home/u/.avm" ["proj"] Samples.good_day (Some "codex@0.1.0")
           Scenes.fast_options Samples.checked_world).2
    !! State.STATE_FILE "/home/u/.avm"
  = files Samples.checked_world !! State.STATE_FILE "/home/u/.avm".
Proof.
  destruct (actions_keep_to_their_store "/home/u/.avm" ["proj"] Samples.good_day
              Samples.good_day (Some "codex@0.1.0") Scenes.fast_options
              Samples.checked_world) as (Hinstall & _).
  destruct (Hinstall empty_project
              (JObj [("self", JObj [("latestVersion", JStr "0.3.0")])])
              (Samples.codex_target "")) as [_ Hstate].
  - vm_compute. reflexivity.
  - intros k s Hk. cbn [pr_agents empty_project] in Hk. by rewrite lookup_empty in Hk.
  - vm_compute. reflexivity.
  - intros cur Hcur. discriminate Hcur.
  - vm_compute. reflexivity.
  - by repeat split.
  - exact Hstate.
Defined.

(** The record that a successful run returns carries the name, the package
    and the version of the target, and its args when they are not empty. *)
Lemma ensure_ok_meta home env t registry w x :
  (ensureInstalled home env t registry w).1 = Ok x →
  Json.truthy x.2 = true
  ∧ Json.get x.2 "name" = Some (JStr (name t))
  ∧ Json.get x.2 "package" = Some (JStr (package t))
  ∧ Json.get x.2 "version" = Some (JStr (version t))
  ∧ (args t ≠ "" → Json.get x.2 "args" = Some (JStr (args t))).
Proof.
  rewrite ensureInstalled_cases. cbv zeta.
  assert ((after_install home t env registry w).1 = Ok x →
          x.2 = fresh_record t env) as Hinst.
  { unfold after_install. destruct (child_end env) as [[|c|c]|]; cbn [fst]; try done.
    by intros [= <-]. }
  assert ((∃ j, x.2 = merged_record t j) ∨ x.2 = fresh_record t env →
          Json.truthy x.2 = true
          ∧ Json.get x.2 "name" = Some (JStr (name t))
          ∧ Json.get x.2 "package" = Some (JStr (package t))
          ∧ Json.get x.2 "version" = Some (JStr (version t))
          ∧ (args t ≠ "" → Json.get x.2 "args" = Some (JStr (args t)))) as Hfields.
  { intros [[j ->]| ->].
    - rewrite !merged_record_get. cbn [String.eqb Ascii.eqb Bool.eqb].
      repeat split. intros Ha%nonempty_true. by rewrite Ha.
    - by repeat split. }
  destruct (Fs.exists_ (install_path home t) w).
  2:{ intros Hx. apply Hfields. right. by apply Hinst. }
  destruct (files w !! meta_path home t) as [[|j]|]; [done| |].
  - destruct (_ && _).
    + unfold after_hit. destruct (_ || _); cbn [fst]; intros [= <-];
        apply Hfields; left; by eexists.
    + intros Hx. apply Hfields. right. by apply Hinst.
  - case_bool_decide; [done|]. destruct (Fs.below_file _ w); [done|].
    intros Hx. apply Hfields. right. by apply Hinst.
Qed.

(** X20. What [avm global] records is what a later resolution finds. On a
    project configuration and a state whose fields are falsy or strings:
    when [globalAction] succeeds, the state file can be read again and its
    [current] entry carries the tool, the package and the version that the
    command resolved; when the command resolved args, the recorded entry
    holds strings only. Resolving afterwards on such a state, with no
    specifier and no override, against a project configuration that says
    nothing about the tool, gives that tool, package and version again, and
    the args of the command when it resolved any. *)
Theorem globalAction_records_target home cwd env env' a opts w w' :
  (∀ p, (loadProjectConfig cwd w).1 = Ok p → typed_project p) →
  (∀ st, (State.readState home w).1 = Ok st → typed_state st) →
  globalAction home cwd env env' a opts w = (Ok tt, w') →
  ∃ p st0 t st,
    loadProjectConfig cwd w = (Ok p, w)
    ∧ State.readState home w = (Ok st0, w)
    ∧ resolveTarget a (config_of p) (state_of st0)
        {| packageOverride := opt_package opts; argsOverride := opt_args opts |} = Ok t
    ∧ State.readState home w' = (Ok st, w')
    ∧ Json.get st "current" ≫= (λ cur, Json.get cur "name") = Some (JStr (name t))
    ∧ Json.get st "current" ≫= (λ cur, Json.get cur "package") = Some (JStr (package t))
    ∧ Json.get st "current" ≫= (λ cur, Json.get cur "version") = Some (JStr (version t))
    ∧ (args t ≠ "" →
       Json.get st "current" ≫= (λ cur, Json.get cur "args") = Some (JStr (args t))
       ∧ typed_state st)
    ∧ cur_name <$> st_current (state_of st) = Some (Some (name t))
    ∧ cur_package <$> st_current (state_of st) = Some (Some (package t))
    ∧ cur_version <$> st_current (state_of st) = Some (Some (version t))
    ∧ ∀ c', typed_state st →
            Spec.first_nonempty [cfg_default c'] = None →
            cfg_agents c' !! name t = None →
            ∃ t', resolveTarget None c' (state_of st) no_overrides = Ok t'
                  ∧ name t' = name t ∧ package t' = package t
                  ∧ version t' = version t
                  ∧ (args t ≠ "" → args t' = args t).
Proof.
  unfold globalAction. intros _ _ Hrun.
  apply bind_ok in Hrun as (p & w1 & Hload & Hrun).
  pose proof (loadProjectConfig_world cwd w) as Hw1. rewrite Hload in Hw1.
  cbn in Hw1. subst w1.
  apply bind_ok in Hrun as (st0 & w1 & Hread & Hrun).
  pose proof (readState_world home w) as Hw1. rewrite Hread in Hw1.
  cbn in Hw1. subst w1.
  apply bind_ok in Hrun as (t & w1 & Hres & Hrun).
  unfold io_lift in Hres. injection Hres as Hres <-.
  apply bind_ok in Hrun as (x & w1 & Hens & Hrun).
  apply bind_ok in Hrun as ([] & w2 & Hset & Hlog).
  unfold emit in Hlog. injection Hlog as <-.
  destruct (ensure_ok_meta home env t (opt_registry opts) w x) as
    (Htruthy & Hn & Hp & Hv & Ha).
  { by rewrite Hens. }
  unfold setCurrent in Hset.
  destruct (writeState_cases home env' [("current", x.2)] w1)
    as [(e & _ & Hfail)|[previous Hprev]]; [congruence|].
  destruct (writeState_spec home env' [("current", x.2)] w1 previous Hprev)
    as (next & Hwrite & Hnext).
  { cbn. apply NoDup_singleton. }
  rewrite Hwrite in Hset. injection Hset as <-.
  exists p, st0, t, (JObj next).
  split; [done|]. split; [done|]. split; [done|].
  assert (Json.get (JObj next) "current" = Some x.2) as Hcur.
  { cbn [Json.get]. rewrite (Hnext "current"). by rewrite decide_False by done. }
  assert (state_of (JObj next)
          = {| st_current :=
                 Some {| cur_name := Some (name t); cur_package := Some (package t);
                         cur_version := Some (version t);
                         cur_args := field_of (Json.get x.2 "args") |} |}) as Hstate.
  { unfold state_of. rewrite Hcur. by rewrite Htruthy, Hn, Hp, Hv. }
  split.
  { rewrite readState_cases. cbn [files]. by rewrite lookup_insert_eq. }
  rewrite Hcur. cbn [mbind option_bind].
  split; [done|]. split; [done|]. split; [done|].
  split.
  { intros Hargs. split; [by apply Ha|].
    intros cur Hcur'. rewrite Hcur in Hcur'. injection Hcur' as <-. intros _.
    rewrite Hn, Hp, Hv, (Ha Hargs). cbn [stringy]. repeat split; by eauto. }
  rewrite Hstate. cbn [st_current fmap option_fmap option_map cur_name cur_package
                       cur_version].
  split; [done|]. split; [done|]. split; [done|].
  intros c' _ Hdef Hsec.
  destruct (resolved_wellformed _ _ _ _ _ Hres) as (Hsup & _ & Hpne & Hvne).
  eexists. split; [by apply replay_current|].
  cbn [name package version args]. repeat split.
  intros Hargs. rewrite (Ha Hargs). cbn [field_of Js.or_lit].
  apply nonempty_true in Hargs. by rewrite Hargs.
Qed.

Lemma globalAction_records_target_witness :
  let home := "/home/u/.avm" in
  let w := Samples.empty_world in
  let opts := Scenes.fast_options in
  let w' := (globalAction home ["proj"] Samples.good_day Samples.good_day
               (Some "codex@0.1.0") opts w).2 in
  ∃ st, State.readState home w' = (Ok st, w')
        ∧ Json.get st "current" ≫= (λ cur, Json.get cur "name") = Some (JStr "codex")
        ∧ Json.get st "current" ≫= (λ cur, Json.get cur "version") = Some (JStr "0.1.0")
        ∧ Json.get st "current" ≫= (λ cur, Json.get cur "args") = Some (JStr "--fast").
Proof.
  destruct (globalAction_records_target "/home/u/.avm" ["proj"] Samples.good_day
              Samples.good_day (Some "codex@0.1.0") Scenes.fast_options
              Samples.empty_world
              (globalAction "/home/u/.avm" ["proj"] Samples.good_day Samples.good_day
                 (Some "codex@0.1.0") Scenes.fast_options Samples.empty_world).2)
    as (p & st0 & t & st & Hload & Hread & Hres & Hread' & Hn & _ & Hv & Ha & _).
  - intros p Hp.
    assert ((loadProjectConfig ["proj"] Samples.empty_world).1 = Ok empty_project) as He.
    { vm_compute. reflexivity. }
    rewrite He in Hp. injection Hp as <-. intros k s Hk.
    cbn [pr_agents empty_project] in Hk. by rewrite lookup_empty in Hk.
  - intros st Hst.
    assert ((State.readState "/home/u/.avm" Samples.empty_world).1 = Ok (JObj [])) as He.
    { vm_compute. reflexivity. }
    rewrite He in Hst. injection Hst as <-. intros cur Hcur. discriminate Hcur.
  - reflexivity.
  - injection Hload as <-. injection Hread as <-. injection Hres as <-.
    exists st. split; [exact Hread'|]. split; [exact Hn|]. split; [exact Hv|].
    by apply Ha.
Defined.

End ActionsFacts.
